(** * A shallow embedding of the lector PDF viewer core

    The development follows the TypeScript sources of the viewer:
    - [Geometry]: the rect-consolidation engine of [useSelectionDimensions]
      ([shouldMergeRects], [doRectsOverlap], [mergeRectGroup],
      [consolidateRects], [consolidateHighlightRects]);
    - [SelectionDimensions]: the selection extraction
      [getAnnotationDimension] and [getDimension] over a record model of the
      browser objects they read;
    - [DetailCanvas]: the scale clamp [clampScaleForPage] of
      [useDetailCanvasLayer];
    - [Render]: the life cycle of the cancellable render operation that the
      layout effect of [useCanvasLayer] / [useDetailCanvasLayer] issues;
    - [Store]: the annotation store [useAnnotations] and the comment handlers
      of the viewer page ([handleSaveComment], [handleCancelComment],
      [handleAnnotationTooltipClose]);
    - [TextSelection]: the selection manager of [useTextLayer].

    JavaScript numbers are modelled twice.  The modules above use exact
    numbers: rationals [Q] where the code only adds, multiplies, divides,
    compares and takes floors (so that every definition computes), reals
    [R] for [clampScaleForPage], which takes a square root.  They carry the
    facts that do not depend on how a result is rounded: orders, counts,
    page numbers, which branch is taken on exactly representable inputs.

    The modules [Binary64], [Rounding64], [Geometry64], [Raster64] and
    [DetailCanvas64] at the end of the file model the same functions on
    binary64 numbers, with the operations of IEEE 754 as the primitive
    floats provide them: every sum, product, quotient and square root is
    rounded as the engine rounds it, and [NaN] and the infinities are values
    like any other.
    - [Binary64]: [Math.min], [Math.max], the order of the numbers and the
      exact value of a finite number;
    - [Rounding64]: how far a rounded product, quotient and square root are
      from the exact ones;
    - [Geometry64]: the consolidation engine again, with what can be said
      of widths, heights and corners once sums are rounded;
    - [Raster64]: the sizing of the base canvas in [useCanvasLayer];
    - [DetailCanvas64]: [clampScaleForPage] with its [Number.isFinite]
      tests, and its limits up to rounding. *)

From Stdlib Require Import QArith Qabs Qminmax Qround Lqa.
From Stdlib Require Import ZArith Lia Bool String Ascii List Permutation.
From Stdlib Require Reals Lra Qreals.
From Stdlib Require Floats.
From Stdlib Require Import Sorted.
Import ListNotations.

(** ** Outcomes of a call

    A JavaScript call either returns a value or throws.  Loops that the
    source writes as [while] are run with a fuel bound; [OutOfFuel] is the
    outcome of a bound that was too small (and is proved unreachable for the
    bounds used below). *)

Inductive result (A : Type) : Type :=
| Returned (a : A)
| Thrown (msg : string)
| OutOfFuel.

Arguments Returned {A} a.
Arguments Thrown {A} msg.
Arguments OutOfFuel {A}.

Definition bind {A B : Type} (r : result A) (k : A -> result B) : result B :=
  match r with
  | Returned a => k a
  | Thrown msg => Thrown msg
  | OutOfFuel => OutOfFuel
  end.

Notation "x <- r ;; k" := (bind r (fun x => k))
  (at level 61, r at next level, right associativity).
Notation "' p <- r ;; k" := (bind r (fun x => let 'p := x in k))
  (at level 61, p pattern, r at next level, right associativity).

(** ** Comparisons on rationals as booleans *)

Definition Qleb (a b : Q) : bool := Qle_bool a b.
Definition Qltb (a b : Q) : bool := negb (Qle_bool b a).

Lemma Qleb_true (a b : Q) : Qleb a b = true <-> (a <= b)%Q.
Proof. unfold Qleb. apply Qle_bool_iff. Qed.

Lemma Qleb_false (a b : Q) : Qleb a b = false <-> (b < a)%Q.
Proof.
  unfold Qleb. split; intro H.
  - apply Qnot_le_lt. intro Hle. apply Qle_bool_iff in Hle. congruence.
  - destruct (Qle_bool a b) eqn:E; [|reflexivity].
    apply Qle_bool_iff in E. exfalso. apply (Qlt_not_le _ _ H E).
Qed.

Lemma Qltb_true (a b : Q) : Qltb a b = true <-> (a < b)%Q.
Proof.
  unfold Qltb. rewrite negb_true_iff. apply (Qleb_false b a).
Qed.

Lemma Qltb_false (a b : Q) : Qltb a b = false <-> (b <= a)%Q.
Proof.
  unfold Qltb. rewrite negb_false_iff. apply (Qleb_true b a).
Qed.

(** ** [Array.prototype.sort]

    The built-in sort is stable and orders [a] before [b] when the comparator
    returns a negative number, [b] before [a] when it returns a positive
    one, and keeps the input order of elements that compare equal.  It is
    modelled by a stable insertion sort; on inputs that the comparator orders
    consistently every stable sort returns the same list. *)

Section Sort.
Context {A : Type}.
Variable compareFn : A -> A -> Q.

Fixpoint insertSorted (x : A) (l : list A) : list A :=
  match l with
  | [] => [x]
  | y :: l' =>
      if Qleb (compareFn x y) 0 then x :: y :: l'
      else y :: insertSorted x l'
  end.

Definition sortBy (l : list A) : list A :=
  fold_right insertSorted [] l.

Lemma insertSorted_perm (x : A) (l : list A) :
  Permutation (insertSorted x l) (x :: l).
Proof.
  induction l as [|y l IH]; simpl.
  - apply Permutation_refl.
  - destruct (Qleb (compareFn x y) 0).
    + apply Permutation_refl.
    + eapply perm_trans; [apply perm_skip, IH | apply perm_swap].
Qed.

Lemma sortBy_perm (l : list A) : Permutation (sortBy l) l.
Proof.
  induction l as [|x l IH]; simpl.
  - apply perm_nil.
  - eapply perm_trans; [apply insertSorted_perm | apply perm_skip, IH].
Qed.

Lemma sortBy_In (l : list A) (x : A) : In x (sortBy l) <-> In x l.
Proof.
  split; apply Permutation_in;
    [apply sortBy_perm | apply Permutation_sym, sortBy_perm].
Qed.

Lemma sortBy_length (l : list A) : length (sortBy l) = length l.
Proof. apply Permutation_length, sortBy_perm. Qed.
End Sort.

Module Geometry.

Open Scope Q_scope.

(** *** Data model *)

Record HighlightRect : Type := mkRect {
  top : Q;
  left : Q;
  width : Q;
  height : Q;
  pageNumber : Z
}.

Definition MERGE_THRESHOLD : Q := 2.

Definition right (r : HighlightRect) : Q := left r + width r.
Definition bottom (r : HighlightRect) : Q := top r + height r.

(** *** [shouldMergeRects] *)

Definition shouldMergeRects (rect1 rect2 : HighlightRect) : bool :=
  let verticalOverlap :=
    negb (Qltb (top rect2 + height rect2) (top rect1)
          || Qltb (top rect1 + height rect1) (top rect2)) in
  let horizontallyConnected :=
    Qleb (Qabs (left rect1 + width rect1 - left rect2)) MERGE_THRESHOLD
    || Qleb (Qabs (left rect2 + width rect2 - left rect1)) MERGE_THRESHOLD
    || (Qltb (left rect1) (left rect2 + width rect2)
        && Qltb (left rect2) (left rect1 + width rect1)) in
  verticalOverlap && horizontallyConnected.

(** *** [doRectsOverlap] *)

Definition doRectsOverlap (rect1 rect2 : HighlightRect) : bool :=
  let horizontalOverlap :=
    Qltb (left rect1) (left rect2 + width rect2)
    && Qltb (left rect2) (left rect1 + width rect1) in
  let verticalOverlap :=
    Qltb (top rect1) (top rect2 + height rect2)
    && Qltb (top rect2) (top rect1 + height rect1) in
  let closeEnough := shouldMergeRects rect1 rect2 in
  (horizontalOverlap && verticalOverlap) || closeEnough.

(** *** [mergeRectGroup] *)

Definition growBox (acc : Q * Q * Q * Q) (rect : HighlightRect)
  : Q * Q * Q * Q :=
  let '(minLeft, minTop, maxRight, maxBottom) := acc in
  (Qmin minLeft (left rect),
   Qmin minTop (top rect),
   Qmax maxRight (left rect + width rect),
   Qmax maxBottom (top rect + height rect)).

Definition mergeRectGroup (rects : list HighlightRect) : result HighlightRect :=
  match rects with
  | [rect] => Returned rect
  | [] => Thrown "Invalid first rect in group"
  | firstRect :: _ =>
      let '(minLeft, minTop, maxRight, maxBottom) :=
        fold_left growBox rects
          (left firstRect, top firstRect,
           left firstRect + width firstRect,
           top firstRect + height firstRect) in
      Returned {| left := minLeft;
                  top := minTop;
                  width := maxRight - minLeft;
                  height := maxBottom - minTop;
                  pageNumber := pageNumber firstRect |}
  end.

(** *** [consolidateHighlightRects] *)

(** The comparator of the [sort] call: by page, then by top, rects whose
    tops are closer than 2 being ordered by left edge. *)
Definition compareHighlights (a b : HighlightRect) : Q :=
  let pageCompare := (pageNumber a - pageNumber b)%Z in
  if negb (pageCompare =? 0)%Z then inject_Z pageCompare
  else
    let topDiff := top a - top b in
    if Qltb (Qabs topDiff) 2 then left a - left b else topDiff.

(** The test of one loop iteration: [samePageAndLine] and then one of the
    four horizontal conditions. *)
Definition horizontallyConnected (current next : HighlightRect) : bool :=
  let samePageAndLine :=
    (pageNumber current =? pageNumber next)%Z
    && Qltb (Qabs (top current - top next))
            (Qmax (height current) (height next) * 0.5) in
  samePageAndLine
  && (Qleb (Qabs (left current + width current - left next)) MERGE_THRESHOLD
      || Qleb (Qabs (left next + width next - left current)) MERGE_THRESHOLD
      || (Qltb (left current) (left next + width next)
          && Qltb (left next) (left current + width current))
      || Qleb (Qabs (left current + width current - left next))
              (height current * 0.2)).

Definition mergeTwo (current next : HighlightRect) : HighlightRect :=
  let newLeft := Qmin (left current) (left next) in
  let newRight :=
    Qmax (left current + width current) (left next + width next) in
  let newTop := Qmin (top current) (top next) in
  let newBottom :=
    Qmax (top current + height current) (top next + height next) in
  {| left := newLeft;
     top := newTop;
     width := newRight - newLeft;
     height := newBottom - newTop;
     pageNumber := pageNumber current |}.

(** The [for] loop over [sorted[1..]], with [current] and the array
    [consolidated] as loop state, followed by the final push. *)
Fixpoint mergeLoop (current : HighlightRect) (rest : list HighlightRect)
    (consolidated : list HighlightRect) : list HighlightRect :=
  match rest with
  | [] => consolidated ++ [current]
  | next :: rest' =>
      if horizontallyConnected current next
      then mergeLoop (mergeTwo current next) rest' consolidated
      else mergeLoop next rest' (consolidated ++ [current])
  end.

Definition consolidateHighlightRects (rects : list HighlightRect)
  : list HighlightRect :=
  if (length rects <=? 1)%nat then rects
  else
    match sortBy compareHighlights rects with
    | [] => rects
    | current :: rest => mergeLoop current rest []
    end.

(** *** [consolidateRects]

    [visited] is the [Set<number>] of indices, [currentGroup] the growing
    group.  [sweepStep] is one iteration of the inner [for (j ...)] loop,
    [sweep] the whole inner loop started with [foundNew = false], [closure]
    the [while (foundNew)] loop. *)

Definition has (visited : list nat) (i : nat) : bool :=
  existsb (Nat.eqb i) visited.

Definition sweepStep (rects : list HighlightRect)
    (st : list nat * list HighlightRect * bool) (j : nat)
  : list nat * list HighlightRect * bool :=
  let '(visited, currentGroup, foundNew) := st in
  if has visited j then st
  else
    match nth_error rects j with
    | None => st
    | Some candidateRect =>
        let shouldMergeWithGroup :=
          existsb (fun groupRect => doRectsOverlap groupRect candidateRect)
                  currentGroup in
        if shouldMergeWithGroup
        then (j :: visited, currentGroup ++ [candidateRect], true)
        else st
    end.

Definition sweep (rects : list HighlightRect) (visited : list nat)
    (currentGroup : list HighlightRect)
  : list nat * list HighlightRect * bool :=
  fold_left (sweepStep rects) (seq 0 (length rects))
            (visited, currentGroup, false).

Fixpoint closure (fuel : nat) (rects : list HighlightRect)
    (visited : list nat) (currentGroup : list HighlightRect)
  : result (list nat * list HighlightRect) :=
  match fuel with
  | O => OutOfFuel
  | S fuel' =>
      let '(visited', currentGroup', foundNew) :=
        sweep rects visited currentGroup in
      if foundNew then closure fuel' rects visited' currentGroup'
      else Returned (visited', currentGroup')
  end.

(** One iteration of the outer [for (i ...)] loop; the state is the pair of
    [visited] and [result]. *)
Definition outerStep (rects : list HighlightRect)
    (st : result (list nat * list HighlightRect)) (i : nat)
  : result (list nat * list HighlightRect) :=
  '(visited, out) <- st ;;
  if has visited i then Returned (visited, out)
  else
    match nth_error rects i with
    | None => Returned (visited, out)
    | Some currentRect =>
        '(visited', currentGroup) <-
          closure (S (length rects)) rects (i :: visited) [currentRect] ;;
        merged <- mergeRectGroup currentGroup ;;
        Returned (visited', out ++ [merged])
    end.

Definition consolidateRects (rects : list HighlightRect)
  : result (list HighlightRect) :=
  if (length rects <=? 1)%nat then Returned rects
  else
    '(_, out) <-
      fold_left (outerStep rects) (seq 0 (length rects)) (Returned ([], [])) ;;
    Returned out.

(** *** Containment and bounding boxes *)

(** [contains outer inner]: the box of [inner] lies within the box of
    [outer] (pages are not compared). *)
Definition contains (outer inner : HighlightRect) : Prop :=
  left outer <= left inner /\ top outer <= top inner /\
  right inner <= right outer /\ bottom inner <= bottom outer.

(** [covered l r]: some rectangle of [l] contains [r]. *)
Definition covered (l : list HighlightRect) (r : HighlightRect) : Prop :=
  exists o, In o l /\ contains o r.

Ltac minmax_facts :=
  repeat match goal with
  | |- context [Qmin ?a ?b] =>
      let m := fresh "m" in
      pose proof (Q.le_min_l a b); pose proof (Q.le_min_r a b);
      pose proof (Q.min_spec a b);
      generalize dependent (Qmin a b); intros m; intros
  | |- context [Qmax ?a ?b] =>
      let m := fresh "m" in
      pose proof (Q.le_max_l a b); pose proof (Q.le_max_r a b);
      pose proof (Q.max_spec a b);
      generalize dependent (Qmax a b); intros m; intros
  end.

Lemma contains_refl (r : HighlightRect) : contains r r.
Proof. unfold contains; repeat split; apply Qle_refl. Qed.

Lemma covered_incl (l l' : list HighlightRect) (r : HighlightRect) :
  incl l l' -> covered l r -> covered l' r.
Proof. intros Hi (o & Ho & Hc). exists o. split; [apply Hi, Ho | exact Hc]. Qed.

(** *** The loops of [consolidateRects] *)

Lemma has_true (visited : list nat) (i : nat) :
  has visited i = true <-> In i visited.
Proof.
  unfold has. rewrite existsb_exists. split.
  - intros (x & Hx & Heq). apply Nat.eqb_eq in Heq. now subst.
  - intro H. exists i. split; [exact H | apply Nat.eqb_refl].
Qed.

Lemma has_false (visited : list nat) (i : nat) :
  has visited i = false <-> ~ In i visited.
Proof.
  rewrite <- has_true. destruct (has visited i); split; congruence.
Qed.

(** What a run of the inner loops may change: indices are only added to
    [visited], rects only appended to the group, every added index puts its
    rect in the group, and every rect of the group is an input rect. *)
Record extends (rects : list HighlightRect)
    (v : list nat) (g : list HighlightRect)
    (v' : list nat) (g' : list HighlightRect) : Prop := {
  ext_visited : incl v v';
  ext_group : incl g g';
  ext_new : forall j, In j v' ->
      In j v \/ exists r, nth_error rects j = Some r /\ In r g';
  ext_from : forall r, In r g' -> In r g \/ In r rects
}.

Lemma extends_refl rects v g : extends rects v g v g.
Proof.
  constructor; try apply incl_refl; intros; now left.
Qed.

Lemma extends_trans rects v1 g1 v2 g2 v3 g3 :
  extends rects v1 g1 v2 g2 -> extends rects v2 g2 v3 g3 ->
  extends rects v1 g1 v3 g3.
Proof.
  intros [A1 A2 A3 A4] [B1 B2 B3 B4]. constructor.
  - eapply incl_tran; eassumption.
  - eapply incl_tran; eassumption.
  - intros j Hj. destruct (B3 j Hj) as [H | H]; [| now right].
    destruct (A3 j H) as [H' | (r & Hr & Hg)]; [now left |].
    right. exists r. split; [exact Hr | apply B2, Hg].
  - intros r Hr. destruct (B4 r Hr) as [H | H]; [| now right].
    apply A4, H.
Qed.

Lemma sweepStep_extends rects v g f j v' g' f' :
  sweepStep rects (v, g, f) j = (v', g', f') -> extends rects v g v' g'.
Proof.
  unfold sweepStep. destruct (has v j).
  { intro E; inversion E; subst. apply extends_refl. }
  destruct (nth_error rects j) as [cand|] eqn:En.
  2:{ intro E; inversion E; subst. apply extends_refl. }
  destruct (existsb _ g).
  2:{ intro E; inversion E; subst. apply extends_refl. }
  intro E; inversion E; subst. constructor.
  - apply incl_tl, incl_refl.
  - apply incl_appl, incl_refl.
  - intros i [Hi | Hi]; [subst i | now left].
    right. exists cand. split; [exact En |].
    apply in_or_app. right. now left.
  - intros r Hr. apply in_app_or in Hr. destruct Hr as [Hr | [Hr | []]].
    + now left.
    + subst r. right. eapply nth_error_In; eassumption.
Qed.

Lemma sweepFold_extends rects (js : list nat) :
  forall v g f v' g' f',
    fold_left (sweepStep rects) js (v, g, f) = (v', g', f') ->
    extends rects v g v' g'.
Proof.
  induction js as [|j js IH]; intros v g f v' g' f' E; cbn [fold_left] in E.
  - inversion E; subst. apply extends_refl.
  - destruct (sweepStep rects (v, g, f) j) as [[v1 g1] f1] eqn:E1.
    eapply extends_trans.
    + eapply sweepStep_extends; eassumption.
    + eapply IH; eassumption.
Qed.

(** The number of indices of [rects] outside [visited]: the variant of the
    [while (foundNew)] loop. *)
Definition unvisited (rects : list HighlightRect) (visited : list nat) : nat :=
  length (filter (fun j => negb (has visited j)) (seq 0 (length rects))).

Lemma filter_length_mono {A} (p q : A -> bool) (l : list A) :
  (forall x, q x = true -> p x = true) ->
  (length (filter q l) <= length (filter p l))%nat.
Proof.
  intro H. induction l as [|x l IH]; simpl; [lia |].
  destruct (q x) eqn:Eq.
  - rewrite (H x Eq). simpl. lia.
  - destruct (p x); simpl; lia.
Qed.

Lemma filter_length_strict {A} (p q : A -> bool) (l : list A) (a : A) :
  (forall x, q x = true -> p x = true) ->
  In a l -> p a = true -> q a = false ->
  (length (filter q l) < length (filter p l))%nat.
Proof.
  intros H. induction l as [|x l IH]; simpl; [tauto |].
  intros [Hx | Hin] Hp Hq.
  - subst x. rewrite Hp, Hq. simpl.
    pose proof (filter_length_mono p q l H). lia.
  - specialize (IH Hin Hp Hq). destruct (q x) eqn:Eq.
    + rewrite (H x Eq). simpl. lia.
    + destruct (p x); simpl; lia.
Qed.

Lemma unvisited_add rects v j :
  has v j = false -> (j < length rects)%nat ->
  (unvisited rects (j :: v) < unvisited rects v)%nat.
Proof.
  intros Hj Hlt. unfold unvisited.
  apply filter_length_strict with (a := j).
  - intros x. unfold has. simpl. rewrite !negb_true_iff.
    intro Hx. apply orb_false_elim in Hx. tauto.
  - apply in_seq. lia.
  - now rewrite Hj.
  - unfold has. simpl. now rewrite Nat.eqb_refl.
Qed.

Lemma unvisited_bound rects v : (unvisited rects v <= length rects)%nat.
Proof.
  unfold unvisited.
  etransitivity; [apply filter_length_le | now rewrite length_seq].
Qed.

Lemma sweepStep_measure rects v g f j v' g' f' :
  sweepStep rects (v, g, f) j = (v', g', f') ->
  (f' = f /\ v' = v /\ g' = g) \/
  (f' = true /\ (unvisited rects v' < unvisited rects v)%nat).
Proof.
  unfold sweepStep. destruct (has v j) eqn:Eh.
  { intro E; inversion E; subst. now left. }
  destruct (nth_error rects j) as [cand|] eqn:En.
  2:{ intro E; inversion E; subst. now left. }
  destruct (existsb _ g).
  2:{ intro E; inversion E; subst. now left. }
  intro E; inversion E; subst. right. split; [reflexivity |].
  apply unvisited_add; [exact Eh |].
  apply nth_error_Some. congruence.
Qed.

Lemma sweepFold_measure rects (js : list nat) :
  forall v g f v' g' f',
    fold_left (sweepStep rects) js (v, g, f) = (v', g', f') ->
    (f' = f /\ v' = v /\ g' = g) \/
    (f' = true /\ (unvisited rects v' < unvisited rects v)%nat).
Proof.
  induction js as [|j js IH]; intros v g f v' g' f' E; cbn [fold_left] in E.
  - inversion E; subst. now left.
  - destruct (sweepStep rects (v, g, f) j) as [[v1 g1] f1] eqn:E1.
    apply sweepStep_measure in E1. apply IH in E.
    destruct E1 as [(-> & -> & ->) | (-> & Hlt1)].
    + exact E.
    + right. destruct E as [(-> & -> & ->) | (-> & Hlt)];
        (split; [reflexivity | lia]).
Qed.

(** The [while] loop ends: every pass that finds something visits a new
    index, so [S (unvisited)] passes are enough. *)
Lemma closure_returns rects (fuel : nat) :
  forall v g, (unvisited rects v < fuel)%nat ->
    exists v' g', closure fuel rects v g = Returned (v', g') /\
                  extends rects v g v' g' /\
                  sweep rects v' g' = (v', g', false).
Proof.
  induction fuel as [|fuel IH]; intros v g Hlt; [lia |].
  simpl. destruct (sweep rects v g) as [[v1 g1] f1] eqn:E.
  pose proof (sweepFold_extends _ _ _ _ _ _ _ _ E) as Hext.
  pose proof (sweepFold_measure _ _ _ _ _ _ _ _ E) as Hm.
  destruct f1.
  - destruct Hm as [(Hf & _) | (_ & Hm)]; [discriminate |].
    destruct (IH v1 g1) as (v' & g' & Hc & Hext' & Hfix); [lia |].
    exists v', g'. split; [exact Hc |]. split; [| exact Hfix].
    eapply extends_trans; eassumption.
  - destruct Hm as [(_ & -> & ->) | (Hf & _)]; [| discriminate].
    exists v, g. split; [reflexivity |]. split; [apply extends_refl | exact E].
Qed.

(** [isBoundingBox o g]: [o] contains every rect of [g] and each of its four
    edges is the edge of some rect of [g]. *)
Record isBoundingBox (o : HighlightRect) (g : list HighlightRect) : Prop := {
  box_contains : forall r, In r g -> contains o r;
  box_left : exists r, In r g /\ left o == left r;
  box_top : exists r, In r g /\ top o == top r;
  box_right : exists r, In r g /\ right o == right r;
  box_bottom : exists r, In r g /\ bottom o == bottom r
}.

Lemma isBoundingBox_single (r : HighlightRect) : isBoundingBox r [r].
Proof.
  constructor.
  - intros x [<- | []]. apply contains_refl.
  - exists r. split; [now left | reflexivity].
  - exists r. split; [now left | reflexivity].
  - exists r. split; [now left | reflexivity].
  - exists r. split; [now left | reflexivity].
Qed.

Lemma growBox_fold (rects : list HighlightRect) :
  forall l0 t0 r0 b0 l t r b,
    fold_left growBox rects (l0, t0, r0, b0) = (l, t, r, b) ->
    (l <= l0 /\ t <= t0 /\ r0 <= r /\ b0 <= b) /\
    (forall x, In x rects ->
       l <= left x /\ t <= top x /\ right x <= r /\ bottom x <= b) /\
    (l == l0 \/ exists x, In x rects /\ l == left x) /\
    (t == t0 \/ exists x, In x rects /\ t == top x) /\
    (r == r0 \/ exists x, In x rects /\ r == right x) /\
    (b == b0 \/ exists x, In x rects /\ b == bottom x).
Proof.
  induction rects as [|y rects IH]; intros l0 t0 r0 b0 l t r b E.
  - cbn in E. inversion E; subst.
    split; [repeat split; apply Qle_refl |].
    split; [intros ? [] |].
    repeat split; left; reflexivity.
  - cbn [fold_left growBox] in E. apply IH in E.
    destruct E as ((Hl & Ht & Hr & Hb) & Hall & Tl & Tt & Tr & Tb).
    assert (Bl : l <= l0 /\ l <= left y).
    { revert Hl. minmax_facts. split; lra. }
    assert (Bt : t <= t0 /\ t <= top y).
    { revert Ht. minmax_facts. split; lra. }
    assert (Br : r0 <= r /\ right y <= r).
    { revert Hr. unfold right. minmax_facts. split; lra. }
    assert (Bb : b0 <= b /\ bottom y <= b).
    { revert Hb. unfold bottom. minmax_facts. split; lra. }
    split; [tauto |]. split.
    { intros x [<- | Hx]; [tauto | apply Hall, Hx]. }
    split; [| split; [| split]].
    + destruct Tl as [Tl | (x & Hx & Tl)].
      * destruct (Q.min_spec l0 (left y)) as [(_ & Hm) | (_ & Hm)].
        -- left. now rewrite Tl, Hm.
        -- right. exists y. split; [now left | now rewrite Tl, Hm].
      * right. exists x. split; [now right | exact Tl].
    + destruct Tt as [Tt | (x & Hx & Tt)].
      * destruct (Q.min_spec t0 (top y)) as [(_ & Hm) | (_ & Hm)].
        -- left. now rewrite Tt, Hm.
        -- right. exists y. split; [now left | now rewrite Tt, Hm].
      * right. exists x. split; [now right | exact Tt].
    + destruct Tr as [Tr | (x & Hx & Tr)].
      * destruct (Q.max_spec r0 (left y + width y)) as [(_ & Hm) | (_ & Hm)].
        -- right. exists y. split; [now left | now rewrite Tr, Hm].
        -- left. now rewrite Tr, Hm.
      * right. exists x. split; [now right | exact Tr].
    + destruct Tb as [Tb | (x & Hx & Tb)].
      * destruct (Q.max_spec b0 (top y + height y)) as [(_ & Hm) | (_ & Hm)].
        -- right. exists y. split; [now left | now rewrite Tb, Hm].
        -- left. now rewrite Tb, Hm.
      * right. exists x. split; [now right | exact Tb].
Qed.

(** On a non-empty group [mergeRectGroup] returns, and what it returns is the
    bounding box of the group, on the page of the group's first rect. *)
Lemma mergeRectGroup_spec (firstRect : HighlightRect)
    (others : list HighlightRect) :
  exists m, mergeRectGroup (firstRect :: others) = Returned m /\
            isBoundingBox m (firstRect :: others) /\
            pageNumber m = pageNumber firstRect.
Proof.
  destruct others as [|second others].
  - exists firstRect. split; [reflexivity |].
    split; [apply isBoundingBox_single | reflexivity].
  - unfold mergeRectGroup.
    destruct (fold_left growBox (firstRect :: second :: others) _)
      as [[[l t] r] b] eqn:E.
    eexists. split; [reflexivity |]. split; [| reflexivity].
    apply growBox_fold in E.
    destruct E as (_ & Hall & Tl & Tt & Tr & Tb).
    constructor.
    + intros x Hx. destruct (Hall x Hx) as (H1 & H2 & H3 & H4).
      unfold contains, right, bottom in *; simpl. repeat split; lra.
    + destruct Tl as [Tl | Tl]; [| exact Tl].
      exists firstRect. split; [now left | exact Tl].
    + destruct Tt as [Tt | Tt]; [| exact Tt].
      exists firstRect. split; [now left | exact Tt].
    + unfold right; simpl. destruct Tr as [Tr | (x & Hx & Tr)].
      * exists firstRect. split; [now left | lra].
      * exists x. split; [exact Hx |]. unfold right in Tr. lra.
    + unfold bottom; simpl. destruct Tb as [Tb | (x & Hx & Tb)].
      * exists firstRect. split; [now left | lra].
      * exists x. split; [exact Hx |]. unfold bottom in Tb. lra.
Qed.

(** Invariant of the outer loop of [consolidateRects]: the rect of every
    visited index is covered by [result], and every rect of [result] is the
    bounding box of a non-empty group of input rects and carries the page of
    one of them (the first of the group). *)
Record outerInv (rects : list HighlightRect)
    (visited : list nat) (out : list HighlightRect) : Prop := {
  inv_covered : forall j r,
      In j visited -> nth_error rects j = Some r -> covered out r;
  inv_boxes : forall o, In o out ->
      exists firstRect others,
        incl (firstRect :: others) rects /\
        isBoundingBox o (firstRect :: others) /\
        pageNumber o = pageNumber firstRect
}.

Lemma outerStep_inv rects visited out i :
  outerInv rects visited out ->
  exists visited' out',
    outerStep rects (Returned (visited, out)) i = Returned (visited', out') /\
    outerInv rects visited' out' /\
    incl visited visited' /\
    ((i < length rects)%nat -> In i visited').
Proof.
  intros [Hcov Hbox]. unfold outerStep, bind.
  destruct (has visited i) eqn:Eh.
  { exists visited, out. repeat split; auto using incl_refl.
    intros _. now apply has_true. }
  destruct (nth_error rects i) as [currentRect|] eqn:En.
  2:{ exists visited, out. repeat split; auto using incl_refl.
      intro Hlt. apply nth_error_None in En. lia. }
  destruct (closure_returns rects (S (length rects)) (i :: visited)
              [currentRect]) as (v1 & g1 & Hc & Hext & _).
  { pose proof (unvisited_bound rects (i :: visited)). lia. }
  rewrite Hc. destruct Hext as [E1 E2 E3 E4].
  assert (Hcur : In currentRect g1) by (apply E2; now left).
  assert (Hg1 : incl g1 rects).
  { intros r Hr. destruct (E4 r Hr) as [[<- | []] | H]; [| exact H].
    eapply nth_error_In; eassumption. }
  destruct g1 as [|firstRect others]; [destruct Hcur |].
  destruct (mergeRectGroup_spec firstRect others) as (m & Hm & Hb & Hp).
  rewrite Hm. exists v1, (out ++ [m]). split; [reflexivity |].
  split; [| split].
  - constructor.
    + intros j r Hj Hr. destruct (E3 j Hj) as [[<- | Hv] | (r' & Hr' & Hg)].
      * exists m. split; [apply in_or_app; right; now left |].
        apply (box_contains _ _ Hb). congruence.
      * eapply covered_incl; [apply incl_appl, incl_refl |].
        eapply Hcov; eassumption.
      * exists m. split; [apply in_or_app; right; now left |].
        apply (box_contains _ _ Hb). congruence.
    + intros o Ho. apply in_app_or in Ho. destruct Ho as [Ho | [<- | []]].
      * apply Hbox, Ho.
      * exists firstRect, others. auto.
  - intros j Hj. apply E1. now right.
  - intros _. apply E1. now left.
Qed.

Lemma outerFold_inv rects (idxs : list nat) :
  forall visited out,
    outerInv rects visited out ->
    exists visited' out',
      fold_left (outerStep rects) idxs (Returned (visited, out))
        = Returned (visited', out') /\
      outerInv rects visited' out' /\
      incl visited visited' /\
      (forall i, In i idxs -> (i < length rects)%nat -> In i visited').
Proof.
  induction idxs as [|i idxs IH]; intros visited out Hinv.
  - exists visited, out.
    split; [reflexivity | split; [exact Hinv | split]];
      [apply incl_refl | intros ? []].
  - cbn [fold_left].
    destruct (outerStep_inv rects visited out i Hinv)
      as (v1 & o1 & E1 & Hinv1 & Hincl1 & Hi).
    rewrite E1.
    destruct (IH v1 o1 Hinv1) as (v2 & o2 & E2 & Hinv2 & Hincl2 & His).
    exists v2, o2. split; [exact E2 |]. split; [exact Hinv2 |].
    split; [eapply incl_tran; eassumption |].
    intros j [<- | Hj] Hlt; [apply Hincl2, Hi, Hlt | apply His; assumption].
Qed.

(** *** Merge-threshold scenario *)

Definition scenarioFirst : HighlightRect := mkRect 0 0 50 10 1.
Definition scenarioNear : HighlightRect := mkRect 0 52 30 10 1.
Definition scenarioFar : HighlightRect := mkRect 0 60 30 10 1.

(** C7. With [MERGE_THRESHOLD = 2], the rects [{top:0,left:0,w:50,h:10,page:1}]
    and [{top:0,left:52,w:30,h:10,page:1}] (gap 2) consolidate to the single
    rect [{top:0,left:0,w:82,h:10,page:1}], by [consolidateHighlightRects] and
    by [consolidateRects] alike; with the second rect at left 60 (gap 10) the
    two rects stay separate. *)
Theorem merge_threshold_scenario :
  MERGE_THRESHOLD = 2 /\
  consolidateHighlightRects [scenarioFirst; scenarioNear]
    = [mkRect 0 0 82 10 1] /\
  consolidateRects [scenarioFirst; scenarioNear]
    = Returned [mkRect 0 0 82 10 1] /\
  consolidateHighlightRects [scenarioFirst; scenarioFar]
    = [scenarioFirst; scenarioFar] /\
  consolidateRects [scenarioFirst; scenarioFar]
    = Returned [scenarioFirst; scenarioFar].
Proof. repeat split; vm_compute; reflexivity. Qed.

End Geometry.

(** ** Selection extraction: [getAnnotationDimension]

    The browser objects the function reads are modelled by records that
    carry what it reads from them. *)

Module SelectionDimensions.

Import Geometry.
Open Scope Q_scope.

(** A [DOMRect]; [right] is [left + width] and [bottom] is [top + height]. *)
Record DOMRect : Type := mkDOMRect {
  rectLeft : Q;
  rectTop : Q;
  rectWidth : Q;
  rectHeight : Q
}.

Definition rectRight (r : DOMRect) : Q := rectLeft r + rectWidth r.
Definition rectBottom (r : DOMRect) : Q := rectTop r + rectHeight r.

(** An element matching [.textLayer]: the number that [parseInt] reads from
    its [data-page-number] attribute (with the default ["1"]), and its
    bounding client rect. *)
Record TextLayerElement : Type := mkTextLayer {
  dataPageNumber : Z;
  textLayerRect : DOMRect
}.

Record Element : Type := mkElement {
  tagName : string;                  (* [el.tagName.toLowerCase()] *)
  className : option string;         (* [Some] when it is a string *)
  boundingClientRect : DOMRect;
  textContent : string;              (* [el.textContent?.trim() || ""] *)
  parentRect : option DOMRect;       (* of [el.parentElement], if any *)
  closestTextLayer : option TextLayerElement   (* [el.closest(".textLayer")] *)
}.

Record Range : Type := mkRange {
  getClientRects : list DOMRect;
  toString : string
}.

Record Selection : Type := mkSelection {
  selectionIsCollapsed : bool;
  ranges : list Range
}.

Record Document : Type := mkDocument {
  getSelection : option Selection;
  elementFromPoint : Q -> Q -> option Element;
  zoom : Q                           (* [store.getState().zoom] *)
}.

(** The value the function returns when it does not return [undefined]. *)
Record CollapsibleSelection : Type := mkCollapsibleSelection {
  highlights : list HighlightRect;
  underlines : list HighlightRect;
  text : string;
  isCollapsed : bool
}.

(** [String.prototype.trim], for the ASCII white space characters. *)
Definition isWhiteSpace (c : ascii) : bool :=
  let n := nat_of_ascii c in
  ((9 <=? n) && (n <=? 13))%nat || (n =? 32)%nat.

Fixpoint trimStart (s : string) : string :=
  match s with
  | EmptyString => EmptyString
  | String c s' => if isWhiteSpace c then trimStart s' else s
  end.

Fixpoint trimEnd (s : string) : string :=
  match s with
  | EmptyString => EmptyString
  | String c s' =>
      match trimEnd s' with
      | EmptyString => if isWhiteSpace c then EmptyString
                       else String c EmptyString
      | t => String c t
      end
  end.

Definition trim (s : string) : string := trimEnd (trimStart s).

(** *** [isSuperOrSubScript] *)

Definition includes (s sub : string) : bool :=
  match index 0 sub s with Some _ => true | None => false end.

(** A character of the class [[\d\w]]. *)
Definition isWordChar (c : ascii) : bool :=
  let n := nat_of_ascii c in
  (((48 <=? n) && (n <=? 57)) || ((65 <=? n) && (n <=? 90))
   || ((97 <=? n) && (n <=? 122)) || (n =? 95))%nat.

(** The test [/^[\d\w]{1,2}$/]. *)
Definition isShortReference (s : string) : bool :=
  match s with
  | String c EmptyString => isWordChar c
  | String c (String d EmptyString) => isWordChar c && isWordChar d
  | _ => false
  end.

Definition isSuperOrSubScript (el : option Element) : bool :=
  match el with
  | None => false
  | Some el =>
      if String.eqb (tagName el) "sup" || String.eqb (tagName el) "sub"
      then true
      else if match className el with
              | Some classes =>
                  existsb (includes classes)
                    ["superscript"; "subscript"; "sup"; "sub"]%string
              | None => false
              end
      then true
      else
        let elementRect := boundingClientRect el in
        if Qltb (rectHeight elementRect) 6 && Qltb (rectWidth elementRect) 15
        then
          if (String.length (textContent el) <=? 2)%nat
             && isShortReference (textContent el)
          then
            match parentRect el with
            | Some parentRect =>
                if Qltb (rectHeight elementRect * 2) (rectHeight parentRect)
                then
                  let elementCenter :=
                    rectTop elementRect + rectHeight elementRect / 2 in
                  let parentCenter :=
                    rectTop parentRect + rectHeight parentRect / 2 in
                  let verticalOffset := Qabs (elementCenter - parentCenter) in
                  Qltb (rectHeight parentRect * 0.4) verticalOffset
                else false
            | None => false
            end
          else false
        else false
  end.

(** *** Resolving a fragment to its text layer *)

Definition orElse {A} (a : option A) (b : option A) : option A :=
  match a with Some _ => a | None => b end.

(** The five probes of [document.elementFromPoint], each tried only when the
    previous ones found no element. *)
Definition probeElement (doc : Document) (clientRect : DOMRect)
  : option Element :=
  let midX := rectLeft clientRect + rectWidth clientRect / 2 in
  let midY := rectTop clientRect + rectHeight clientRect / 2 in
  orElse (elementFromPoint doc (rectLeft clientRect + 1) midY)
  (orElse (elementFromPoint doc midX midY)
  (orElse (elementFromPoint doc (rectRight clientRect - 1) midY)
  (orElse (elementFromPoint doc midX (rectTop clientRect + 1))
          (elementFromPoint doc midX (rectBottom clientRect - 1))))).

Definition textLayerOf (element : option Element) : option TextLayerElement :=
  match element with
  | Some el => closestTextLayer el
  | None => None
  end.

(** *** The per-page maps

    A [Map<number, HighlightRect[]>] iterates in insertion order of its
    keys; [mapPush] is the [has]/[set]/[get(...).push] sequence. *)
Definition PageMap : Type := list (Z * list HighlightRect).

Fixpoint mapPush (m : PageMap) (page : Z) (rect : HighlightRect) : PageMap :=
  match m with
  | [] => [(page, [rect])]
  | (page', rects) :: m' =>
      if (page' =? page)%Z then (page', rects ++ [rect]) :: m'
      else (page', rects) :: mapPush m' page rect
  end.

(** *** The body of [clientRects.forEach] *)

Definition fragmentStep (doc : Document) (maps : PageMap * PageMap)
    (clientRect : DOMRect) : PageMap * PageMap :=
  let '(textLayerMapHighlight, textLayerMapUnderline) := maps in
  let element := probeElement doc clientRect in
  match textLayerOf element with
  | None => maps
  | Some textLayer =>
      let pageNumber := dataPageNumber textLayer in
      let layerRect := textLayerRect textLayer in
      let highlightRect :=
        {| width := rectWidth clientRect / zoom doc;
           height := rectHeight clientRect / zoom doc;
           top := (rectTop clientRect - rectTop layerRect) / zoom doc;
           left := (rectLeft clientRect - rectLeft layerRect) / zoom doc;
           pageNumber := pageNumber |} in
      let textLayerMapHighlight' :=
        mapPush textLayerMapHighlight pageNumber highlightRect in
      let shouldCreateUnderline := negb (isSuperOrSubScript element) in
      if shouldCreateUnderline
      then
        let baselineOffset := rectHeight clientRect * 0.85 in
        let underlineHeight := 2 in
        let underlineRect :=
          {| width := rectWidth clientRect / zoom doc;
             height := underlineHeight / zoom doc;
             top := (rectTop clientRect - rectTop layerRect + baselineOffset)
                    / zoom doc;
             left := (rectLeft clientRect - rectLeft layerRect) / zoom doc;
             pageNumber := pageNumber |} in
        (textLayerMapHighlight',
         mapPush textLayerMapUnderline pageNumber underlineRect)
      else (textLayerMapHighlight', textLayerMapUnderline)
  end.

(** *** Highlights of a page *)

Definition pageHighlights (rects : list HighlightRect) : list HighlightRect :=
  if (0 <? length rects)%nat
  then if (length rects =? 1)%nat then rects
       else consolidateHighlightRects rects
  else [].

(** *** [groupRectsByLine] *)

Definition VERTICAL_TOLERANCE : Q := 3.

Fixpoint addToLine (groups : list (list HighlightRect)) (rect : HighlightRect)
  : list (list HighlightRect) :=
  match groups with
  | [] => [[rect]]
  | group :: groups' =>
      match group with
      | [] => group :: addToLine groups' rect
      | firstRect :: _ =>
          let centerY := top rect + height rect / 2 in
          let groupCenterY := top firstRect + height firstRect / 2 in
          if Qleb (Qabs (centerY - groupCenterY)) VERTICAL_TOLERANCE
          then (group ++ [rect]) :: groups'
          else group :: addToLine groups' rect
      end
  end.

Definition groupRectsByLine (rects : list HighlightRect)
  : list (list HighlightRect) :=
  fold_left addToLine rects [].

(** *** Underline runs of a line

    The two nested [while] loops walk the sorted group once: [startRect] is
    the first rect of the run, [currentRect] its last rect so far; the run
    ends at the first gap larger than the allowance, or at the end. *)
Definition lineRect (startRect endRect : HighlightRect) : HighlightRect :=
  {| width := left endRect + width endRect - left startRect;
     height := 1.5;
     top := top startRect;
     left := left startRect;
     pageNumber := pageNumber startRect |}.

Fixpoint underlineRuns (startRect currentRect : HighlightRect)
    (rest : list HighlightRect) : list HighlightRect :=
  match rest with
  | [] => [lineRect startRect currentRect]
  | nextRect :: rest' =>
      let gap := left nextRect - (left currentRect + width currentRect) in
      let maxGapAllowed := Qmax MERGE_THRESHOLD (height currentRect * 0.3) in
      if Qleb gap maxGapAllowed
      then underlineRuns startRect nextRect rest'
      else lineRect startRect currentRect
           :: underlineRuns nextRect nextRect rest'
  end.

Definition lineUnderlines (group : list HighlightRect) : list HighlightRect :=
  match sortBy (fun a b => left a - left b) group with
  | [] => []
  | startRect :: rest => underlineRuns startRect startRect rest
  end.

Definition pageUnderlines (rects : list HighlightRect) : list HighlightRect :=
  if (0 <? length rects)%nat
  then flat_map lineUnderlines (groupRectsByLine rects)
  else [].

(** *** [consolidateUnderlines] *)

Definition compareUnderlines (a b : HighlightRect) : Q :=
  let pageCompare := (pageNumber a - pageNumber b)%Z in
  if negb (pageCompare =? 0)%Z then inject_Z pageCompare
  else
    let topCompare := top a - top b in
    if Qltb (Qabs topCompare) 1 then left a - left b else topCompare.

Definition underlinesConnected (current next : HighlightRect) : bool :=
  let samePageAndLine :=
    (pageNumber current =? pageNumber next)%Z
    && Qltb (Qabs (top current - top next)) 1 in
  samePageAndLine
  && (Qleb (Qabs (left current + width current - left next)) MERGE_THRESHOLD
      || (Qltb (left current) (left next + width next)
          && Qltb (left next) (left current + width current))).

Definition mergeUnderlines (current next : HighlightRect) : HighlightRect :=
  let newWidth :=
    Qmax (left current + width current) (left next + width next)
    - Qmin (left current) (left next) in
  {| top := top current;
     left := Qmin (left current) (left next);
     width := newWidth;
     height := height current;
     pageNumber := pageNumber current |}.

Fixpoint underlineLoop (current : HighlightRect) (rest : list HighlightRect)
    (consolidated : list HighlightRect) : list HighlightRect :=
  match rest with
  | [] => consolidated ++ [current]
  | next :: rest' =>
      if underlinesConnected current next
      then underlineLoop (mergeUnderlines current next) rest' consolidated
      else underlineLoop next rest' (consolidated ++ [current])
  end.

Definition consolidateUnderlines (underlines : list HighlightRect)
  : list HighlightRect :=
  if (length underlines <=? 1)%nat then underlines
  else
    match sortBy compareUnderlines underlines with
    | [] => underlines
    | current :: rest => underlineLoop current rest []
    end.

(** *** [getAnnotationDimension] *)

Definition fallbackUnderline (highlightRect : HighlightRect) : HighlightRect :=
  let baselineOffset := height highlightRect * 0.85 in
  let underlineHeight := 1.5 in
  {| width := width highlightRect;
     height := underlineHeight;
     top := top highlightRect + baselineOffset;
     left := left highlightRect;
     pageNumber := pageNumber highlightRect |}.

Definition byPage (a b : HighlightRect) : Q :=
  inject_Z (pageNumber a - pageNumber b).

Definition isNotTiny (rect : DOMRect) : bool :=
  Qltb 2 (rectWidth rect) && Qltb 2 (rectHeight rect).

(** [Returned None] is the [undefined] of the bare [return];
    [selection.getRangeAt(0)] throws on a selection without ranges. *)
Definition getAnnotationDimension (doc : Document)
  : result (option CollapsibleSelection) :=
  match getSelection doc with
  | None => Returned None
  | Some selection =>
      if selectionIsCollapsed selection then Returned None
      else
        match ranges selection with
        | [] => Thrown "IndexSizeError"
        | range :: _ =>
            let clientRects := filter isNotTiny (getClientRects range) in
            let '(textLayerMapHighlight, textLayerMapUnderline) :=
              fold_left (fragmentStep doc) clientRects ([], []) in
            let highlightRects :=
              flat_map (fun entry => pageHighlights (snd entry))
                       textLayerMapHighlight in
            let underlineRects :=
              flat_map (fun entry => pageUnderlines (snd entry))
                       textLayerMapUnderline in
            let underlineRects :=
              if (length underlineRects =? 0)%nat
                 && (0 <? length highlightRects)%nat
              then map fallbackUnderline highlightRects
              else underlineRects in
            Returned (Some
              {| highlights := sortBy byPage highlightRects;
                 underlines :=
                   sortBy byPage (consolidateUnderlines underlineRects);
                 text := trim (toString range);
                 isCollapsed := false |})
        end
  end.

(** *** Degenerate selections *)

Lemma fragmentFold_unresolved (doc : Document) (clientRects : list DOMRect) :
  (forall rect, In rect clientRects ->
     textLayerOf (probeElement doc rect) = None) ->
  forall maps, fold_left (fragmentStep doc) clientRects maps = maps.
Proof.
  induction clientRects as [|rect clientRects IH]; intros H maps.
  - reflexivity.
  - cbn [fold_left].
    assert (E : fragmentStep doc maps rect = maps).
    { unfold fragmentStep. destruct maps as [mh mu].
      rewrite (H rect) by now left. reflexivity. }
    rewrite E. apply IH. intros r Hr. apply H. now right.
Qed.

(** The result that stands for "no selection" when the function does not
    return [undefined]: no highlight and no underline. *)
Definition emptySelection (range : Range) : CollapsibleSelection :=
  {| highlights := [];
     underlines := [];
     text := trim (toString range);
     isCollapsed := false |}.

(** C8. Degenerate selections do not make the extraction throw.  Without a
    selection, or with a collapsed one, [getAnnotationDimension] returns
    [undefined]; with a selection whose fragments are all too small to count
    or resolve to no text layer, it returns the value of shape
    [{highlights, underlines, text, isCollapsed}] with no highlight and no
    underline. *)
Theorem degenerate_selection_returns (doc : Document) :
  (getSelection doc = None -> getAnnotationDimension doc = Returned None) /\
  (forall selection,
     getSelection doc = Some selection ->
     selectionIsCollapsed selection = true ->
     getAnnotationDimension doc = Returned None) /\
  (forall selection range others,
     getSelection doc = Some selection ->
     selectionIsCollapsed selection = false ->
     ranges selection = range :: others ->
     (forall rect, In rect (getClientRects range) ->
        isNotTiny rect = true ->
        textLayerOf (probeElement doc rect) = None) ->
     getAnnotationDimension doc = Returned (Some (emptySelection range))).
Proof.
  unfold getAnnotationDimension. split; [| split].
  - intros ->. reflexivity.
  - intros selection -> ->. reflexivity.
  - intros selection range others -> -> -> H.
    rewrite fragmentFold_unresolved.
    + reflexivity.
    + intros rect Hr. apply filter_In in Hr. apply H; tauto.
Qed.

(** A selection of two fragments, one a hair line and one over a point
    where the document has no element. *)
Definition strayRange : Range :=
  mkRange [mkDOMRect 0 0 40 1; mkDOMRect 0 20 40 12] " lost "%string.

Definition strayDocument : Document :=
  mkDocument (Some (mkSelection false [strayRange])) (fun _ _ => None) 1.

Lemma degenerate_selection_returns_witness :
  getAnnotationDimension (mkDocument None (fun _ _ => None) 1)
    = Returned None /\
  getAnnotationDimension
    (mkDocument (Some (mkSelection true [])) (fun _ _ => None) 1)
    = Returned None /\
  getAnnotationDimension strayDocument
    = Returned (Some (mkCollapsibleSelection [] [] "lost"%string false)).
Proof.
  split; [| split].
  - apply (degenerate_selection_returns (mkDocument None (fun _ _ => None) 1)).
    reflexivity.
  - destruct (degenerate_selection_returns
                (mkDocument (Some (mkSelection true [])) (fun _ _ => None) 1))
      as (_ & H & _).
    apply (H (mkSelection true [])); reflexivity.
  - destruct (degenerate_selection_returns strayDocument) as (_ & _ & H).
    apply (H (mkSelection false [strayRange]) strayRange []); reflexivity.
Defined.

(** *** [getDimension], the caller of [consolidateRects] *)

Record DimensionSelection : Type := mkDimensionSelection {
  dimensionHighlights : list HighlightRect;
  dimensionText : string;
  dimensionIsCollapsed : bool
}.

Definition dimensionStep (doc : Document) (textLayerMap : PageMap)
    (clientRect : DOMRect) : PageMap :=
  let element :=
    elementFromPoint doc (rectLeft clientRect + 1)
      (rectTop clientRect + rectHeight clientRect / 2) in
  match textLayerOf element with
  | None => textLayerMap
  | Some textLayer =>
      let pageNumber := dataPageNumber textLayer in
      let layerRect := textLayerRect textLayer in
      let rect :=
        {| width := rectWidth clientRect / zoom doc;
           height := rectHeight clientRect / zoom doc;
           top := (rectTop clientRect - rectTop layerRect) / zoom doc;
           left := (rectLeft clientRect - rectLeft layerRect) / zoom doc;
           pageNumber := pageNumber |} in
      mapPush textLayerMap pageNumber rect
  end.

Definition consolidatePage (acc : result (list HighlightRect))
    (entry : Z * list HighlightRect) : result (list HighlightRect) :=
  highlights <- acc ;;
  if (0 <? length (snd entry))%nat
  then consolidated <- consolidateRects (snd entry) ;;
       Returned (highlights ++ consolidated)
  else Returned highlights.

Definition getDimension (doc : Document) : result (option DimensionSelection) :=
  match getSelection doc with
  | None => Returned None
  | Some selection =>
      if selectionIsCollapsed selection then Returned None
      else
        match ranges selection with
        | [] => Thrown "IndexSizeError"
        | range :: _ =>
            let clientRects := filter isNotTiny (getClientRects range) in
            let textLayerMap :=
              fold_left (dimensionStep doc) clientRects [] in
            highlights <-
              fold_left consolidatePage textLayerMap (Returned []) ;;
            Returned (Some
              {| dimensionHighlights := sortBy byPage highlights;
                 dimensionText := trim (toString range);
                 dimensionIsCollapsed := false |})
        end
  end.

(** Every list of the page map holds rects of one page, the key of its
    entry: [consolidateRects] is only ever called on such lists. *)
Definition singlePages (m : PageMap) : Prop :=
  forall page rects, In (page, rects) m ->
    forall r, In r rects -> pageNumber r = page.

Lemma mapPush_singlePages (m : PageMap) (rect : HighlightRect) :
  singlePages m -> singlePages (mapPush m (pageNumber rect) rect).
Proof.
  induction m as [|[page' rects'] m IH]; intros Hm page rects Hin r Hr.
  - cbn in Hin. destruct Hin as [E | []]. inversion E; subst.
    destruct Hr as [<- | []]. reflexivity.
  - cbn [mapPush] in Hin. destruct (page' =? pageNumber rect)%Z eqn:Ep.
    + destruct Hin as [E | Hin].
      * inversion E; subst. apply in_app_or in Hr.
        destruct Hr as [Hr | [<- | []]].
        -- apply (Hm page rects'); [now left | exact Hr].
        -- symmetry. apply Z.eqb_eq, Ep.
      * apply (Hm page rects); [now right | exact Hr].
    + destruct Hin as [E | Hin].
      * inversion E; subst. apply (Hm page rects); [now left | exact Hr].
      * apply (IH (fun p rs H => Hm p rs (or_intror H)) page rects Hin r Hr).
Qed.

Lemma dimensionMap_singlePages (doc : Document) (clientRects : list DOMRect) :
  forall m, singlePages m ->
    singlePages (fold_left (dimensionStep doc) clientRects m).
Proof.
  induction clientRects as [|rect clientRects IH]; intros m Hm.
  - exact Hm.
  - cbn [fold_left]. apply IH. unfold dimensionStep.
    destruct (textLayerOf _) as [textLayer|]; [| exact Hm].
    apply (mapPush_singlePages m
             {| width := rectWidth rect / zoom doc;
                height := rectHeight rect / zoom doc;
                top := (rectTop rect - rectTop (textLayerRect textLayer))
                       / zoom doc;
                left := (rectLeft rect - rectLeft (textLayerRect textLayer))
                        / zoom doc;
                pageNumber := dataPageNumber textLayer |}).
    exact Hm.
Qed.

End SelectionDimensions.

(** ** [clampScaleForPage] of [useDetailCanvasLayer]

    The function takes a square root, so its numbers are modelled by reals.
    [!targetScale] holds of 0 (and of NaN, which has no counterpart here).
    The three [Number.isFinite] tests always pass, the divisors being at
    least 1, so each limit takes part in the minimum. *)

Module DetailCanvas.

Import Reals Lra.
Local Open Scope R_scope.

Definition MAX_CANVAS_PIXELS : R := 16777216.
Definition MAX_CANVAS_DIMENSION : R := 32767.

Definition clampScaleForPage (targetScale pageWidth pageHeight : R) : R :=
  if Req_dec_T targetScale 0 then 0
  else
    let areaLimit :=
      sqrt (MAX_CANVAS_PIXELS / Rmax (pageWidth * pageHeight) 1) in
    let widthLimit := MAX_CANVAS_DIMENSION / Rmax pageWidth 1 in
    let heightLimit := MAX_CANVAS_DIMENSION / Rmax pageHeight 1 in
    let safeScale :=
      Rmin targetScale (Rmin areaLimit (Rmin widthLimit heightLimit)) in
    Rmax safeScale 0.

Lemma Rmax_one_pos (x : R) : 1 <= Rmax x 1 /\ x <= Rmax x 1.
Proof. split; [apply Rmax_r | apply Rmax_l]. Qed.

Lemma clampScaleForPage_bounds (s w h : R) :
  0 < s ->
  let s' := clampScaleForPage s w h in
  0 <= s' /\ s' <= s /\
  s' <= sqrt (MAX_CANVAS_PIXELS / Rmax (w * h) 1) /\
  s' <= MAX_CANVAS_DIMENSION / Rmax w 1 /\
  s' <= MAX_CANVAS_DIMENSION / Rmax h 1.
Proof.
  intros Hs. cbv zeta. unfold clampScaleForPage.
  destruct (Req_dec_T s 0) as [E | _]; [lra |].
  set (a := sqrt _). set (wl := _ / Rmax w 1). set (hl := _ / Rmax h 1).
  assert (Ha : 0 <= a) by apply sqrt_pos.
  assert (Hw : 0 <= wl).
  { unfold wl, MAX_CANVAS_DIMENSION. destruct (Rmax_one_pos w) as [H1 _].
    apply Rmult_le_pos; [lra |]. left. apply Rinv_0_lt_compat. lra. }
  assert (Hh : 0 <= hl).
  { unfold hl, MAX_CANVAS_DIMENSION. destruct (Rmax_one_pos h) as [H1 _].
    apply Rmult_le_pos; [lra |]. left. apply Rinv_0_lt_compat. lra. }
  pose proof (Rmin_l s (Rmin a (Rmin wl hl))) as M1.
  pose proof (Rmin_r s (Rmin a (Rmin wl hl))) as M2.
  pose proof (Rmin_l a (Rmin wl hl)) as M3.
  pose proof (Rmin_r a (Rmin wl hl)) as M4.
  pose proof (Rmin_l wl hl) as M5.
  pose proof (Rmin_r wl hl) as M6.
  set (m := Rmin s (Rmin a (Rmin wl hl))) in *.
  assert (Hm : 0 <= m).
  { unfold m. repeat apply Rmin_glb; lra. }
  rewrite Rmax_left by exact Hm.
  repeat split; lra.
Qed.

End DetailCanvas.

(** ** The render operation of a canvas

    The layout effect of [useCanvasLayer] (and of [useDetailCanvasLayer])
    ends with

      [const renderingTask = pdfPageProxy.render({...});]
      [renderingTask.promise.catch((error) => { ... });]
      [return () => { void renderingTask.cancel(); };]

    The effect and its cleanup are taken from the source.  Their environment
    is the effect protocol of the UI library (when the dependencies change
    the cleanup of the previous run is called, then the effect; on unmount
    the cleanup is called) and the contract of the document engine (a
    pending operation that is cancelled settles by rejecting with the
    cancelled signal and writes nothing more; cancelling a settled operation
    does nothing; a pending operation that completes has its output on the
    canvas). *)

Module Render.

Definition RenderingCancelledException : string :=
  "RenderingCancelledException".

Inductive Settlement : Type :=
| Fulfilled
| Rejected (errorName : string).

Inductive TaskStatus : Type :=
| Pending
| Settled (how : Settlement).

(** The handler given to [renderingTask.promise.catch]: it returns on the
    cancelled signal and rethrows every other error. *)
Definition onRejected (errorName : string) : result unit :=
  if String.eqb errorName RenderingCancelledException then Returned tt
  else Thrown errorName.

(** One canvas with the operations issued against it. *)
Record Surface : Type := mkSurface {
  tasks : list TaskStatus;   (* operations issued so far, oldest first *)
  cleanup : option nat;      (* [renderingTask] of the registered cleanup *)
  committed : list nat;      (* operations whose output is on the canvas,
                                latest first *)
  unhandled : list string    (* errors rethrown by the handler *)
}.

Definition mounted : Surface := mkSurface [] None [] [].

Fixpoint setStatus (l : list TaskStatus) (id : nat) (st : TaskStatus)
  : list TaskStatus :=
  match l, id with
  | [], _ => []
  | _ :: l', O => st :: l'
  | x :: l', S id' => x :: setStatus l' id' st
  end.

Definition isPending (s : Surface) (id : nat) : bool :=
  match nth_error (tasks s) id with
  | Some Pending => true
  | _ => false
  end.

(** The promise of operation [id] rejects: the handler runs. *)
Definition reject (id : nat) (errorName : string) (s : Surface) : Surface :=
  {| tasks := setStatus (tasks s) id (Settled (Rejected errorName));
     cleanup := cleanup s;
     committed := committed s;
     unhandled := match onRejected errorName with
                  | Thrown e => e :: unhandled s
                  | _ => unhandled s
                  end |}.

(** [renderingTask.cancel()]. *)
Definition cancel (id : nat) (s : Surface) : Surface :=
  if isPending s id then reject id RenderingCancelledException s else s.

(** The cleanup returned by the previous run of the effect, if it returned
    one. *)
Definition runCleanup (s : Surface) : Surface :=
  let s' := match cleanup s with
            | Some renderingTask => cancel renderingTask s
            | None => s
            end in
  {| tasks := tasks s'; cleanup := None;
     committed := committed s'; unhandled := unhandled s' |}.

(** The effect: without a canvas or a 2d context it returns early, with no
    cleanup; otherwise it issues a render operation and returns the cleanup
    that cancels it. *)
Definition runEffect (hasCanvasAndContext : bool) (s : Surface) : Surface :=
  if hasCanvasAndContext
  then {| tasks := tasks s ++ [Pending];
          cleanup := Some (length (tasks s));
          committed := committed s;
          unhandled := unhandled s |}
  else s.

Inductive Event : Type :=
| DepsChange (hasCanvasAndContext : bool)  (* the effect is run again *)
| Unmount
| Completes (id : nat)                     (* the engine finishes [id] *)
| Fails (id : nat) (errorName : string).   (* the engine fails [id] *)

Definition step (s : Surface) (e : Event) : Surface :=
  match e with
  | DepsChange hasCanvasAndContext =>
      runEffect hasCanvasAndContext (runCleanup s)
  | Unmount => runCleanup s
  | Completes id =>
      if isPending s id
      then {| tasks := setStatus (tasks s) id (Settled Fulfilled);
              cleanup := cleanup s;
              committed := id :: committed s;
              unhandled := unhandled s |}
      else s
  | Fails id errorName =>
      if isPending s id then reject id errorName s else s
  end.

Definition run (events : list Event) : Surface :=
  fold_left step events mounted.

Lemma setStatus_length (l : list TaskStatus) :
  forall id st, length (setStatus l id st) = length l.
Proof.
  induction l as [|x l IH]; intros [|id] st; cbn; try reflexivity.
  now rewrite IH.
Qed.

Lemma setStatus_same (l : list TaskStatus) :
  forall id st, (id < length l)%nat ->
    nth_error (setStatus l id st) id = Some st.
Proof.
  induction l as [|x l IH]; intros [|id] st H; cbn in *; try lia.
  - reflexivity.
  - apply IH. lia.
Qed.

Lemma setStatus_other (l : list TaskStatus) :
  forall id i st, i <> id ->
    nth_error (setStatus l id st) i = nth_error l i.
Proof.
  induction l as [|x l IH]; intros [|id] [|i] st H; cbn; try reflexivity.
  - congruence.
  - apply IH. congruence.
Qed.

Lemma isPending_true (s : Surface) (id : nat) :
  isPending s id = true <-> nth_error (tasks s) id = Some Pending.
Proof.
  unfold isPending. destruct (nth_error (tasks s) id) as [[|how]|];
    split; congruence.
Qed.

(** Settling operation [id] leaves no new pending operation. *)
Lemma setStatus_settled_pending (l : list TaskStatus) id how i :
  nth_error (setStatus l id (Settled how)) i = Some Pending ->
  i <> id /\ nth_error l i = Some Pending.
Proof.
  intro H. destruct (Nat.eq_dec i id) as [-> | Hne].
  - destruct (Nat.lt_ge_cases id (length l)) as [Hlt | Hge].
    + rewrite setStatus_same in H by exact Hlt. discriminate.
    + assert (E : nth_error (setStatus l id (Settled how)) id = None).
      { apply nth_error_None. now rewrite setStatus_length. }
      congruence.
  - rewrite setStatus_other in H by exact Hne. tauto.
Qed.

(** The invariant of a surface: a pending operation is the one the
    registered cleanup cancels, and that one is the latest issued. *)
Record exclusive (s : Surface) : Prop := {
  pending_is_registered :
    forall i, nth_error (tasks s) i = Some Pending -> cleanup s = Some i;
  registered_is_latest :
    forall i, cleanup s = Some i -> S i = length (tasks s)
}.

Lemma cancel_tasks (s : Surface) (id : nat) :
  cleanup (cancel id s) = cleanup s /\
  committed (cancel id s) = committed s /\
  unhandled (cancel id s) = unhandled s /\
  length (tasks (cancel id s)) = length (tasks s).
Proof.
  unfold cancel. destruct (isPending s id); [| tauto].
  cbn. rewrite setStatus_length. tauto.
Qed.

Lemma runCleanup_quiet (s : Surface) :
  exclusive s ->
  forall i, nth_error (tasks (runCleanup s)) i <> Some Pending.
Proof.
  intros [Hp _] i H. unfold runCleanup in H. cbn [tasks] in H.
  destruct (cleanup s) as [id|] eqn:Ec.
  - unfold cancel in H. destruct (isPending s id) eqn:Ei.
    + cbn [reject tasks] in H. apply setStatus_settled_pending in H.
      destruct H as [Hne H]. apply Hp in H. congruence.
    + pose proof (Hp i H) as E. inversion E; subst.
      apply isPending_true in H. congruence.
  - apply Hp in H. discriminate.
Qed.

Lemma runCleanup_facts (s : Surface) :
  cleanup (runCleanup s) = None /\
  committed (runCleanup s) = committed s /\
  unhandled (runCleanup s) = unhandled s /\
  length (tasks (runCleanup s)) = length (tasks s).
Proof.
  unfold runCleanup. cbn. destruct (cleanup s) as [id|]; [| tauto].
  destruct (cancel_tasks s id) as (_ & H1 & H2 & H3). tauto.
Qed.

Lemma step_exclusive (s : Surface) (e : Event) :
  exclusive s -> exclusive (step s e).
Proof.
  intro Hs. pose proof (runCleanup_quiet s Hs) as Hq.
  destruct (runCleanup_facts s) as (Hc & _ & _ & Hlen).
  destruct e as [[|] | | id | id errorName]; cbn [step runEffect].
  - constructor; cbn [tasks cleanup].
    + intros i Hi.
      destruct (Nat.lt_ge_cases i (length (tasks (runCleanup s)))) as [L | G].
      * rewrite nth_error_app1 in Hi by exact L. now apply Hq in Hi.
      * rewrite nth_error_app2 in Hi by exact G.
        destruct (i - length (tasks (runCleanup s)))%nat as [|k] eqn:Ek.
        -- f_equal. lia.
        -- destruct k; discriminate.
    + intros i Hi. inversion Hi; subst. rewrite length_app. cbn. lia.
  - constructor.
    + intros i Hi. now apply Hq in Hi.
    + intros i Hi. congruence.
  - constructor.
    + intros i Hi. now apply Hq in Hi.
    + intros i Hi. congruence.
  - destruct (isPending s id); [| exact Hs]. destruct Hs as [Hp Hl].
    constructor; cbn [tasks cleanup].
    + intros i Hi. apply setStatus_settled_pending in Hi. apply Hp, Hi.
    + intros i Hi. rewrite setStatus_length. apply Hl, Hi.
  - destruct (isPending s id); [| exact Hs]. destruct Hs as [Hp Hl].
    constructor; cbn [tasks cleanup reject].
    + intros i Hi. apply setStatus_settled_pending in Hi. apply Hp, Hi.
    + intros i Hi. rewrite setStatus_length. apply Hl, Hi.
Qed.

Lemma run_exclusive (events : list Event) : exclusive (run events).
Proof.
  unfold run. induction events as [|e events IH] using rev_ind.
  - constructor; cbn; intros i H; [destruct i |]; discriminate.
  - rewrite fold_left_app. cbn [fold_left]. apply step_exclusive, IH.
Qed.

Lemma onRejected_cancelled :
  onRejected RenderingCancelledException = Returned tt.
Proof. reflexivity. Qed.

Lemma onRejected_other (errorName : string) :
  errorName <> RenderingCancelledException ->
  onRejected errorName = Thrown errorName.
Proof.
  intro H. unfold onRejected.
  destruct (String.eqb_spec errorName RenderingCancelledException);
    [contradiction | reflexivity].
Qed.

(** Running the effect again while operation [i] is pending. *)
Lemma rerender_cancels (s : Surface) (i : nat) :
  exclusive s ->
  nth_error (tasks s) i = Some Pending ->
  let s' := step s (DepsChange true) in
  nth_error (tasks s') i
    = Some (Settled (Rejected RenderingCancelledException)) /\
  nth_error (tasks s') (length (tasks s)) = Some Pending /\
  (forall j, nth_error (tasks s') j = Some Pending -> j = length (tasks s)) /\
  committed s' = committed s /\
  unhandled s' = unhandled s.
Proof.
  intros Hs Hi s'.
  assert (Hex : exclusive s') by apply step_exclusive, Hs.
  assert (Hlt : (i < length (tasks s))%nat).
  { apply nth_error_Some. congruence. }
  assert (Hc : cleanup s = Some i) by (apply Hs, Hi).
  assert (Hpi : isPending s i = true) by (apply isPending_true, Hi).
  assert (Et : tasks s'
               = setStatus (tasks s) i
                   (Settled (Rejected RenderingCancelledException))
                 ++ [Pending]).
  { unfold s'. cbn [step runEffect tasks]. unfold runCleanup.
    rewrite Hc. unfold cancel. rewrite Hpi. reflexivity. }
  assert (Ec : cleanup s' = Some (length (tasks s))).
  { unfold s'. cbn [step runEffect cleanup].
    destruct (runCleanup_facts s) as (_ & _ & _ & ->). reflexivity. }
  split; [| split; [| split; [| split]]].
  - rewrite Et, nth_error_app1 by (now rewrite setStatus_length).
    apply setStatus_same, Hlt.
  - rewrite Et, nth_error_app2 by (rewrite setStatus_length; lia).
    rewrite setStatus_length, Nat.sub_diag. reflexivity.
  - intros j Hj. apply (pending_is_registered _ Hex) in Hj. congruence.
  - unfold s'. cbn [step runEffect committed].
    destruct (runCleanup_facts s) as (_ & -> & _). reflexivity.
  - unfold s'. cbn [step runEffect unhandled].
    destruct (runCleanup_facts s) as (_ & _ & -> & _). reflexivity.
Qed.

(** C5. Cancellation exclusivity, for every history of a surface.  A pending
    operation is the most recently issued one.  Issuing a new operation
    while one is pending cancels the pending one: it settles with the
    cancelled signal, which the handler swallows (nothing is rethrown,
    nothing is committed), and the new operation is the only pending one.
    Only the most recently issued operation can commit its output.  Unmount
    leaves no pending operation.  The handler returns on
    [RenderingCancelledException] and rethrows every other error. *)
Theorem render_cancellation_exclusive (events : list Event) :
  let s := run events in
  (forall i, nth_error (tasks s) i = Some Pending ->
     cleanup s = Some i /\ S i = length (tasks s)) /\
  (forall i, nth_error (tasks s) i = Some Pending ->
     let s' := step s (DepsChange true) in
     nth_error (tasks s') i
       = Some (Settled (Rejected RenderingCancelledException)) /\
     nth_error (tasks s') (length (tasks s)) = Some Pending /\
     (forall j, nth_error (tasks s') j = Some Pending ->
                j = length (tasks s)) /\
     committed s' = committed s /\
     unhandled s' = unhandled s) /\
  (forall id,
     step s (Completes id) = s \/
     (S id = length (tasks s) /\
      committed (step s (Completes id)) = id :: committed s)) /\
  (forall i, nth_error (tasks (step s Unmount)) i <> Some Pending) /\
  (forall id errorName,
     nth_error (tasks s) id = Some Pending ->
     errorName <> RenderingCancelledException ->
     unhandled (step s (Fails id errorName)) = errorName :: unhandled s) /\
  onRejected RenderingCancelledException = Returned tt /\
  (forall errorName, errorName <> RenderingCancelledException ->
     onRejected errorName = Thrown errorName).
Proof.
  cbv zeta. pose proof (run_exclusive events) as Hs.
  set (s := run events) in *.
  split; [| split; [| split; [| split; [| split; [| split]]]]].
  - intros i Hi. pose proof (pending_is_registered _ Hs i Hi) as Hc.
    split; [exact Hc | apply (registered_is_latest _ Hs), Hc].
  - intros i Hi. apply rerender_cancels; assumption.
  - intros id. cbn [step]. destruct (isPending s id) eqn:E; [| now left].
    right. apply isPending_true in E.
    pose proof (pending_is_registered _ Hs id E) as Hc.
    split; [apply (registered_is_latest _ Hs), Hc | reflexivity].
  - apply runCleanup_quiet, Hs.
  - intros id errorName Hp Hne. cbn [step].
    apply isPending_true in Hp. rewrite Hp. cbn [reject unhandled].
    now rewrite onRejected_other.
  - apply onRejected_cancelled.
  - apply onRejected_other.
Qed.

Lemma render_cancellation_exclusive_witness :
  let s := run [DepsChange true] in
  let s' := step s (DepsChange true) in
  nth_error (tasks s') 0
    = Some (Settled (Rejected RenderingCancelledException)) /\
  nth_error (tasks s') (length (tasks s)) = Some Pending /\
  (forall j, nth_error (tasks s') j = Some Pending -> j = length (tasks s)) /\
  committed s' = committed s /\
  unhandled s' = unhandled s.
Proof.
  destruct (render_cancellation_exclusive [DepsChange true]) as (_ & H & _).
  apply (H 0%nat). reflexivity.
Defined.

End Render.

(** ** The annotation store and the comment handlers *)

Module Store.

Open Scope string_scope.

(** *** [useAnnotations] *)

Record Annotation : Type := mkAnnotation {
  id : string;
  pageNumber : Z;
  highlights : list Geometry.HighlightRect;
  underlines : option (list Geometry.HighlightRect);
  color : string;
  borderColor : string;
  comment : option string;
  createdAt : Z;
  updatedAt : Z;
  metadata : option (list (string * string));
  isCommentPending : option bool
}.

(** A [Partial<Annotation>]: the fields that are present. *)
Record AnnotationUpdates : Type := mkUpdates {
  newId : option string;
  newPageNumber : option Z;
  newHighlights : option (list Geometry.HighlightRect);
  newUnderlines : option (list Geometry.HighlightRect);
  newColor : option string;
  newBorderColor : option string;
  newComment : option string;
  newCreatedAt : option Z;
  newUpdatedAt : option Z;
  newMetadata : option (list (string * string));
  newIsCommentPending : option bool
}.

Definition noUpdates : AnnotationUpdates :=
  mkUpdates None None None None None None None None None None None.

Definition override {A} (old : A) (new : option A) : A :=
  match new with Some x => x | None => old end.

Definition overrideOptional {A} (old : option A) (new : option A) : option A :=
  match new with Some x => Some x | None => old end.

(** The spread [{ ...annotation, ...updates }]. *)
Definition spread (annotation : Annotation) (updates : AnnotationUpdates)
  : Annotation :=
  {| id := override (id annotation) (newId updates);
     pageNumber := override (pageNumber annotation) (newPageNumber updates);
     highlights := override (highlights annotation) (newHighlights updates);
     underlines :=
       overrideOptional (underlines annotation) (newUnderlines updates);
     color := override (color annotation) (newColor updates);
     borderColor := override (borderColor annotation) (newBorderColor updates);
     comment := overrideOptional (comment annotation) (newComment updates);
     createdAt := override (createdAt annotation) (newCreatedAt updates);
     updatedAt := override (updatedAt annotation) (newUpdatedAt updates);
     metadata := overrideOptional (metadata annotation) (newMetadata updates);
     isCommentPending :=
       overrideOptional (isCommentPending annotation)
                        (newIsCommentPending updates) |}.

(** The state of the store is its list [annotations]; each action maps the
    list to the next one. *)
Definition addAnnotation (annotation : Annotation)
    (annotations : list Annotation) : list Annotation :=
  annotations ++ [annotation].

Definition updateAnnotation (target : string) (updates : AnnotationUpdates)
    (annotations : list Annotation) : list Annotation :=
  map (fun annotation =>
         if String.eqb (id annotation) target
         then spread annotation updates
         else annotation)
      annotations.

Definition deleteAnnotation (target : string)
    (annotations : list Annotation) : list Annotation :=
  filter (fun annotation => negb (String.eqb (id annotation) target))
         annotations.

Definition setAnnotations (annotations : list Annotation)
    (_ : list Annotation) : list Annotation :=
  annotations.

(** *** Frame properties *)

Lemma updateAnnotation_nth (target : string) (updates : AnnotationUpdates)
    (annotations : list Annotation) (k : nat) :
  nth_error (updateAnnotation target updates annotations) k
  = option_map
      (fun annotation =>
         if String.eqb (id annotation) target
         then spread annotation updates else annotation)
      (nth_error annotations k).
Proof. unfold updateAnnotation. apply nth_error_map. Qed.

Lemma updateAnnotation_absent (target : string) (updates : AnnotationUpdates)
    (annotations : list Annotation) :
  (forall a, In a annotations -> id a <> target) ->
  updateAnnotation target updates annotations = annotations.
Proof.
  intro H. unfold updateAnnotation.
  induction annotations as [|a l IH]; [reflexivity |].
  cbn [map]. destruct (String.eqb_spec (id a) target) as [E | _].
  - exfalso. apply (H a); [now left | exact E].
  - f_equal. apply IH. intros x Hx. apply H. now right.
Qed.

Lemma deleteAnnotation_absent (target : string)
    (annotations : list Annotation) :
  (forall a, In a annotations -> id a <> target) ->
  deleteAnnotation target annotations = annotations.
Proof.
  intro H. unfold deleteAnnotation.
  induction annotations as [|a l IH]; [reflexivity |].
  cbn [filter]. destruct (String.eqb_spec (id a) target) as [E | _].
  - exfalso. apply (H a); [now left | exact E].
  - cbn [negb]. f_equal. apply IH. intros x Hx. apply H. now right.
Qed.

Lemma deleteAnnotation_removes (target : string)
    (annotations : list Annotation) (a : Annotation) :
  In a (deleteAnnotation target annotations) <->
  In a annotations /\ id a <> target.
Proof.
  unfold deleteAnnotation. rewrite filter_In, negb_true_iff.
  destruct (String.eqb_spec (id a) target); split; intros [H1 H2];
    split; congruence.
Qed.

(** C10. Frame property of the store.  [updateAnnotation id updates] keeps
    the length and the order of the list, leaves every annotation with
    another id as it is and replaces the ones with the given id by their
    update; when no annotation has the given id, [updateAnnotation] and
    [deleteAnnotation] return the list unchanged. *)
Theorem store_frame (target : string) (updates : AnnotationUpdates)
    (annotations : list Annotation) :
  length (updateAnnotation target updates annotations) = length annotations /\
  (forall k a, nth_error annotations k = Some a ->
     id a <> target ->
     nth_error (updateAnnotation target updates annotations) k = Some a) /\
  (forall k a, nth_error annotations k = Some a ->
     id a = target ->
     nth_error (updateAnnotation target updates annotations) k
     = Some (spread a updates)) /\
  ((forall a, In a annotations -> id a <> target) ->
   updateAnnotation target updates annotations = annotations /\
   deleteAnnotation target annotations = annotations).
Proof.
  split; [apply length_map |]. split; [| split].
  - intros k a Hk Hne. rewrite updateAnnotation_nth, Hk. cbn.
    destruct (String.eqb_spec (id a) target); [contradiction | reflexivity].
  - intros k a Hk He. rewrite updateAnnotation_nth, Hk. cbn.
    destruct (String.eqb_spec (id a) target); [reflexivity | contradiction].
  - intro H. split;
      [apply updateAnnotation_absent | apply deleteAnnotation_absent]; exact H.
Qed.

Definition plainNote (name : string) : Annotation :=
  mkAnnotation name 1 [] None "yellow" "orange" None 0 0 None None.

Lemma store_frame_witness :
  updateAnnotation "c" noUpdates [plainNote "a"; plainNote "b"]
    = [plainNote "a"; plainNote "b"] /\
  deleteAnnotation "c" [plainNote "a"; plainNote "b"]
    = [plainNote "a"; plainNote "b"].
Proof.
  apply (store_frame "c" noUpdates [plainNote "a"; plainNote "b"]).
  intros a [<- | [<- | []]]; discriminate.
Defined.

(** *** The comment handlers of the viewer page ([PDFContent])

    The component state read by the handlers: the store, and the two
    [useState] cells. *)

Record PendingSelection : Type := mkPendingSelection {
  pendingHighlights : list Geometry.HighlightRect;
  pendingUnderlines : list Geometry.HighlightRect;
  pendingText : string;
  pendingPageNumber : Z
}.

Record Viewer : Type := mkViewer {
  annotations : list Annotation;
  editingAnnotationId : option string;
  pendingSelection : option PendingSelection
}.

(** Truthiness of a string-valued expression: [undefined], [null] and the
    empty string are falsy. *)
Definition truthy (s : option string) : bool :=
  match s with
  | Some c => negb (String.eqb c "")
  | None => false
  end.

Definition closeComposer (annotations' : list Annotation) : Viewer :=
  {| annotations := annotations';
     editingAnnotationId := None;
     pendingSelection := None |}.

(** [handleCreateComment], given the extracted selection, the fresh id and
    the current time. *)
Definition handleCreateComment
    (selection : option SelectionDimensions.CollapsibleSelection)
    (newAnnotationId : string) (now : Z) (v : Viewer) : Viewer :=
  match selection with
  | None => v
  | Some selection =>
      match SelectionDimensions.highlights selection with
      | [] => v
      | first :: _ =>
          let newAnnotation :=
            {| pageNumber := Geometry.pageNumber first;
               highlights := SelectionDimensions.highlights selection;
               underlines := Some (SelectionDimensions.underlines selection);
               color := "rgba(59, 130, 246, 0.3)";
               borderColor := "rgba(59, 130, 246, 0.8)";
               comment := None;
               id := newAnnotationId;
               createdAt := now;
               updatedAt := now;
               metadata := None;
               isCommentPending := Some true |} in
          {| annotations := addAnnotation newAnnotation (annotations v);
             editingAnnotationId := Some newAnnotationId;
             pendingSelection :=
               Some {| pendingHighlights :=
                         SelectionDimensions.highlights selection;
                       pendingUnderlines :=
                         SelectionDimensions.underlines selection;
                       pendingText := SelectionDimensions.text selection;
                       pendingPageNumber := Geometry.pageNumber first |} |}
      end
  end.

Definition commentUpdates (comment : string) (now : Z) : AnnotationUpdates :=
  {| newId := None; newPageNumber := None; newHighlights := None;
     newUnderlines := None; newColor := None; newBorderColor := None;
     newComment := Some comment;
     newCreatedAt := None;
     newUpdatedAt := Some now;
     newMetadata := None; newIsCommentPending := None |}.

Definition handleSaveComment (comment : string) (now : Z) (v : Viewer)
  : Viewer :=
  match pendingSelection v, editingAnnotationId v with
  | Some _, Some editing =>
      if truthy (Some editing)
      then closeComposer
             (updateAnnotation editing (commentUpdates comment now)
                               (annotations v))
      else v
  | _, _ => v
  end.

(** [handleSave] of the composer [CommentInput] with [onSave] bound to
    [handleSaveComment]: an empty or blank comment is not saved. *)
Definition composerSave (comment : string) (now : Z) (v : Viewer) : Viewer :=
  if truthy (Some (SelectionDimensions.trim comment))
  then handleSaveComment (SelectionDimensions.trim comment) now v
  else v.

Definition handleCancelComment (v : Viewer) : Viewer :=
  let annotations' :=
    match editingAnnotationId v with
    | Some editing =>
        if truthy (Some editing)
        then
          match find (fun a => String.eqb (id a) editing) (annotations v) with
          | Some annotation =>
              if negb (truthy (comment annotation))
              then deleteAnnotation editing (annotations v)
              else annotations v
          | None => annotations v
          end
        else annotations v
    | None => annotations v
    end in
  closeComposer annotations'.

Definition handleAnnotationTooltipClose (annotation : Annotation) (v : Viewer)
  : Viewer :=
  let annotations' :=
    if match isCommentPending annotation with
       | Some true => negb (truthy (comment annotation))
       | _ => false
       end
    then deleteAnnotation (id annotation) (annotations v)
    else annotations v in
  closeComposer annotations'.

(** *** Cleanup of comment-pending annotations *)

Lemma find_map_same {A} (p : A -> bool) (f : A -> A) (l : list A) :
  (forall x, p (f x) = p x) ->
  find p (map f l) = option_map f (find p l).
Proof.
  intro H. induction l as [|x l IH]; [reflexivity |].
  cbn [map find]. rewrite H. destruct (p x); [reflexivity | exact IH].
Qed.

Lemma spread_commentUpdates_id (a : Annotation) (c : string) (now : Z) :
  id (spread a (commentUpdates c now)) = id a.
Proof. reflexivity. Qed.

Lemma find_after_comment (target c : string) (now : Z)
    (l : list Annotation) (a : Annotation) :
  find (fun x => String.eqb (id x) target) l = Some a ->
  find (fun x => String.eqb (id x) target)
       (updateAnnotation target (commentUpdates c now) l)
  = Some (spread a (commentUpdates c now)).
Proof.
  intro H. unfold updateAnnotation. rewrite find_map_same.
  - rewrite H. cbn. apply find_some in H. destruct H as [_ H].
    now rewrite H.
  - intro x. destruct (String.eqb (id x) target) eqn:E; [| exact E].
    rewrite spread_commentUpdates_id. exact E.
Qed.

(** C9, as amended.  Cleanup of a comment-pending annotation [a] whose
    composer is open.  Cancelling the composer ([handleCancelComment]) or
    closing its tooltip ([handleAnnotationTooltipClose]) removes [a] from
    the store when it has no comment at that moment and leaves the store as
    it is when it has one; in particular, after [updateAnnotation] has
    attached a comment to [a], the cancel and the close retain it. *)
Theorem comment_pending_cleanup (v : Viewer) (a : Annotation) :
  isCommentPending a = Some true ->
  truthy (Some (id a)) = true ->
  editingAnnotationId v = Some (id a) ->
  find (fun x => String.eqb (id x) (id a)) (annotations v) = Some a ->
  (truthy (comment a) = false ->
     (forall x, In x (annotations (handleCancelComment v)) -> id x <> id a) /\
     (forall x, In x (annotations (handleAnnotationTooltipClose a v)) ->
                id x <> id a)) /\
  (truthy (comment a) = true ->
     annotations (handleCancelComment v) = annotations v /\
     annotations (handleAnnotationTooltipClose a v) = annotations v) /\
  (forall c now, truthy (Some c) = true ->
     let store :=
       updateAnnotation (id a) (commentUpdates c now) (annotations v) in
     let v' := mkViewer store (editingAnnotationId v) (pendingSelection v) in
     In (spread a (commentUpdates c now)) store /\
     annotations (handleCancelComment v') = store /\
     annotations
       (handleAnnotationTooltipClose (spread a (commentUpdates c now)) v')
     = store).
Proof.
  intros Hpending Hid Hedit Hfind.
  split; [| split].
  - intro Hc. unfold handleCancelComment, handleAnnotationTooltipClose.
    rewrite Hedit, Hid, Hfind, Hpending, Hc.
    cbn [negb closeComposer annotations].
    split; intros x Hx; apply deleteAnnotation_removes in Hx; tauto.
  - intro Hc. unfold handleCancelComment, handleAnnotationTooltipClose.
    rewrite Hedit, Hid, Hfind, Hpending, Hc. cbn. split; reflexivity.
  - intros c now Hc store v'.
    pose proof (find_after_comment (id a) c now (annotations v) a Hfind) as Hf.
    fold store in Hf. split; [| split].
    + apply find_some in Hf. tauto.
    + unfold handleCancelComment, v'. cbn [editingAnnotationId annotations].
      rewrite Hedit, Hid, Hf. cbn [spread comment commentUpdates newComment
                                   overrideOptional].
      rewrite Hc. reflexivity.
    + unfold handleAnnotationTooltipClose.
      cbn [spread comment isCommentPending commentUpdates newComment
           newIsCommentPending overrideOptional].
      rewrite Hpending, Hc. reflexivity.
Qed.

(** The scenario: a viewer with one stored note; a comment is started on a
    selection, which creates the comment-pending annotation ["n"]. *)
Definition oneHighlight : SelectionDimensions.CollapsibleSelection :=
  SelectionDimensions.mkCollapsibleSelection
    [Geometry.scenarioFirst] [] "quoted" false.

Definition composing : Viewer :=
  handleCreateComment (Some oneHighlight) "n" 5
    (mkViewer [plainNote "a"] None None).

Definition pendingNote : Annotation :=
  mkAnnotation "n" 1 [Geometry.scenarioFirst] (Some [])
    "rgba(59, 130, 246, 0.3)" "rgba(59, 130, 246, 0.8)"
    None 5 5 None (Some true).

Lemma comment_pending_cleanup_witness :
  annotations composing = [plainNote "a"; pendingNote] /\
  annotations (handleCancelComment composing) = [plainNote "a"] /\
  (forall x, In x (annotations (handleCancelComment composing)) ->
             id x <> "n") /\
  (let store :=
     updateAnnotation "n" (commentUpdates "fine" 9) (annotations composing) in
   annotations
     (handleCancelComment
        (mkViewer store (editingAnnotationId composing)
                  (pendingSelection composing)))
   = store) /\
  annotations
    (handleAnnotationTooltipClose
       (spread pendingNote (commentUpdates "fine" 9))
       (composerSave " fine " 9 composing))
  = [plainNote "a"; spread pendingNote (commentUpdates "fine" 9)].
Proof.
  destruct (comment_pending_cleanup composing pendingNote)
    as (Hnone & _ & Hgiven); try reflexivity.
  split; [reflexivity |]. split; [reflexivity |]. split; [| split].
  - apply Hnone. reflexivity.
  - apply (Hgiven "fine" 9%Z). reflexivity.
  - reflexivity.
Defined.

(** [handleSaveComment] of [TooltipContent], the tooltip of a stored
    annotation: the text of its comment field is stored as it is, also
    when it is empty. *)
Definition tooltipUpdates (comment : string) : AnnotationUpdates :=
  {| newId := None; newPageNumber := None; newHighlights := None;
     newUnderlines := None; newColor := None; newBorderColor := None;
     newComment := Some comment;
     newCreatedAt := None; newUpdatedAt := None;
     newMetadata := None; newIsCommentPending := None |}.

Definition tooltipSaveComment (annotation : Annotation) (comment : string)
    (v : Viewer) : Viewer :=
  {| annotations :=
       updateAnnotation (id annotation) (tooltipUpdates comment)
                        (annotations v);
     editingAnnotationId := editingAnnotationId v;
     pendingSelection := pendingSelection v |}.

(** The comment-pending annotation after the composer has saved the
    comment ["fine"], and after its tooltip has then saved an empty
    comment. *)
Definition commentedNote : Annotation :=
  spread pendingNote (commentUpdates "fine" 9).

Definition blankedNote : Annotation :=
  spread commentedNote (tooltipUpdates "").

(** C9, counterexample.  The comment-pending annotation ["n"] receives the
    comment ["fine"] through [updateAnnotation]; its tooltip then saves an
    empty comment, which [TooltipContent] does not refuse.  The annotation
    still carries [isCommentPending], so closing the tooltip deletes it,
    although a comment had been attached to it. *)
Lemma comment_blanked_then_deleted :
  let commented := composerSave "fine" 9 composing in
  let blanked := tooltipSaveComment commentedNote "" commented in
  annotations commented = [plainNote "a"; commentedNote] /\
  comment commentedNote = Some "fine" /\
  annotations blanked = [plainNote "a"; blankedNote] /\
  isCommentPending blankedNote = Some true /\
  annotations (handleAnnotationTooltipClose blankedNote blanked)
  = [plainNote "a"].
Proof. repeat split. Qed.

End Store.

(** ** Further properties of the consolidation engine *)

Module GeometryFacts.

Import Geometry.
Open Scope Q_scope.

(** Case analysis on every comparison of the goal. *)
Ltac compare_cases :=
  repeat match goal with
  | |- context [Qltb ?a ?b] =>
      let E := fresh "E" in
      destruct (Qltb a b) eqn:E;
      [apply Qltb_true in E | apply Qltb_false in E]
  | |- context [Qleb ?a ?b] =>
      let E := fresh "E" in
      destruct (Qleb a b) eqn:E;
      [apply Qleb_true in E | apply Qleb_false in E]
  end.

(** The overlap test of [doRectsOverlap] adds nothing to [closeEnough]: two
    rects pass [doRectsOverlap] exactly when they pass [shouldMergeRects];
    and the test does not depend on the order of its arguments. *)
Theorem doRectsOverlap_is_shouldMergeRects (rect1 rect2 : HighlightRect) :
  doRectsOverlap rect1 rect2 = shouldMergeRects rect1 rect2 /\
  doRectsOverlap rect1 rect2 = doRectsOverlap rect2 rect1.
Proof.
  assert (Hsym : forall a b, shouldMergeRects a b = shouldMergeRects b a).
  { intros a b. unfold shouldMergeRects.
    destruct (Qltb (top b + height b) (top a)),
             (Qltb (top a + height a) (top b)),
             (Qleb (Qabs (left a + width a - left b)) MERGE_THRESHOLD),
             (Qleb (Qabs (left b + width b - left a)) MERGE_THRESHOLD),
             (Qltb (left a) (left b + width b)),
             (Qltb (left b) (left a + width a)); reflexivity. }
  assert (Heq : forall a b, doRectsOverlap a b = shouldMergeRects a b).
  { intros a b. unfold doRectsOverlap, shouldMergeRects.
    destruct (Qleb (Qabs (left a + width a - left b)) MERGE_THRESHOLD),
             (Qleb (Qabs (left b + width b - left a)) MERGE_THRESHOLD);
      compare_cases; cbn; try reflexivity; exfalso; lra. }
  split; [apply Heq |]. rewrite !Heq. apply Hsym.
Qed.

(** *** Size of the result of [consolidateHighlightRects] *)

Lemma mergeLoop_length (rest : list HighlightRect) :
  forall current consolidated,
    (length consolidated < length (mergeLoop current rest consolidated)
     <= length consolidated + S (length rest))%nat.
Proof.
  induction rest as [|next rest IH]; intros current consolidated;
    cbn [mergeLoop].
  - rewrite length_app. cbn. lia.
  - destruct (horizontallyConnected current next).
    + specialize (IH (mergeTwo current next) consolidated). cbn. lia.
    + specialize (IH next (consolidated ++ [current])).
      rewrite length_app in IH. cbn in *. lia.
Qed.

(** [consolidateHighlightRects] never returns more rects than it is given,
    and returns none only when it is given none. *)
Theorem consolidateHighlightRects_count (rects : list HighlightRect) :
  (length (consolidateHighlightRects rects) <= length rects)%nat /\
  (consolidateHighlightRects rects = [] <-> rects = []).
Proof.
  unfold consolidateHighlightRects.
  destruct (length rects <=? 1)%nat eqn:El; [split; [lia | tauto] |].
  apply Nat.leb_gt in El.
  pose proof (sortBy_length compareHighlights rects) as Hl.
  destruct (sortBy compareHighlights rects) as [|current rest];
    [cbn in Hl; lia |].
  pose proof (mergeLoop_length rest current []) as Hm. cbn in Hl, Hm.
  split; [lia |]. split; intro H.
  - rewrite H in Hm. cbn in Hm. lia.
  - subst rects. cbn in El. lia.
Qed.

(** *** Page order *)

Definition pagesAscending (l : list HighlightRect) : Prop :=
  StronglySorted Z.le (map pageNumber l).

Section PageOrder.
Variable compareFn : HighlightRect -> HighlightRect -> Q.
Hypothesis compare_le : forall a b,
  compareFn a b <= 0 -> (pageNumber a <= pageNumber b)%Z.
Hypothesis compare_gt : forall a b,
  ~ compareFn a b <= 0 -> (pageNumber b <= pageNumber a)%Z.

Lemma insertSorted_pages (x : HighlightRect) (l : list HighlightRect) :
  pagesAscending l -> pagesAscending (insertSorted compareFn x l).
Proof.
  unfold pagesAscending. induction l as [|y l IH]; intro Hs; cbn.
  - repeat constructor.
  - inversion Hs as [|? ? Hl Hy]; subst.
    destruct (Qleb (compareFn x y) 0) eqn:E.
    + apply Qleb_true, compare_le in E. cbn. constructor; [exact Hs |].
      constructor; [exact E |].
      eapply Forall_impl; [| exact Hy]. intros z Hz. cbn in Hz. lia.
    + assert (Hyx : (pageNumber y <= pageNumber x)%Z).
      { apply compare_gt. intro Hle. apply Qleb_true in Hle. congruence. }
      cbn. constructor; [apply IH, Hl |].
      apply Forall_forall. intros z Hz. apply in_map_iff in Hz.
      destruct Hz as (r & <- & Hr).
      apply (Permutation_in _ (insertSorted_perm compareFn x l)) in Hr.
      destruct Hr as [<- | Hr]; [exact Hyx |].
      rewrite Forall_forall in Hy. apply Hy, in_map, Hr.
Qed.

Lemma sortBy_pages (l : list HighlightRect) :
  pagesAscending (sortBy compareFn l).
Proof.
  induction l as [|x l IH]; cbn.
  - constructor.
  - apply insertSorted_pages, IH.
Qed.
End PageOrder.

Lemma inject_Z_nonpos (z : Z) : inject_Z z <= 0 <-> (z <= 0)%Z.
Proof. change 0 with (inject_Z 0). rewrite <- Zle_Qle. reflexivity. Qed.

Lemma compareHighlights_le (a b : HighlightRect) :
  compareHighlights a b <= 0 -> (pageNumber a <= pageNumber b)%Z.
Proof.
  unfold compareHighlights.
  destruct (pageNumber a - pageNumber b =? 0)%Z eqn:E; cbn [negb].
  - intros _. apply Z.eqb_eq in E. lia.
  - intro H. apply (proj1 (inject_Z_nonpos _)) in H. lia.
Qed.

Lemma compareHighlights_gt (a b : HighlightRect) :
  ~ compareHighlights a b <= 0 -> (pageNumber b <= pageNumber a)%Z.
Proof.
  unfold compareHighlights.
  destruct (pageNumber a - pageNumber b =? 0)%Z eqn:E; cbn [negb].
  - intros _. apply Z.eqb_eq in E. lia.
  - intro H. rewrite inject_Z_nonpos in H. lia.
Qed.

Lemma sorted_drop_second (l1 : list Z) (a b : Z) (l2 : list Z) :
  StronglySorted Z.le (l1 ++ a :: b :: l2) ->
  StronglySorted Z.le (l1 ++ a :: l2).
Proof.
  induction l1 as [|x l1 IH]; cbn; intro H.
  - inversion H as [|? ? Hs Hf]; subst.
    inversion Hs as [|? ? Hs' Hf']; subst.
    inversion Hf; subst. constructor; assumption.
  - inversion H as [|? ? Hs Hf]; subst. constructor; [apply IH, Hs |].
    rewrite Forall_forall in *. intros z Hz. apply Hf.
    apply in_app_or in Hz. apply in_or_app.
    destruct Hz as [Hz | [<- | Hz]]; [now left | right; now left |].
    right. right. now right.
Qed.

Lemma mergeLoop_pages (rest : list HighlightRect) :
  forall current consolidated,
    pagesAscending (consolidated ++ current :: rest) ->
    pagesAscending (mergeLoop current rest consolidated).
Proof.
  unfold pagesAscending.
  induction rest as [|next rest IH]; intros current consolidated H;
    cbn [mergeLoop].
  - exact H.
  - destruct (horizontallyConnected current next).
    + apply IH. rewrite map_app in *. cbn in *.
      eapply sorted_drop_second. exact H.
    + apply IH. rewrite <- app_assoc. exact H.
Qed.

(** Whatever the order of its input, [consolidateHighlightRects] returns its
    rects in ascending order of page number. *)
Theorem consolidateHighlightRects_pages (rects : list HighlightRect) :
  pagesAscending (consolidateHighlightRects rects).
Proof.
  unfold consolidateHighlightRects.
  destruct (length rects <=? 1)%nat eqn:Hl.
  - apply Nat.leb_le in Hl. unfold pagesAscending.
    destruct rects as [|a [|b rects]]; cbn in *; try lia;
      repeat constructor.
  - pose proof (sortBy_pages compareHighlights compareHighlights_le
                  compareHighlights_gt rects) as Hs.
    pose proof (sortBy_length compareHighlights rects) as Hlen.
    destruct (sortBy compareHighlights rects) as [|current rest].
    + apply Nat.leb_gt in Hl. cbn in Hlen. lia.
    + apply mergeLoop_pages. exact Hs.
Qed.

(** *** The closure loop of [consolidateRects] *)

Lemma sweepFold_flag rects (js : list nat) :
  forall v g v' g' f',
    fold_left (sweepStep rects) js (v, g, true) = (v', g', f') -> f' = true.
Proof.
  intros v g v' g' f' E.
  destruct (sweepFold_measure _ _ _ _ _ _ _ _ E) as [(-> & _) | (-> & _)];
    reflexivity.
Qed.

(** A pass that ends with [foundNew = false] met no mergeable candidate. *)
Lemma sweepFold_quiet rects (js : list nat) :
  forall v g v' g',
    fold_left (sweepStep rects) js (v, g, false) = (v', g', false) ->
    v' = v /\ g' = g /\
    forall j r, In j js -> has v j = false -> nth_error rects j = Some r ->
      existsb (fun groupRect => doRectsOverlap groupRect r) g = false.
Proof.
  induction js as [|j js IH]; intros v g v' g' E; cbn [fold_left] in E.
  - inversion E; subst. repeat split. intros ? ? [].
  - destruct (sweepStep rects (v, g, false) j) as [[v1 g1] f1] eqn:E1.
    destruct f1.
    { apply sweepFold_flag in E. discriminate. }
    destruct (sweepStep_measure _ _ _ _ _ _ _ _ E1)
      as [(_ & -> & ->) | (H & _)]; [| discriminate].
    destruct (IH _ _ _ _ E) as (-> & -> & Hq).
    repeat split. intros i r [<- | Hi] Hv Hr.
    + unfold sweepStep in E1. rewrite Hv, Hr in E1.
      destruct (existsb _ g); [discriminate | reflexivity].
    + apply (Hq i r); assumption.
Qed.

(** The [while (foundNew)] loop of [consolidateRects] ends, and it ends with
    a closed group: the group only gained input rects, and no rect that is
    still unvisited passes [doRectsOverlap] with a rect of the group. *)
Theorem closure_is_closed (rects : list HighlightRect) (visited : list nat)
    (currentGroup : list HighlightRect) :
  exists visited' currentGroup',
    closure (S (length rects)) rects visited currentGroup
      = Returned (visited', currentGroup') /\
    incl visited visited' /\ incl currentGroup currentGroup' /\
    (forall r, In r currentGroup' -> In r currentGroup \/ In r rects) /\
    forall j r groupRect,
      nth_error rects j = Some r -> ~ In j visited' ->
      In groupRect currentGroup' ->
      doRectsOverlap groupRect r = false.
Proof.
  destruct (closure_returns rects (S (length rects)) visited currentGroup)
    as (v' & g' & E & [H1 H2 _ H4] & Hfix).
  { pose proof (unvisited_bound rects visited). lia. }
  exists v', g'. split; [exact E |]. split; [exact H1 |].
  split; [exact H2 |]. split; [exact H4 |].
  intros j r groupRect Hj Hv Hg.
  destruct (sweepFold_quiet _ _ _ _ _ _ Hfix) as (_ & _ & Hq).
  assert (Hex : existsb (fun x => doRectsOverlap x r) g' = false).
  { apply (Hq j r).
    - apply in_seq. split; [lia |]. cbn. apply nth_error_Some. congruence.
    - apply has_false, Hv.
    - exact Hj. }
  destruct (doRectsOverlap groupRect r) eqn:Eo; [| reflexivity].
  assert (existsb (fun x => doRectsOverlap x r) g' = true).
  { apply existsb_exists. exists groupRect. tauto. }
  congruence.
Qed.

(** *** Size of the result of [consolidateRects] *)

(** [visited] holds indices of [rects], each once. *)
Definition tidy (rects : list HighlightRect) (visited : list nat) : Prop :=
  NoDup visited /\ forall j, In j visited -> (j < length rects)%nat.

Lemma tidy_length rects visited :
  tidy rects visited -> (length visited <= length rects)%nat.
Proof.
  intros [Hn Hb]. rewrite <- (length_seq (length rects) 0%nat).
  apply NoDup_incl_length; [exact Hn |].
  intros j Hj. apply in_seq. specialize (Hb j Hj). lia.
Qed.

Lemma sweepStep_tidy rects v g f j v' g' f' :
  sweepStep rects (v, g, f) j = (v', g', f') ->
  tidy rects v -> tidy rects v' /\ (length v <= length v')%nat.
Proof.
  unfold sweepStep. destruct (has v j) eqn:Eh.
  { intro E; inversion E; subst. auto. }
  destruct (nth_error rects j) as [cand|] eqn:En.
  2:{ intro E; inversion E; subst. auto. }
  destruct (existsb _ g).
  2:{ intro E; inversion E; subst. auto. }
  intros E [Hn Hb]; inversion E; subst. split; [| cbn; lia]. split.
  - constructor; [apply has_false, Eh | exact Hn].
  - intros i [<- | Hi]; [| apply Hb, Hi]. apply nth_error_Some. congruence.
Qed.

Lemma sweepFold_tidy rects (js : list nat) :
  forall v g f v' g' f',
    fold_left (sweepStep rects) js (v, g, f) = (v', g', f') ->
    tidy rects v -> tidy rects v' /\ (length v <= length v')%nat.
Proof.
  induction js as [|j js IH]; intros v g f v' g' f' E Ht;
    cbn [fold_left] in E.
  - inversion E; subst. auto.
  - destruct (sweepStep rects (v, g, f) j) as [[v1 g1] f1] eqn:E1.
    destruct (sweepStep_tidy _ _ _ _ _ _ _ _ E1 Ht) as [Ht1 Hl1].
    destruct (IH _ _ _ _ _ _ E Ht1) as [Ht2 Hl2]. split; [exact Ht2 | lia].
Qed.

Lemma closure_tidy rects (fuel : nat) :
  forall v g v' g',
    closure fuel rects v g = Returned (v', g') ->
    tidy rects v -> tidy rects v' /\ (length v <= length v')%nat.
Proof.
  induction fuel as [|fuel IH]; intros v g v' g' E Ht; [discriminate |].
  cbn [closure] in E.
  destruct (sweep rects v g) as [[v1 g1] f1] eqn:Es.
  destruct (sweepFold_tidy _ _ _ _ _ _ _ _ Es Ht) as [Ht1 Hl1].
  destruct f1.
  - destruct (IH _ _ _ _ E Ht1) as [Ht2 Hl2]. split; [exact Ht2 | lia].
  - inversion E; subst. auto.
Qed.

(** Invariant of the outer loop: [result] has at most one rect per visited
    index, and at least one rect as soon as an index is visited. *)
Definition counted (rects : list HighlightRect)
    (visited : list nat) (out : list HighlightRect) : Prop :=
  tidy rects visited /\ (length out <= length visited)%nat /\
  (visited <> [] -> out <> []).

Lemma outerStep_counted rects visited out i visited' out' :
  counted rects visited out ->
  outerStep rects (Returned (visited, out)) i = Returned (visited', out') ->
  counted rects visited' out'.
Proof.
  intros (Ht & Hl & Hne). unfold outerStep, bind.
  destruct (has visited i) eqn:Eh.
  { intro E; inversion E; subst. exact (conj Ht (conj Hl Hne)). }
  destruct (nth_error rects i) as [currentRect|] eqn:En.
  2:{ intro E; inversion E; subst. exact (conj Ht (conj Hl Hne)). }
  destruct (closure _ rects (i :: visited) [currentRect])
    as [[v1 g1] | |] eqn:Ec; try discriminate.
  destruct (mergeRectGroup g1) as [m | |]; try discriminate.
  intro E; inversion E; subst.
  assert (Ht0 : tidy rects (i :: visited)).
  { destruct Ht as [Hn Hb]. split.
    - constructor; [apply has_false, Eh | exact Hn].
    - intros j [<- | Hj]; [| apply Hb, Hj].
      apply nth_error_Some. congruence. }
  destruct (closure_tidy _ _ _ _ _ _ Ec Ht0) as [Ht1 Hl1].
  split; [exact Ht1 |]. rewrite length_app. cbn in *. split; [lia |].
  intros _ H. apply app_eq_nil in H. destruct H; discriminate.
Qed.

Lemma outerFold_counted rects (idxs : list nat) :
  forall visited out visited' out',
    counted rects visited out ->
    fold_left (outerStep rects) idxs (Returned (visited, out))
      = Returned (visited', out') ->
    counted rects visited' out'.
Proof.
  induction idxs as [|i idxs IH]; intros visited out visited' out' Hc E;
    cbn [fold_left] in E.
  - inversion E; subst. exact Hc.
  - destruct (outerStep rects (Returned (visited, out)) i)
      as [[v1 o1] | msg |] eqn:E1.
    + apply (IH v1 o1); [| exact E].
      eapply outerStep_counted; eassumption.
    + exfalso. clear -E. induction idxs as [|j idxs IH]; [discriminate |].
      apply IH, E.
    + exfalso. clear -E. induction idxs as [|j idxs IH]; [discriminate |].
      apply IH, E.
Qed.

(** [consolidateRects] returns, never more rects than it is given, and none
    only when it is given none. *)
Theorem consolidateRects_count (rects : list HighlightRect) :
  exists out,
    consolidateRects rects = Returned out /\
    (length out <= length rects)%nat /\ (out = [] <-> rects = []).
Proof.
  unfold consolidateRects.
  destruct (length rects <=? 1)%nat eqn:El.
  { exists rects. split; [reflexivity |]. split; [lia | tauto]. }
  apply Nat.leb_gt in El.
  destruct (outerFold_inv rects (seq 0%nat (length rects)) [] [])
    as (v & out & E & _ & _ & Hall).
  { constructor; intros; contradiction. }
  rewrite E. cbn [bind]. exists out. split; [reflexivity |].
  assert (Hc : counted rects v out).
  { eapply outerFold_counted; [| exact E].
    split; [split; [constructor | intros ? []] |].
    split; [cbn; lia | intro K; now contradiction K]. }
  destruct Hc as (Ht & Hl & Hne).
  pose proof (tidy_length rects v Ht). split; [lia |].
  split; intro K.
  - exfalso. apply Hne; [| exact K].
    assert (In 0%nat v) by (apply Hall; [apply in_seq |]; lia).
    intro Hv. rewrite Hv in *. contradiction.
  - subst rects. cbn in El. lia.
Qed.

End GeometryFacts.

(** ** Further properties of the selection extraction *)

Module SelectionFacts.

Import Geometry GeometryFacts SelectionDimensions.
Open Scope Q_scope.

(** *** A document with two pages in view

    Points above [y = 100] fall on a span of the text layer of page 2, the
    points below on a span of the text layer of page 1 (the pages are laid
    out bottom-up only to make the sort visible). *)
Definition spanOn (layer : TextLayerElement) : Element :=
  mkElement "span"%string (Some "line"%string) (mkDOMRect 0 0 40 12)
            "text"%string (Some (mkDOMRect 0 0 600 800)) (Some layer).

Definition twoPageDocument : Document :=
  mkDocument
    (Some (mkSelection false
             [mkRange [mkDOMRect 10 20 40 12; mkDOMRect 10 120 40 12]
                      "two lines"%string]))
    (fun _ y => if Qltb y 100
                then Some (spanOn (mkTextLayer 2 (mkDOMRect 0 0 600 100)))
                else Some (spanOn (mkTextLayer 1 (mkDOMRect 0 100 600 100))))
    2.

(** *** Order of the result *)

Lemma byPage_le (a b : HighlightRect) :
  byPage a b <= 0 -> (pageNumber a <= pageNumber b)%Z.
Proof.
  unfold byPage. intro H. apply (proj1 (inject_Z_nonpos _)) in H. lia.
Qed.

Lemma byPage_gt (a b : HighlightRect) :
  ~ byPage a b <= 0 -> (pageNumber b <= pageNumber a)%Z.
Proof. unfold byPage. intro H. rewrite inject_Z_nonpos in H. lia. Qed.

Lemma highlights_in_page_order (doc : Document)
    (sel : CollapsibleSelection) :
  getAnnotationDimension doc = Returned (Some sel) ->
  pagesAscending (highlights sel).
Proof.
  unfold getAnnotationDimension.
  destruct (getSelection doc) as [selection|]; [| discriminate].
  destruct (selectionIsCollapsed selection); [discriminate |].
  destruct (ranges selection) as [|range _]; [discriminate |].
  destruct (fold_left _ _ _) as [mh mu]. intro E. inversion E; subst.
  cbn [highlights]. apply sortBy_pages; auto using byPage_le, byPage_gt.
Qed.

(** Whatever [getAnnotationDimension] and [getDimension] return, the
    highlights and the underlines are in ascending order of page number. *)
Theorem extraction_sorted_by_page (doc : Document) :
  (forall sel, getAnnotationDimension doc = Returned (Some sel) ->
     pagesAscending (highlights sel) /\ pagesAscending (underlines sel)) /\
  (forall d, getDimension doc = Returned (Some d) ->
     pagesAscending (dimensionHighlights d)).
Proof.
  split.
  - intros sel. unfold getAnnotationDimension.
    destruct (getSelection doc) as [selection|]; [| discriminate].
    destruct (selectionIsCollapsed selection); [discriminate |].
    destruct (ranges selection) as [|range _]; [discriminate |].
    destruct (fold_left _ _ _) as [mh mu]. intro E. inversion E; subst.
    cbn [highlights underlines].
    split; apply sortBy_pages; auto using byPage_le, byPage_gt.
  - intros d. unfold getDimension.
    destruct (getSelection doc) as [selection|]; [| discriminate].
    destruct (selectionIsCollapsed selection); [discriminate |].
    destruct (ranges selection) as [|range _]; [discriminate |].
    destruct (fold_left consolidatePage _ _) as [hl | |]; try discriminate.
    cbn [bind]. intro E. inversion E; subst. cbn [dimensionHighlights].
    apply sortBy_pages; auto using byPage_le, byPage_gt.
Qed.

Lemma extraction_sorted_by_page_witness :
  exists sel,
    getAnnotationDimension twoPageDocument = Returned (Some sel) /\
    map pageNumber (highlights sel) = [1%Z; 2%Z] /\
    pagesAscending (highlights sel) /\ pagesAscending (underlines sel).
Proof.
  eexists. split; [vm_compute; reflexivity |]. split; [reflexivity |].
  apply (extraction_sorted_by_page twoPageDocument).
  vm_compute. reflexivity.
Defined.

(** *** Shape of the result

    The value returned for a selection that is not collapsed, in terms of
    the two page maps built from its fragments. *)
Definition highlightsOf (textLayerMapHighlight : PageMap)
  : list HighlightRect :=
  flat_map (fun entry => pageHighlights (snd entry)) textLayerMapHighlight.

Definition underlinesOf (textLayerMapHighlight textLayerMapUnderline : PageMap)
  : list HighlightRect :=
  let underlineRects :=
    flat_map (fun entry => pageUnderlines (snd entry)) textLayerMapUnderline in
  if (length underlineRects =? 0)%nat
     && (0 <? length (highlightsOf textLayerMapHighlight))%nat
  then map fallbackUnderline (highlightsOf textLayerMapHighlight)
  else underlineRects.

Lemma getAnnotationDimension_some (doc : Document)
    (sel : CollapsibleSelection) :
  getAnnotationDimension doc = Returned (Some sel) ->
  exists selection range others mh mu,
    getSelection doc = Some selection /\
    selectionIsCollapsed selection = false /\
    ranges selection = range :: others /\
    fold_left (fragmentStep doc) (filter isNotTiny (getClientRects range))
              ([], []) = (mh, mu) /\
    highlights sel = sortBy byPage (highlightsOf mh) /\
    underlines sel
      = sortBy byPage (consolidateUnderlines (underlinesOf mh mu)).
Proof.
  unfold getAnnotationDimension.
  destruct (getSelection doc) as [selection|]; [| discriminate].
  destruct (selectionIsCollapsed selection) eqn:Ec; [discriminate |].
  destruct (ranges selection) as [|range others] eqn:Er; [discriminate |].
  destruct (fold_left _ _ _) as [mh mu] eqn:Ef. intro E. inversion E; subst.
  exists selection, range, others, mh, mu. repeat split; assumption.
Qed.

Lemma getAnnotationDimension_range (doc : Document) (selection : Selection)
    (range : Range) (others : list Range) :
  getSelection doc = Some selection ->
  selectionIsCollapsed selection = false ->
  ranges selection = range :: others ->
  exists sel mh mu,
    getAnnotationDimension doc = Returned (Some sel) /\
    fold_left (fragmentStep doc) (filter isNotTiny (getClientRects range))
              ([], []) = (mh, mu) /\
    highlights sel = sortBy byPage (highlightsOf mh) /\
    underlines sel
      = sortBy byPage (consolidateUnderlines (underlinesOf mh mu)).
Proof.
  intros Hs Hc Hr. unfold getAnnotationDimension. rewrite Hs, Hc, Hr.
  destruct (fold_left _ _ _) as [mh mu] eqn:Ef.
  eexists. exists mh, mu. split; [reflexivity |]. repeat split.
Qed.

Lemma sortBy_nil {A} (compareFn : A -> A -> Q) (l : list A) :
  sortBy compareFn l = [] <-> l = [].
Proof.
  pose proof (sortBy_length compareFn l) as H. split; intro E.
  - rewrite E in H. destruct l; [reflexivity | discriminate].
  - subst. reflexivity.
Qed.

(** *** Underlines *)

Lemma underlineLoop_length (rest : list HighlightRect) :
  forall current consolidated,
    (length consolidated
     < length (underlineLoop current rest consolidated))%nat.
Proof.
  induction rest as [|next rest IH]; intros current consolidated;
    cbn [underlineLoop].
  - rewrite length_app. cbn. lia.
  - destruct (underlinesConnected current next).
    + apply IH.
    + specialize (IH next (consolidated ++ [current])).
      rewrite length_app in IH. cbn in IH. lia.
Qed.

Lemma consolidateUnderlines_nil (l : list HighlightRect) :
  consolidateUnderlines l = [] <-> l = [].
Proof.
  unfold consolidateUnderlines.
  destruct (length l <=? 1)%nat eqn:El; [tauto |].
  apply Nat.leb_gt in El.
  destruct (sortBy compareUnderlines l) as [|current rest]; [tauto |].
  pose proof (underlineLoop_length rest current []) as H.
  split; intro E.
  - rewrite E in H. cbn in H. lia.
  - subst. cbn in El. lia.
Qed.

(** Every highlight gets an underline: when [getAnnotationDimension] returns
    highlights it returns underlines too, synthesized from the highlights
    if the fragments gave none. *)
Theorem highlights_have_underlines (doc : Document)
    (sel : CollapsibleSelection) :
  getAnnotationDimension doc = Returned (Some sel) ->
  highlights sel <> [] -> underlines sel <> [].
Proof.
  intros E Hh.
  destruct (getAnnotationDimension_some doc sel E)
    as (_ & _ & _ & mh & mu & _ & _ & _ & _ & Eh & Eu).
  rewrite Eh, sortBy_nil in Hh. rewrite Eu, sortBy_nil.
  rewrite consolidateUnderlines_nil. unfold underlinesOf.
  destruct (flat_map (fun entry => pageUnderlines (snd entry)) mu)
    as [|u us]; [| discriminate].
  destruct (highlightsOf mh) as [|h hs]; [congruence | discriminate].
Qed.

(** A document whose only fragment lies on a superscript: no underline
    comes from the fragment, one is synthesized from the highlight. *)
Definition superscriptDocument : Document :=
  mkDocument
    (Some (mkSelection false [mkRange [mkDOMRect 10 20 8 5] "2"%string]))
    (fun _ _ =>
       Some (mkElement "sup"%string None (mkDOMRect 10 20 8 5) "2"%string
               None (Some (mkTextLayer 1 (mkDOMRect 0 0 600 800)))))
    1.

Lemma highlights_have_underlines_witness :
  exists sel,
    getAnnotationDimension superscriptDocument = Returned (Some sel) /\
    highlights sel = [mkRect 20 10 8 5 1] /\
    underlines sel <> [].
Proof.
  eexists. split; [vm_compute; reflexivity |]. split; [reflexivity |].
  apply (highlights_have_underlines superscriptDocument).
  - vm_compute. reflexivity.
  - discriminate.
Defined.

(** *** Thickness of the underlines *)

Definition UNDERLINE_THICKNESS : Q := 1.5.

Lemma underlineRuns_height (rest : list HighlightRect) :
  forall startRect currentRect u,
    In u (underlineRuns startRect currentRect rest) ->
    height u = UNDERLINE_THICKNESS.
Proof.
  induction rest as [|nextRect rest IH]; intros startRect currentRect u;
    cbn [underlineRuns].
  - intros [<- | []]. reflexivity.
  - destruct (Qleb _ _).
    + apply IH.
    + intros [<- | H]; [reflexivity | eapply IH; exact H].
Qed.

Lemma pageUnderlines_height (rects : list HighlightRect) (u : HighlightRect) :
  In u (pageUnderlines rects) -> height u = UNDERLINE_THICKNESS.
Proof.
  unfold pageUnderlines. destruct (0 <? length rects)%nat; [| intros []].
  intro H. apply in_flat_map in H. destruct H as (group & _ & H).
  unfold lineUnderlines in H.
  destruct (sortBy _ group) as [|startRect rest]; [destruct H |].
  eapply underlineRuns_height. exact H.
Qed.

Lemma underlineLoop_height (h : Q) (rest : list HighlightRect) :
  forall current consolidated,
    (forall x, In x (consolidated ++ current :: rest) -> height x = h) ->
    forall u, In u (underlineLoop current rest consolidated) -> height u = h.
Proof.
  induction rest as [|next rest IH]; intros current consolidated H u;
    cbn [underlineLoop].
  - apply H.
  - destruct (underlinesConnected current next).
    + apply IH. intros x Hx. apply in_app_or in Hx.
      destruct Hx as [Hx | [<- | Hx]].
      * apply H, in_or_app. now left.
      * cbn. apply H, in_or_app. right. now left.
      * apply H, in_or_app. right. right. now right.
    + apply IH. intros x Hx. apply H. now rewrite <- app_assoc in Hx.
Qed.

Lemma consolidateUnderlines_height (h : Q) (l : list HighlightRect) :
  (forall x, In x l -> height x = h) ->
  forall u, In u (consolidateUnderlines l) -> height u = h.
Proof.
  intros H u. unfold consolidateUnderlines.
  destruct (length l <=? 1)%nat; [apply H |].
  destruct (sortBy compareUnderlines l) as [|current rest] eqn:E; [apply H |].
  apply underlineLoop_height. intros x Hx. apply H.
  apply (sortBy_In compareUnderlines). rewrite E. exact Hx.
Qed.

(** Every underline that [getAnnotationDimension] returns is 1.5 units
    thick, at every zoom: the thickness of the runs of a line and of the
    synthesized underlines, which the final consolidation keeps. *)
Theorem underlines_fixed_thickness (doc : Document)
    (sel : CollapsibleSelection) :
  getAnnotationDimension doc = Returned (Some sel) ->
  forall u, In u (underlines sel) -> height u = 1.5.
Proof.
  intros E u Hu.
  destruct (getAnnotationDimension_some doc sel E)
    as (_ & _ & _ & mh & mu & _ & _ & _ & _ & _ & Eu).
  rewrite Eu in Hu. apply sortBy_In in Hu.
  revert u Hu. apply (consolidateUnderlines_height 1.5).
  intros x Hx. unfold underlinesOf in Hx.
  destruct (_ && _).
  - apply in_map_iff in Hx. destruct Hx as (hl & <- & _). reflexivity.
  - apply in_flat_map in Hx. destruct Hx as (entry & _ & Hx).
    apply pageUnderlines_height in Hx. exact Hx.
Qed.

Lemma underlines_fixed_thickness_witness :
  exists sel,
    getAnnotationDimension twoPageDocument = Returned (Some sel) /\
    length (underlines sel) = 2%nat /\
    forall u, In u (underlines sel) -> height u = 1.5.
Proof.
  eexists. split; [vm_compute; reflexivity |]. split; [reflexivity |].
  apply (underlines_fixed_thickness twoPageDocument).
  vm_compute. reflexivity.
Defined.

(** *** When the result has highlights *)

Definition allNonEmpty (m : PageMap) : Prop :=
  forall page rects, In (page, rects) m -> rects <> [].

Lemma mapPush_nonEmpty (m : PageMap) (page : Z) (rect : HighlightRect) :
  allNonEmpty m ->
  allNonEmpty (mapPush m page rect) /\ mapPush m page rect <> [].
Proof.
  induction m as [|[page' rects'] m IH]; intro Hm; cbn [mapPush].
  - split; [| discriminate]. intros p rs [E | []]. inversion E. discriminate.
  - destruct (page' =? page)%Z; (split; [| discriminate]).
    + intros p rs [E | H].
      * inversion E. intro K. apply app_eq_nil in K. destruct K; discriminate.
      * apply (Hm p rs). now right.
    + intros p rs [E | H].
      * inversion E; subst. apply (Hm p rs). now left.
      * destruct IH as [IH _]; [| apply (IH p rs H)].
        intros q qs Hq. apply (Hm q qs). now right.
Qed.

Lemma fragmentStep_highlightMap (doc : Document) (mh mu : PageMap)
    (rect : DOMRect) :
  allNonEmpty mh ->
  allNonEmpty (fst (fragmentStep doc (mh, mu) rect)) /\
  (textLayerOf (probeElement doc rect) = None ->
   fragmentStep doc (mh, mu) rect = (mh, mu)) /\
  (textLayerOf (probeElement doc rect) <> None ->
   fst (fragmentStep doc (mh, mu) rect) <> []).
Proof.
  intro Hm. unfold fragmentStep.
  destruct (textLayerOf (probeElement doc rect)) as [layer|].
  - match goal with
    | |- context [mapPush mh ?k ?r] =>
        destruct (mapPush_nonEmpty mh k r Hm) as [H1 H2]
    end.
    destruct (negb _); cbn [fst];
      (split; [exact H1 | split; [discriminate | intros _; exact H2]]).
  - cbn [fst]. split; [exact Hm |]. split; [reflexivity | congruence].
Qed.

Lemma fragmentFold_highlightMap (doc : Document) (rects : list DOMRect) :
  forall mh mu,
    allNonEmpty mh ->
    allNonEmpty (fst (fold_left (fragmentStep doc) rects (mh, mu))) /\
    (fst (fold_left (fragmentStep doc) rects (mh, mu)) = [] ->
     forall rect, In rect rects -> textLayerOf (probeElement doc rect) = None).
Proof.
  induction rects as [|rect rects IH]; intros mh mu Hm; cbn [fold_left].
  - split; [exact Hm | intros _ ? []].
  - destruct (fragmentStep_highlightMap doc mh mu rect Hm) as (H1 & H2 & H3).
    destruct (fragmentStep doc (mh, mu) rect) as [mh1 mu1] eqn:E1.
    cbn [fst] in H1, H3.
    destruct (IH mh1 mu1 H1) as [I1 I2]. split; [exact I1 |].
    intros Hnil r [<- | Hr]; [| apply I2; assumption].
    destruct (textLayerOf (probeElement doc rect)) eqn:Et; [| reflexivity].
    exfalso. assert (Hne : mh1 <> []) by (apply H3; discriminate).
    clear -Hnil Hne H1. revert mh1 mu1 Hnil Hne H1.
    induction rects as [|r rs IHr]; intros mh1 mu1 Hnil Hne H1.
    + cbn in Hnil. contradiction.
    + cbn [fold_left] in Hnil.
      destruct (fragmentStep_highlightMap doc mh1 mu1 r H1) as (K1 & K2 & K3).
      destruct (fragmentStep doc (mh1, mu1) r) as [mh2 mu2] eqn:E2.
      cbn [fst] in K1, K3. apply (IHr mh2 mu2 Hnil); [| exact K1].
      destruct (textLayerOf (probeElement doc r)) eqn:Et.
      * apply K3. discriminate.
      * pose proof (K2 eq_refl) as K. inversion K; subst. exact Hne.
Qed.

Lemma pageHighlights_nil (rects : list HighlightRect) :
  pageHighlights rects = [] -> rects = [].
Proof.
  unfold pageHighlights. destruct rects as [|a [|b rects]]; cbn; auto.
  intro H. exfalso.
  { assert (E : consolidateHighlightRects (a :: b :: rects)
                = match sortBy compareHighlights (a :: b :: rects) with
                  | [] => a :: b :: rects
                  | current :: rest => mergeLoop current rest []
                  end) by reflexivity.
    change (consolidateHighlightRects (a :: b :: rects) = []) in H.
    rewrite E in H.
    destruct (sortBy compareHighlights (a :: b :: rects)) as [|c rest];
      [discriminate |].
    pose proof (mergeLoop_length rest c []) as Hl. rewrite H in Hl.
    cbn in Hl. lia. }
Qed.

Lemma highlightsOf_nil (m : PageMap) :
  allNonEmpty m -> highlightsOf m = [] -> m = [].
Proof.
  intros Hm H. destruct m as [|[page rects] m]; [reflexivity |].
  exfalso. unfold highlightsOf in H. cbn [flat_map snd] in H.
  apply app_eq_nil in H. destruct H as [H _].
  apply pageHighlights_nil in H. apply (Hm page rects); [now left | exact H].
Qed.

(** For a selection that is not collapsed, [getAnnotationDimension] returns
    no highlight exactly when no fragment larger than 2 by 2 resolves to a
    text layer. *)
Theorem highlights_iff_resolved (doc : Document) (selection : Selection)
    (range : Range) (others : list Range) :
  getSelection doc = Some selection ->
  selectionIsCollapsed selection = false ->
  ranges selection = range :: others ->
  exists sel,
    getAnnotationDimension doc = Returned (Some sel) /\
    (highlights sel = [] <->
     forall rect, In rect (getClientRects range) -> isNotTiny rect = true ->
       textLayerOf (probeElement doc rect) = None).
Proof.
  intros Hs Hc Hr.
  destruct (getAnnotationDimension_range doc selection range others Hs Hc Hr)
    as (sel & mh & mu & E & Ef & Eh & _).
  exists sel. split; [exact E |]. rewrite Eh, sortBy_nil. split.
  - intros Hnil rect Hin Ht.
    destruct (fragmentFold_highlightMap doc
                (filter isNotTiny (getClientRects range)) [] [])
      as [Hne Hun]; [intros ? ? [] |].
    assert (Ef' : fold_left (fragmentStep doc)
                    (filter isNotTiny (getClientRects range))
                    (([] : PageMap), ([] : PageMap)) = (mh, mu)) by exact Ef.
    rewrite Ef' in Hne, Hun. cbn [fst] in Hne, Hun.
    apply Hun; [apply highlightsOf_nil; assumption |].
    apply filter_In. tauto.
  - intro H.
    rewrite fragmentFold_unresolved in Ef.
    + inversion Ef; subst. reflexivity.
    + intros rect Hin. apply filter_In in Hin. apply H; tauto.
Qed.

Lemma highlights_iff_resolved_witness :
  exists sel,
    getAnnotationDimension twoPageDocument = Returned (Some sel) /\
    (highlights sel = [] <->
     forall rect,
       In rect [mkDOMRect 10 20 40 12; mkDOMRect 10 120 40 12] ->
       isNotTiny rect = true ->
       textLayerOf (probeElement twoPageDocument rect) = None).
Proof.
  apply (highlights_iff_resolved twoPageDocument
           (mkSelection false
              [mkRange [mkDOMRect 10 20 40 12; mkDOMRect 10 120 40 12]
                       "two lines"%string])
           (mkRange [mkDOMRect 10 20 40 12; mkDOMRect 10 120 40 12]
                    "two lines"%string) []); reflexivity.
Defined.

(** *** [groupRectsByLine] *)

Definition centerY (r : HighlightRect) : Q := top r + height r / 2.

(** Every group is non-empty and each of its rects has its vertical centre
    within the tolerance of the centre of the group's first rect. *)
Definition lineGroups (groups : list (list HighlightRect)) : Prop :=
  forall group, In group groups ->
    group <> [] /\
    forall firstRect r, hd_error group = Some firstRect -> In r group ->
      Qabs (centerY r - centerY firstRect) <= VERTICAL_TOLERANCE.

Lemma centre_of_itself (r : HighlightRect) :
  Qabs (centerY r - centerY r) <= VERTICAL_TOLERANCE.
Proof.
  apply Qabs_Qle_condition. unfold VERTICAL_TOLERANCE. split; lra.
Qed.

Lemma addToLine_groups (groups : list (list HighlightRect))
    (rect : HighlightRect) :
  lineGroups groups ->
  lineGroups (addToLine groups rect) /\
  Permutation (concat (addToLine groups rect)) (rect :: concat groups).
Proof.
  induction groups as [|group groups IH]; intro Hg; cbn [addToLine].
  - split.
    + intros g [<- | []]. split; [discriminate |].
      intros f r Hf [<- | []]. cbn in Hf. inversion Hf; subst.
      apply centre_of_itself.
    + cbn. apply Permutation_refl.
  - assert (Htl : lineGroups groups).
    { intros g H. apply Hg. now right. }
    destruct group as [|firstRect others].
    { exfalso. apply (proj1 (Hg [] (or_introl eq_refl))). reflexivity. }
    cbv zeta.
    match goal with
    | |- context [Qleb ?a ?b] => destruct (Qleb a b) eqn:E
    end.
    + split.
      * intros g [<- | H]; [| apply Htl, H]. split.
        -- intro K. apply app_eq_nil in K. destruct K; discriminate.
        -- intros f r Hf Hr. cbn in Hf. inversion Hf; subst f.
           apply in_app_or in Hr. destruct Hr as [Hr | [<- | []]].
           ++ apply (proj2 (Hg _ (or_introl eq_refl))); [reflexivity | exact Hr].
           ++ apply Qleb_true in E. exact E.
      * cbn [concat]. rewrite <- app_assoc. cbn [app].
        apply Permutation_sym.
        apply (Permutation_middle (firstRect :: others) (concat groups) rect).
    + destruct (IH Htl) as [I1 I2]. split.
      * intros g [<- | H]; [apply Hg; now left | apply I1, H].
      * cbn [concat].
        eapply perm_trans; [apply Permutation_app_head, I2 |].
        apply Permutation_sym, Permutation_middle.
Qed.

Lemma groupFold_groups (rects : list HighlightRect) :
  forall groups,
    lineGroups groups ->
    lineGroups (fold_left addToLine rects groups) /\
    Permutation (concat (fold_left addToLine rects groups))
                (concat groups ++ rects).
Proof.
  induction rects as [|rect rects IH]; intros groups Hg; cbn [fold_left].
  - split; [exact Hg |]. rewrite app_nil_r. apply Permutation_refl.
  - destruct (addToLine_groups groups rect Hg) as [H1 H2].
    destruct (IH _ H1) as [I1 I2]. split; [exact I1 |].
    eapply perm_trans; [exact I2 |].
    eapply perm_trans; [apply Permutation_app_tail, H2 |].
    cbn [app]. apply Permutation_middle.
Qed.


(** *** The per-page maps *)

(** [Map.prototype.get]. *)
Fixpoint mapGet (m : PageMap) (page : Z) : option (list HighlightRect) :=
  match m with
  | [] => None
  | (page', rects) :: m' =>
      if (page' =? page)%Z then Some rects else mapGet m' page
  end.

Definition orEmpty (l : option (list HighlightRect)) : list HighlightRect :=
  match l with Some rects => rects | None => [] end.

Lemma mapPush_get (m : PageMap) (page : Z) (rect : HighlightRect) :
  mapGet (mapPush m page rect) page = Some (orEmpty (mapGet m page) ++ [rect]).
Proof.
  induction m as [|[page' rects'] m IH]; cbn [mapPush mapGet].
  - rewrite Z.eqb_refl. reflexivity.
  - destruct (page' =? page)%Z eqn:E; cbn [mapGet]; rewrite E.
    + reflexivity.
    + exact IH.
Qed.

Lemma mapPush_get_other (m : PageMap) (page other : Z)
    (rect : HighlightRect) :
  other <> page -> mapGet (mapPush m page rect) other = mapGet m other.
Proof.
  intro Hne. induction m as [|[page' rects'] m IH]; cbn [mapPush mapGet].
  - destruct (Z.eqb_spec page other); [congruence | reflexivity].
  - destruct (page' =? page)%Z eqn:E; cbn [mapGet].
    + apply Z.eqb_eq in E. subst page'.
      destruct (Z.eqb_spec page other); [congruence | reflexivity].
    + rewrite IH. reflexivity.
Qed.

Lemma mapPush_keys (m : PageMap) (page : Z) (rect : HighlightRect) :
  map fst (mapPush m page rect)
  = match mapGet m page with
    | Some _ => map fst m
    | None => map fst m ++ [page]
    end.
Proof.
  induction m as [|[page' rects'] m IH]; cbn [mapPush mapGet map fst].
  - reflexivity.
  - destruct (page' =? page)%Z eqn:E; cbn [map fst].
    + reflexivity.
    + rewrite IH. destruct (mapGet m page); reflexivity.
Qed.

Lemma mapGet_none (m : PageMap) (page : Z) :
  mapGet m page = None -> ~ In page (map fst m).
Proof.
  induction m as [|[page' rects'] m IH]; cbn [mapGet map fst]; [tauto |].
  destruct (Z.eqb_spec page' page); [discriminate |].
  intros H [K | K]; [congruence | apply (IH H K)].
Qed.

(** Pushing a rect under a page: the list under that page gains the rect
    at its end (and starts with it if the page was absent), the lists of
    the other pages are as before, and the pages keep their order, a new
    page coming last, without duplicate. *)
Theorem mapPush_lookup (m : PageMap) (page : Z) (rect : HighlightRect) :
  mapGet (mapPush m page rect) page
    = Some (orEmpty (mapGet m page) ++ [rect]) /\
  (forall other, other <> page ->
     mapGet (mapPush m page rect) other = mapGet m other) /\
  map fst (mapPush m page rect)
    = match mapGet m page with
      | Some _ => map fst m
      | None => map fst m ++ [page]
      end /\
  (NoDup (map fst m) -> NoDup (map fst (mapPush m page rect))).
Proof.
  split; [apply mapPush_get |]. split; [intros; now apply mapPush_get_other |].
  split; [apply mapPush_keys |].
  intro Hn. rewrite mapPush_keys.
  destruct (mapGet m page) eqn:E; [exact Hn |].
  apply NoDup_app; [exact Hn | repeat constructor; intros [] |].
  intros x Hx [<- | []]. apply (mapGet_none m page E Hx).
Qed.

Lemma mapPush_lookup_witness :
  NoDup (map fst (mapPush [(2%Z, [scenarioFirst])] 1 scenarioNear)).
Proof.
  apply (mapPush_lookup [(2%Z, [scenarioFirst])] 1 scenarioNear).
  cbn. repeat constructor. intros [].
Defined.

(** *** [isSuperOrSubScript] *)

Definition hasScriptClass (el : Element) : bool :=
  match className el with
  | Some classes =>
      existsb (includes classes)
              ["superscript"; "subscript"; "sup"; "sub"]%string
  | None => false
  end.

(** [isSuperOrSubScript] holds of every [sup] and [sub] element and of
    every element with a class name containing [sup] or [sub].  Of any
    other element it holds only if the element is less than 6 high and
    less than 15 wide, its text is one or two word characters, and it has
    a parent more than twice as high; no element is classified without an
    element at all. *)
Theorem isSuperOrSubScript_conservative (el : Element) :
  isSuperOrSubScript None = false /\
  (tagName el = "sup"%string \/ tagName el = "sub"%string ->
   isSuperOrSubScript (Some el) = true) /\
  (forall classes, className el = Some classes ->
     includes classes "sup" = true \/ includes classes "sub" = true ->
     isSuperOrSubScript (Some el) = true) /\
  (tagName el <> "sup"%string -> tagName el <> "sub"%string ->
   hasScriptClass el = false ->
   isSuperOrSubScript (Some el) = true ->
   rectHeight (boundingClientRect el) < 6 /\
   rectWidth (boundingClientRect el) < 15 /\
   (1 <= String.length (textContent el) <= 2)%nat /\
   exists parent, parentRect el = Some parent /\
     rectHeight (boundingClientRect el) * 2 < rectHeight parent).
Proof.
  split; [reflexivity |]. split; [| split].
  - intros [E | E]; cbn [isSuperOrSubScript]; rewrite E; reflexivity.
  - intros classes Hc Hi. cbn [isSuperOrSubScript].
    destruct (_ || _); [reflexivity |]. rewrite Hc.
    cbn [existsb]. destruct Hi as [-> | ->];
      rewrite ?orb_true_r; reflexivity.
  - intros H1 H2 Hcls. cbn [isSuperOrSubScript].
    destruct (String.eqb_spec (tagName el) "sup"); [contradiction |].
    destruct (String.eqb_spec (tagName el) "sub"); [contradiction |].
    cbn [orb]. unfold hasScriptClass in Hcls. rewrite Hcls.
    destruct (Qltb (rectHeight _) 6) eqn:Eh; [| discriminate].
    destruct (Qltb (rectWidth _) 15) eqn:Ew; [| discriminate].
    cbn [andb].
    destruct (String.length (textContent el) <=? 2)%nat eqn:El;
      [| discriminate].
    destruct (isShortReference (textContent el)) eqn:Es; [| discriminate].
    cbn [andb].
    destruct (parentRect el) as [parent|]; [| discriminate].
    destruct (Qltb (rectHeight (boundingClientRect el) * 2) _) eqn:Ep;
      [| discriminate].
    intros _. apply Qltb_true in Eh, Ew, Ep. apply Nat.leb_le in El.
    split; [exact Eh |]. split; [exact Ew |]. split.
    + destruct (textContent el); [discriminate | cbn in *; lia].
    + exists parent. split; [reflexivity | exact Ep].
Qed.

Lemma isSuperOrSubScript_conservative_witness :
  isSuperOrSubScript
    (Some (mkElement "span"%string (Some "note support"%string)
             (mkDOMRect 0 0 40 12) "text"%string None None)) = true.
Proof.
  apply (isSuperOrSubScript_conservative
           (mkElement "span"%string (Some "note support"%string)
              (mkDOMRect 0 0 40 12) "text"%string None None))
    with (classes := "note support"%string).
  - reflexivity.
  - left. reflexivity.
Defined.

End SelectionFacts.

(** ** The detail canvas of [useDetailCanvasLayer] *)

Module DetailCanvasFacts.

Import Reals Lra.
Import DetailCanvas.
Local Open Scope R_scope.

(** *** Further properties of [clampScaleForPage] *)

Lemma clamp_limits_nonneg (w h : R) :
  0 <= sqrt (MAX_CANVAS_PIXELS / Rmax (w * h) 1) /\
  0 <= MAX_CANVAS_DIMENSION / Rmax w 1 /\
  0 <= MAX_CANVAS_DIMENSION / Rmax h 1.
Proof.
  split; [apply sqrt_pos |].
  unfold MAX_CANVAS_DIMENSION.
  destruct (Rmax_one_pos w) as [Hw _]. destruct (Rmax_one_pos h) as [Hh _].
  split; (apply Rmult_le_pos; [lra |]; left; apply Rinv_0_lt_compat; lra).
Qed.

Lemma clampScaleForPage_nonzero (s w h : R) :
  s <> 0 ->
  clampScaleForPage s w h
  = Rmax (Rmin s (Rmin (sqrt (MAX_CANVAS_PIXELS / Rmax (w * h) 1))
                       (Rmin (MAX_CANVAS_DIMENSION / Rmax w 1)
                             (MAX_CANVAS_DIMENSION / Rmax h 1)))) 0.
Proof.
  intro H. unfold clampScaleForPage.
  destruct (Req_dec_T s 0); [contradiction | reflexivity].
Qed.

Lemma clampScaleForPage_zero (w h : R) : clampScaleForPage 0 w h = 0.
Proof.
  unfold clampScaleForPage. destruct (Req_dec_T 0 0); [reflexivity | lra].
Qed.

(** [clampScaleForPage] never returns a negative scale (a request of 0 or
    less gives 0), it grows with the request, and clamping a clamped scale
    changes nothing. *)
Theorem clampScaleForPage_stable (s t w h : R) :
  0 <= clampScaleForPage s w h /\
  (s <= 0 -> clampScaleForPage s w h = 0) /\
  (s <= t -> clampScaleForPage s w h <= clampScaleForPage t w h) /\
  clampScaleForPage (clampScaleForPage s w h) w h = clampScaleForPage s w h.
Proof.
  destruct (clamp_limits_nonneg w h) as (Ha & Hw & Hh).
  assert (Hform : forall x,
            clampScaleForPage x w h
            = Rmax (Rmin x (Rmin (sqrt (MAX_CANVAS_PIXELS / Rmax (w * h) 1))
                                 (Rmin (MAX_CANVAS_DIMENSION / Rmax w 1)
                                       (MAX_CANVAS_DIMENSION / Rmax h 1)))) 0).
  { intro x. destruct (Req_dec_T x 0) as [-> | Hx].
    - rewrite clampScaleForPage_zero.
      rewrite Rmin_left; [rewrite Rmax_left; lra |].
      repeat apply Rmin_glb; assumption.
    - apply clampScaleForPage_nonzero, Hx. }
  set (a := sqrt _) in *. set (wl := _ / Rmax w 1) in *.
  set (hl := _ / Rmax h 1) in *.
  set (lim := Rmin a (Rmin wl hl)) in *.
  assert (Hlim : 0 <= lim) by (unfold lim; repeat apply Rmin_glb; assumption).
  rewrite !Hform.
  assert (Hcase : forall x, (x <= 0 /\ Rmax (Rmin x lim) 0 = 0) \/
                            (0 <= x /\ Rmax (Rmin x lim) 0 = Rmin x lim)).
  { intro x. destruct (Rle_dec x 0) as [Hx | Hx].
    - left. split; [exact Hx |]. apply Rmax_right.
      pose proof (Rmin_l x lim). lra.
    - right. split; [lra |]. apply Rmax_left. apply Rmin_glb; lra. }
  split; [apply Rmax_r |]. split; [| split].
  - intro Hs. destruct (Hcase s) as [[_ E] | [H0 E]]; [exact E |].
    rewrite E. assert (s = 0) by lra. subst s. apply Rmin_left, Hlim.
  - intro Hst. apply Rle_max_compat_r. apply Rle_min_compat_r, Hst.
  - destruct (Hcase s) as [[_ E] | [H0 E]]; rewrite E.
    + rewrite Rmin_left by exact Hlim. apply Rmax_left. lra.
    + rewrite (Rmin_left (Rmin s lim) lim) by apply Rmin_r.
      apply Rmax_left. apply Rmin_glb; lra.
Qed.

Lemma clampScaleForPage_stable_witness :
  clampScaleForPage 2 1000 1000 <= clampScaleForPage 6 1000 1000.
Proof. apply (clampScaleForPage_stable 2 6 1000 1000). lra. Defined.

(** *** The layout effect

    What the effect reads: the debounced zoom, the device pixel ratio, the
    size of the page at scale 1, the scroll offsets and client size of the
    scroll container, and the left and top of the bounding client rects of
    the page container and of the scroll container. *)
Record DetailInput : Type := mkDetailInput {
  zoom : R;
  dpr : R;
  pageWidth : R;
  pageHeight : R;
  scrollLeft : R;
  scrollTop : R;
  clientWidth : R;
  clientHeight : R;
  pageRectLeft : R;
  pageRectTop : R;
  containerRectLeft : R;
  containerRectTop : R
}.

Definition Rltb (a b : R) : bool := if Rlt_dec a b then true else false.
Definition Rleb (a b : R) : bool := if Rle_dec a b then true else false.

Section Effect.
Variable i : DetailInput.

Definition scrollX : R := scrollLeft i / zoom i.
Definition scrollY : R := scrollTop i / zoom i.
Definition viewportWidth : R := clientWidth i / zoom i.
Definition viewportHeight : R := clientHeight i / zoom i.
Definition pageLeft : R :=
  (pageRectLeft i - containerRectLeft i) / zoom i + scrollX.
Definition pageTop : R :=
  (pageRectTop i - containerRectTop i) / zoom i + scrollY.

Definition visibleLeft : R := Rmax 0 (scrollX - pageLeft).
Definition visibleTop : R := Rmax 0 (scrollY - pageTop).
Definition visibleRight : R :=
  Rmin (pageWidth i) (scrollX + viewportWidth - pageLeft).
Definition visibleBottom : R :=
  Rmin (pageHeight i) (scrollY + viewportHeight - pageTop).
Definition visibleWidth : R := Rmax 0 (visibleRight - visibleLeft).
Definition visibleHeight : R := Rmax 0 (visibleBottom - visibleTop).

Definition targetDetailScale : R := dpr i * zoom i * (13 / 10).
Definition baseTargetScale : R := dpr i * Rmin (zoom i) 1.
Definition baseScale : R :=
  clampScaleForPage baseTargetScale (pageWidth i) (pageHeight i).
Definition needsDetail : bool :=
  Rltb 1 (zoom i) && Rltb (1 / 1000) (targetDetailScale - baseScale).
End Effect.

(** The detail canvas when it is displayed: the size of its pixel buffer,
    its CSS size, the translation of its style, and the offsets of the
    render transform. *)
Record DetailTile : Type := mkDetailTile {
  canvasWidth : R;
  canvasHeight : R;
  styleWidth : R;
  styleHeight : R;
  translateX : R;
  translateY : R;
  offsetX : R;
  offsetY : R
}.

(** [None]: the canvas is hidden ([display: none], width and height 0). *)
Definition detailCanvas (i : DetailInput) : option DetailTile :=
  if negb (needsDetail i) || Rleb (visibleWidth i) 0
     || Rleb (visibleHeight i) 0
  then None
  else
    let effectiveScale := targetDetailScale i in
    Some {| canvasWidth := visibleWidth i * targetDetailScale i;
            canvasHeight := visibleHeight i * targetDetailScale i;
            styleWidth := visibleWidth i * zoom i;
            styleHeight := visibleHeight i * zoom i;
            translateX := visibleLeft i * zoom i;
            translateY := visibleTop i * zoom i;
            offsetX := - visibleLeft i * effectiveScale;
            offsetY := - visibleTop i * effectiveScale |}.

Lemma Rltb_true (a b : R) : Rltb a b = true <-> a < b.
Proof. unfold Rltb. destruct (Rlt_dec a b); split; congruence || tauto. Qed.

Lemma Rleb_false (a b : R) : Rleb a b = false <-> b < a.
Proof.
  unfold Rleb. destruct (Rle_dec a b); split; try congruence; lra.
Qed.

Lemma Rleb_true (a b : R) : Rleb a b = true <-> a <= b.
Proof. unfold Rleb. destruct (Rle_dec a b); split; congruence || tauto. Qed.

Lemma needsDetail_above_one (i : DetailInput) :
  1 < zoom i -> 1 / 100 <= dpr i -> needsDetail i = true.
Proof.
  intros Hz Hd. unfold needsDetail. apply andb_true_intro. split.
  - apply Rltb_true, Hz.
  - apply Rltb_true. unfold baseScale, baseTargetScale, targetDetailScale.
    rewrite Rmin_right by lra. rewrite Rmult_1_r.
    destruct (clampScaleForPage_bounds (dpr i) (pageWidth i) (pageHeight i))
      as (_ & Hle & _); [lra |].
    cbv zeta in Hle. nra.
Qed.

Lemma detailCanvas_displayed (i : DetailInput) :
  detailCanvas i <> None <->
  needsDetail i = true /\ 0 < visibleWidth i /\ 0 < visibleHeight i.
Proof.
  unfold detailCanvas.
  destruct (needsDetail i); cbn [negb orb].
  - destruct (Rleb (visibleWidth i) 0) eqn:Ew; cbn [orb].
    + apply Rleb_true in Ew. split; [congruence | lra].
    + destruct (Rleb (visibleHeight i) 0) eqn:Eh.
      * apply Rleb_true in Eh. split; [congruence | lra].
      * apply Rleb_false in Ew, Eh. split; [tauto | discriminate].
  - split; [congruence | intros [K _]; discriminate].
Qed.



End DetailCanvasFacts.

(** ** Further properties of the render operations *)

Module RenderFacts.

Import Render.

(** The committed operations are exactly the fulfilled ones, latest first. *)
Record ledger (s : Surface) : Prop := {
  ledger_order : StronglySorted (fun later earlier => (earlier < later)%nat)
                                (committed s);
  ledger_fulfilled : forall id,
      In id (committed s) <->
      nth_error (tasks s) id = Some (Settled Fulfilled)
}.

Lemma setStatus_rejected_fulfilled (l : list TaskStatus) id name i :
  nth_error l id = Some Pending ->
  (nth_error (setStatus l id (Settled (Rejected name))) i
     = Some (Settled Fulfilled)
   <-> nth_error l i = Some (Settled Fulfilled)).
Proof.
  intro Hp. destruct (Nat.eq_dec i id) as [-> | Hne].
  - rewrite setStatus_same by (apply nth_error_Some; congruence).
    rewrite Hp. split; discriminate.
  - rewrite setStatus_other by exact Hne. tauto.
Qed.

Lemma cancel_fulfilled (s : Surface) (id i : nat) :
  nth_error (tasks (cancel id s)) i = Some (Settled Fulfilled)
  <-> nth_error (tasks s) i = Some (Settled Fulfilled).
Proof.
  unfold cancel. destruct (isPending s id) eqn:E; [| tauto].
  apply isPending_true in E. cbn [reject tasks].
  apply setStatus_rejected_fulfilled, E.
Qed.

Lemma runCleanup_fulfilled (s : Surface) (i : nat) :
  nth_error (tasks (runCleanup s)) i = Some (Settled Fulfilled)
  <-> nth_error (tasks s) i = Some (Settled Fulfilled).
Proof.
  unfold runCleanup. cbn [tasks].
  destruct (cleanup s) as [id|]; [apply cancel_fulfilled | tauto].
Qed.

Lemma step_ledger (s : Surface) (e : Event) :
  exclusive s -> ledger s -> ledger (step s e).
Proof.
  intros Hex [Ho Hf].
  destruct (runCleanup_facts s) as (_ & Hc & _ & _).
  destruct e as [[|] | | id | id errorName]; cbn [step runEffect].
  - constructor; cbn [committed tasks].
    + rewrite Hc. exact Ho.
    + intro id. rewrite Hc, Hf, <- runCleanup_fulfilled. split; intro H.
      * rewrite nth_error_app1; [exact H |]. apply nth_error_Some. congruence.
      * destruct (Nat.lt_ge_cases id (length (tasks (runCleanup s))))
          as [L | G].
        -- rewrite nth_error_app1 in H by exact L. exact H.
        -- rewrite nth_error_app2 in H by exact G.
           destruct (id - length (tasks (runCleanup s)))%nat as [|[|k]];
             discriminate.
  - constructor.
    + rewrite Hc. exact Ho.
    + intro id. rewrite Hc, Hf. symmetry. apply runCleanup_fulfilled.
  - constructor.
    + rewrite Hc. exact Ho.
    + intro id. rewrite Hc, Hf. symmetry. apply runCleanup_fulfilled.
  - destruct (isPending s id) eqn:Ep; [| constructor; assumption].
    apply isPending_true in Ep.
    assert (Hlast : S id = length (tasks s)).
    { apply (registered_is_latest _ Hex), (pending_is_registered _ Hex), Ep. }
    constructor; cbn [committed tasks].
    + constructor; [exact Ho |]. apply Forall_forall. intros j Hj.
      apply Hf in Hj.
      assert ((j < length (tasks s))%nat)
        by (apply nth_error_Some; congruence).
      assert (j <> id) by congruence. lia.
    + intro j. destruct (Nat.eq_dec j id) as [-> | Hne].
      * rewrite setStatus_same by lia. split; [reflexivity | now left].
      * rewrite setStatus_other by exact Hne. rewrite <- Hf.
        split; [intros [K | K]; [congruence | exact K] | now right].
  - destruct (isPending s id) eqn:Ep; [| constructor; assumption].
    apply isPending_true in Ep. constructor; cbn [reject committed tasks].
    + exact Ho.
    + intro j. rewrite Hf. symmetry.
      apply setStatus_rejected_fulfilled, Ep.
Qed.

Lemma run_ledger (events : list Event) : ledger (run events).
Proof.
  unfold run. induction events as [|e events IH] using rev_ind.
  - constructor; cbn.
    + constructor.
    + intro id. split; [intros [] | destruct id; discriminate].
  - rewrite fold_left_app. cbn [fold_left].
    apply step_ledger; [apply (run_exclusive events) | exact IH].
Qed.

(** In every history of a surface the operations whose output is on the
    canvas are exactly the fulfilled ones, each committed once, in the
    order in which they were issued; an operation that was cancelled or
    that failed is never among them. *)
Theorem commits_follow_issue_order (events : list Event) :
  let s := run events in
  StronglySorted (fun later earlier => (earlier < later)%nat) (committed s) /\
  NoDup (committed s) /\
  (forall id, In id (committed s) <->
              nth_error (tasks s) id = Some (Settled Fulfilled)) /\
  (forall id errorName,
     nth_error (tasks s) id = Some (Settled (Rejected errorName)) ->
     ~ In id (committed s)).
Proof.
  cbv zeta. destruct (run_ledger events) as [Ho Hf].
  split; [exact Ho |]. split; [| split; [exact Hf |]].
  - clear Hf. induction Ho as [|a l Hs IH Ha]; constructor; [| exact IH].
    intro Hin. rewrite Forall_forall in Ha. specialize (Ha a Hin). lia.
  - intros id errorName Hr Hin. apply Hf in Hin. congruence.
Qed.

End RenderFacts.

(** ** Further properties of the store and of the comment handlers *)

Module StoreFacts.

Import Store.
Open Scope string_scope.
Open Scope list_scope.

(** *** Adding and deleting *)

Lemma deleteAnnotation_app (target : string) (l1 l2 : list Annotation) :
  deleteAnnotation target (l1 ++ l2)
  = deleteAnnotation target l1 ++ deleteAnnotation target l2.
Proof. unfold deleteAnnotation. apply filter_app. Qed.

(** Deleting by id undoes the addition of an annotation with a fresh id;
    after a delete no annotation has the id, and every other annotation is
    still there; deleting twice is deleting once, and deletes of two ids
    can be done in either order. *)
Theorem add_then_delete (a : Annotation) (annotations : list Annotation)
    (target other : string) :
  ((forall x, In x annotations -> id x <> id a) ->
   deleteAnnotation (id a) (addAnnotation a annotations) = annotations) /\
  (forall x, In x (deleteAnnotation target annotations) <->
             In x annotations /\ id x <> target) /\
  deleteAnnotation target (deleteAnnotation target annotations)
    = deleteAnnotation target annotations /\
  deleteAnnotation target (deleteAnnotation other annotations)
    = deleteAnnotation other (deleteAnnotation target annotations).
Proof.
  split; [| split; [| split]].
  - intro Hfresh. unfold addAnnotation. rewrite deleteAnnotation_app.
    rewrite (deleteAnnotation_absent (id a) annotations Hfresh).
    unfold deleteAnnotation. cbn. rewrite String.eqb_refl. cbn.
    apply app_nil_r.
  - intro x. apply deleteAnnotation_removes.
  - apply deleteAnnotation_absent. intros x Hx.
    apply deleteAnnotation_removes in Hx. tauto.
  - unfold deleteAnnotation.
    induction annotations as [|x l IH]; [reflexivity |]. cbn [filter].
    destruct (String.eqb (id x) other) eqn:Eo,
             (String.eqb (id x) target) eqn:Et; cbn [negb filter];
      rewrite ?Eo, ?Et; cbn [negb]; rewrite IH; reflexivity.
Qed.

Lemma add_then_delete_witness :
  deleteAnnotation "n" (addAnnotation (plainNote "n") [plainNote "a"])
  = [plainNote "a"].
Proof.
  apply (proj1 (add_then_delete (plainNote "n") [plainNote "a"] "n" "n")).
  intros x [<- | []]. discriminate.
Defined.

(** *** Updating *)

(** The spread [{ ...first, ...second }] of two updates. *)
Definition mergeUpdates (first second : AnnotationUpdates)
  : AnnotationUpdates :=
  {| newId := overrideOptional (newId first) (newId second);
     newPageNumber :=
       overrideOptional (newPageNumber first) (newPageNumber second);
     newHighlights :=
       overrideOptional (newHighlights first) (newHighlights second);
     newUnderlines :=
       overrideOptional (newUnderlines first) (newUnderlines second);
     newColor := overrideOptional (newColor first) (newColor second);
     newBorderColor :=
       overrideOptional (newBorderColor first) (newBorderColor second);
     newComment := overrideOptional (newComment first) (newComment second);
     newCreatedAt :=
       overrideOptional (newCreatedAt first) (newCreatedAt second);
     newUpdatedAt :=
       overrideOptional (newUpdatedAt first) (newUpdatedAt second);
     newMetadata := overrideOptional (newMetadata first) (newMetadata second);
     newIsCommentPending :=
       overrideOptional (newIsCommentPending first)
                        (newIsCommentPending second) |}.

Lemma override_twice {A} (x : A) (first second : option A) :
  override (override x first) second
  = override x (overrideOptional first second).
Proof. destruct first, second; reflexivity. Qed.

Lemma overrideOptional_twice {A} (x first second : option A) :
  overrideOptional (overrideOptional x first) second
  = overrideOptional x (overrideOptional first second).
Proof. destruct first, second; reflexivity. Qed.

Lemma spread_spread (a : Annotation) (first second : AnnotationUpdates) :
  spread (spread a first) second = spread a (mergeUpdates first second).
Proof.
  unfold spread, mergeUpdates.
  cbn [id pageNumber highlights underlines color borderColor comment
       createdAt updatedAt metadata isCommentPending
       newId newPageNumber newHighlights newUnderlines newColor
       newBorderColor newComment newCreatedAt newUpdatedAt newMetadata
       newIsCommentPending].
  rewrite !override_twice, !overrideOptional_twice. reflexivity.
Qed.

Lemma spread_id (a : Annotation) (updates : AnnotationUpdates) :
  newId updates = None -> id (spread a updates) = id a.
Proof. intro H. cbn. rewrite H. reflexivity. Qed.

(** An update that carries no [id] keeps the ids of the store, in order;
    two such updates of the same annotation compose into the update by
    their spread; and the empty update changes nothing. *)
Theorem updates_compose (target : string) (first second : AnnotationUpdates)
    (annotations : list Annotation) :
  (newId first = None ->
   map id (updateAnnotation target first annotations) = map id annotations) /\
  (newId first = None ->
   updateAnnotation target second (updateAnnotation target first annotations)
   = updateAnnotation target (mergeUpdates first second) annotations) /\
  updateAnnotation target noUpdates annotations = annotations.
Proof.
  split; [| split].
  - intro H. unfold updateAnnotation. rewrite map_map.
    apply map_ext. intro a.
    destruct (String.eqb (id a) target); [apply spread_id, H | reflexivity].
  - intro H. unfold updateAnnotation. rewrite map_map.
    apply map_ext. intro a.
    destruct (String.eqb (id a) target) eqn:E.
    + rewrite (spread_id a first H), E. apply spread_spread.
    + rewrite E. reflexivity.
  - unfold updateAnnotation. rewrite <- (map_id annotations) at 2.
    apply map_ext. intro a.
    destruct (String.eqb (id a) target); [| reflexivity].
    destruct a; reflexivity.
Qed.

Lemma updates_compose_witness :
  updateAnnotation "a" (commentUpdates "second" 2)
    (updateAnnotation "a" (commentUpdates "first" 1) [plainNote "a"])
  = updateAnnotation "a"
      (mergeUpdates (commentUpdates "first" 1) (commentUpdates "second" 2))
      [plainNote "a"].
Proof.
  apply (proj1 (proj2 (updates_compose "a" (commentUpdates "first" 1)
                         (commentUpdates "second" 2) [plainNote "a"]))).
  reflexivity.
Defined.

(** *** Creating annotations from a selection *)

(** [handleCreateAnnotation], given the extracted selection, the fresh id
    and the current time. *)
Definition handleCreateAnnotation
    (selection : option SelectionDimensions.CollapsibleSelection)
    (newAnnotationId : string) (now : Z) (v : Viewer) : Viewer :=
  match selection with
  | None => v
  | Some selection =>
      match SelectionDimensions.highlights selection with
      | [] => v
      | first :: _ =>
          let newAnnotation :=
            {| pageNumber := Geometry.pageNumber first;
               highlights := SelectionDimensions.highlights selection;
               underlines := Some (SelectionDimensions.underlines selection);
               color := "rgba(255, 213, 0, 0.3)";
               borderColor := "rgba(255, 213, 0, 0.8)";
               comment := None;
               id := newAnnotationId;
               createdAt := now;
               updatedAt := now;
               metadata := None;
               isCommentPending := None |} in
          {| annotations := addAnnotation newAnnotation (annotations v);
             editingAnnotationId := editingAnnotationId v;
             pendingSelection := pendingSelection v |}
      end
  end.


Definition twoPageSelection : SelectionDimensions.CollapsibleSelection :=
  Eval vm_compute in
    match SelectionDimensions.getAnnotationDimension
            SelectionFacts.twoPageDocument with
    | Returned (Some sel) => sel
    | _ => SelectionDimensions.mkCollapsibleSelection [] [] "" false
    end.


(** *** Starting and abandoning a comment *)

Lemma find_fresh (target : string) (l : list Annotation) (a : Annotation) :
  (forall x, In x l -> id x <> target) -> id a = target ->
  find (fun x => String.eqb (id x) target) (l ++ [a]) = Some a.
Proof.
  intros Hfresh Ha. induction l as [|x l IH]; cbn [app find].
  - rewrite Ha, String.eqb_refl. reflexivity.
  - destruct (String.eqb_spec (id x) target) as [E | _].
    + exfalso. apply (Hfresh x); [now left | exact E].
    + apply IH. intros y Hy. apply Hfresh. now right.
Qed.

(** Starting a comment on a selection with highlights and cancelling the
    composer leaves the store as it was, provided the id given to the
    pending annotation is not empty and not yet in the store; the composer
    is closed. *)
Theorem create_comment_then_cancel
    (sel : SelectionDimensions.CollapsibleSelection)
    (newAnnotationId : string) (now : Z) (v : Viewer) :
  SelectionDimensions.highlights sel <> [] ->
  newAnnotationId <> "" ->
  (forall x, In x (annotations v) -> id x <> newAnnotationId) ->
  handleCancelComment (handleCreateComment (Some sel) newAnnotationId now v)
  = mkViewer (annotations v) None None.
Proof.
  intros Hh Hid Hfresh. unfold handleCreateComment.
  destruct (SelectionDimensions.highlights sel) as [|first rest];
    [congruence |].
  unfold handleCancelComment.
  cbn [editingAnnotationId annotations truthy].
  destruct (String.eqb_spec newAnnotationId "") as [E | _];
    [contradiction |].
  cbn [negb]. unfold addAnnotation.
  rewrite (find_fresh newAnnotationId (annotations v)) by (auto; reflexivity).
  cbn [comment truthy negb]. unfold closeComposer. f_equal.
  rewrite deleteAnnotation_app, (deleteAnnotation_absent _ _ Hfresh).
  unfold deleteAnnotation. cbn. rewrite String.eqb_refl. cbn.
  apply app_nil_r.
Qed.

Lemma create_comment_then_cancel_witness :
  handleCancelComment
    (handleCreateComment (Some twoPageSelection) "n" 5
       (mkViewer [plainNote "a"] None None))
  = mkViewer [plainNote "a"] None None.
Proof.
  apply (create_comment_then_cancel twoPageSelection "n" 5
           (mkViewer [plainNote "a"] None None)).
  - discriminate.
  - discriminate.
  - intros x [<- | []]. discriminate.
Defined.

(** *** The two ways of closing a composer *)

(** [handleAnnotationTooltipClose] never deletes an annotation that is not
    comment-pending.  [handleCancelComment] does not look at the flag: it
    deletes the annotation being edited whenever that annotation has no
    comment, and it deletes nothing when no annotation is being edited. *)
Theorem closing_without_pending_flag (v : Viewer) (a : Annotation) :
  (isCommentPending a <> Some true ->
   annotations (handleAnnotationTooltipClose a v) = annotations v) /\
  (editingAnnotationId v = Some (id a) -> id a <> "" ->
   find (fun x => String.eqb (id x) (id a)) (annotations v) = Some a ->
   truthy (comment a) = false ->
   annotations (handleCancelComment v)
   = deleteAnnotation (id a) (annotations v)) /\
  (editingAnnotationId v = None ->
   annotations (handleCancelComment v) = annotations v).
Proof.
  split; [| split].
  - intro H. unfold handleAnnotationTooltipClose.
    destruct (isCommentPending a) as [[|]|]; try reflexivity. congruence.
  - intros He Hid Hf Hc. unfold handleCancelComment. rewrite He.
    cbn [truthy]. destruct (String.eqb_spec (id a) ""); [contradiction |].
    cbn [negb]. rewrite Hf, Hc. reflexivity.
  - intro He. unfold handleCancelComment. rewrite He. reflexivity.
Qed.

Lemma closing_without_pending_flag_witness :
  annotations
    (handleCancelComment (mkViewer [plainNote "a"; plainNote "b"]
                                   (Some "a") None))
  = [plainNote "b"].
Proof.
  apply (proj1 (proj2 (closing_without_pending_flag
                         (mkViewer [plainNote "a"; plainNote "b"]
                                   (Some "a") None)
                         (plainNote "a"))));
    try reflexivity. discriminate.
Defined.

(** *** Saving a comment *)

Fixpoint isBlank (s : string) : bool :=
  match s with
  | EmptyString => true
  | String c s' => SelectionDimensions.isWhiteSpace c && isBlank s'
  end.

Lemma trim_blank (s : string) :
  isBlank s = true -> SelectionDimensions.trim s = "".
Proof.
  unfold SelectionDimensions.trim. induction s as [|c s IH]; cbn.
  - reflexivity.
  - intro H. apply andb_prop in H. destruct H as [Hc Hs].
    rewrite Hc. apply IH, Hs.
Qed.

(** Saving from the composer: a blank comment is not saved, and neither is
    any comment while no composer is open.  With the composer open on
    [target], the comment is set on the annotations with that id, with the
    time of the save, while the id, the creation time and the highlights
    stay; the other annotations and the order of the store are kept, the
    composer is closed, and a cancel that follows deletes nothing. *)
Theorem saving_a_comment (v : Viewer) (comment' : string) (now : Z) :
  (isBlank comment' = true -> composerSave comment' now v = v) /\
  (pendingSelection v = None \/ editingAnnotationId v = None ->
   handleSaveComment comment' now v = v) /\
  (forall target pending,
     pendingSelection v = Some pending ->
     editingAnnotationId v = Some target -> target <> "" ->
     let v' := handleSaveComment comment' now v in
     editingAnnotationId v' = None /\ pendingSelection v' = None /\
     length (annotations v') = length (annotations v) /\
     (forall k x, nth_error (annotations v) k = Some x ->
        exists y, nth_error (annotations v') k = Some y /\
          id y = id x /\ createdAt y = createdAt x /\
          highlights y = highlights x /\
          (id x <> target -> y = x) /\
          (id x = target ->
           comment y = Some comment' /\ updatedAt y = now)) /\
     annotations (handleCancelComment v') = annotations v').
Proof.
  split; [| split].
  - intro Hb. unfold composerSave. rewrite (trim_blank _ Hb). reflexivity.
  - unfold handleSaveComment.
    intros [-> | H]; [reflexivity |]. rewrite H.
    destruct (pendingSelection v); reflexivity.
  - intros target pending Hp He Ht v'.
    assert (Ev : v' = closeComposer
                        (updateAnnotation target (commentUpdates comment' now)
                                          (annotations v))).
    { unfold v', handleSaveComment. rewrite Hp, He. cbn [truthy].
      destruct (String.eqb_spec target ""); [contradiction | reflexivity]. }
    rewrite Ev. cbn [closeComposer editingAnnotationId pendingSelection
                     annotations].
    split; [reflexivity |]. split; [reflexivity |].
    split; [apply length_map |]. split; [| reflexivity].
    intros k x Hk. rewrite updateAnnotation_nth, Hk. cbn [option_map].
    eexists. split; [reflexivity |].
    destruct (String.eqb_spec (id x) target) as [E | E].
    + split; [reflexivity |]. split; [reflexivity |].
      split; [reflexivity |]. split; [intro K; contradiction |].
      intros _. split; reflexivity.
    + split; [reflexivity |]. split; [reflexivity |].
      split; [reflexivity |]. split; [reflexivity |].
      intro K. contradiction.
Qed.

Lemma saving_a_comment_witness :
  composerSave "   " 9 Store.composing = Store.composing /\
  annotations (handleSaveComment "fine" 9 Store.composing)
  = [plainNote "a"; spread Store.pendingNote (commentUpdates "fine" 9)].
Proof.
  split.
  - apply (proj1 (saving_a_comment Store.composing "   " 9)). reflexivity.
  - reflexivity.
Defined.

End StoreFacts.

(** ** The text selection manager of [useTextLayer]

    [createTextSelectionManager] keeps one registry for all pages: the map
    [textLayers] from the text layer of a page to its end-of-content
    marker, and the flags [isPointerDown], [prevRange] and [isFirefox].
    Text layers are named by numbers.  Of the document the model keeps what
    the manager changes: the class [selecting] and the property
    [_textSelectionBound] of each text layer, and of each registered marker
    whether its parent is its text layer and where its size was copied
    from. *)

Module TextSelection.

Record Marker : Type := mkMarker {
  atHome : bool;             (* [endDiv.parentNode === textLayer] *)
  sizedFrom : option nat     (* the layer whose style width and height it
                                has; [None]: both are empty *)
}.

Record Manager : Type := mkManager {
  textLayers : list (nat * Marker);   (* in insertion order *)
  listening : bool;                   (* [selectionChangeAbortController] *)
  isPointerDown : bool;
  prevRange : bool;                   (* whether [prevRange] is set *)
  isFirefox : option bool;
  selecting : nat -> bool;            (* [classList] has [selecting] *)
  bound : nat -> bool                 (* [_textSelectionBound] *)
}.

Definition created : Manager :=
  mkManager [] false false false None (fun _ => false) (fun _ => false).

Definition setFlag (f : nat -> bool) (key : nat) (value : bool)
  : nat -> bool :=
  fun k => if Nat.eqb k key then value else f k.

(** [Map.prototype.set], [delete] and [get]. *)
Fixpoint mapSet (m : list (nat * Marker)) (key : nat) (value : Marker)
  : list (nat * Marker) :=
  match m with
  | [] => [(key, value)]
  | (k, x) :: m' =>
      if Nat.eqb k key then (k, value) :: m' else (k, x) :: mapSet m' key value
  end.

Definition mapDelete (m : list (nat * Marker)) (key : nat)
  : list (nat * Marker) :=
  filter (fun entry => negb (Nat.eqb (fst entry) key)) m.

Fixpoint mapGet (m : list (nat * Marker)) (key : nat) : option Marker :=
  match m with
  | [] => None
  | (k, x) :: m' => if Nat.eqb k key then Some x else mapGet m' key
  end.

(** [textLayers.forEach(reset)]: every marker goes back to its layer with
    an empty size, every registered layer loses [selecting]. *)
Definition resetMarker (_ : Marker) : Marker := mkMarker true None.

Definition resetAll (s : Manager) : Manager :=
  {| textLayers := map (fun entry => (fst entry, resetMarker (snd entry)))
                       (textLayers s);
     listening := listening s;
     isPointerDown := isPointerDown s;
     prevRange := prevRange s;
     isFirefox := isFirefox s;
     selecting :=
       fold_left (fun f entry => setFlag f (fst entry) false)
                 (textLayers s) (selecting s);
     bound := bound s |}.

(** What a [selectionchange] handler reads of the selection. *)
Record Anchor : Type := mkAnchor {
  anchorLayer : option nat;  (* [anchor.parentElement?.closest(".textLayer")] *)
  parentIsLayer : bool;      (* [anchor.parentElement] is that layer *)
  hasNextSibling : bool
}.

Record SelectionData : Type := mkSelectionData {
  rangeCount : nat;
  intersectsNode : nat -> nat -> bool;   (* range index, layer *)
  mozUserSelectNone : bool;       (* the probe on the first registered layer *)
  boundaryUnchanged : bool;       (* an end of the range is an end of
                                     [prevRange] *)
  startAnchor : Anchor;
  endAnchor : Anchor;
  throws : bool                   (* the [try] block throws before it
                                     touches the marker *)
}.

Definition isActive (data : SelectionData) (layer : nat) : bool :=
  existsb (fun i => intersectsNode data i layer) (seq 0 (rangeCount data)).

(** The loop over [textLayers] of the [selectionchange] handler. *)
Definition flagActive (data : SelectionData) (s : Manager) : Manager :=
  {| textLayers :=
       map (fun entry =>
              if isActive data (fst entry) then entry
              else (fst entry, resetMarker (snd entry)))
           (textLayers s);
     listening := listening s;
     isPointerDown := isPointerDown s;
     prevRange := prevRange s;
     isFirefox := isFirefox s;
     selecting :=
       fold_left (fun f entry =>
                    setFlag f (fst entry) (isActive data (fst entry)))
                 (textLayers s) (selecting s);
     bound := bound s |}.

Definition probeFirefox (data : SelectionData) (s : Manager) : Manager :=
  match isFirefox s, textLayers s with
  | None, _ :: _ =>
      {| textLayers := textLayers s; listening := listening s;
         isPointerDown := isPointerDown s; prevRange := prevRange s;
         isFirefox := Some (mozUserSelectNone data);
         selecting := selecting s; bound := bound s |}
  | _, _ => s
  end.

(** The [try] block: the marker of the layer of the anchor takes the size
    of the layer and is inserted next to the anchor. *)
Definition moveMarker (data : SelectionData) (s : Manager) : Manager :=
  if throws data then s
  else
    let modifyStart := prevRange s && boundaryUnchanged data in
    let anchor := if modifyStart then startAnchor data else endAnchor data in
    let textLayers' :=
      match anchorLayer anchor with
      | Some parentTextLayer =>
          match mapGet (textLayers s) parentTextLayer with
          | Some endDiv =>
              let canInsert := modifyStart || hasNextSibling anchor in
              mapSet (textLayers s) parentTextLayer
                {| atHome := if canInsert then parentIsLayer anchor
                             else atHome endDiv;
                   sizedFrom := Some parentTextLayer |}
          | None => textLayers s
          end
      | None => textLayers s
      end in
    {| textLayers := textLayers'; listening := listening s;
       isPointerDown := isPointerDown s; prevRange := true;
       isFirefox := isFirefox s;
       selecting := selecting s; bound := bound s |}.

Definition onSelectionChange (selection : option SelectionData) (s : Manager)
  : Manager :=
  match selection with
  | None => resetAll s
  | Some data =>
      if (rangeCount data =? 0)%nat then resetAll s
      else
        let s1 := probeFirefox data (flagActive data s) in
        match isFirefox s1 with
        | Some true => s1
        | _ => moveMarker data s1
        end
  end.

Inductive Event : Type :=
| Bind (textLayerDiv : nat) (endOfContent : Marker)   (* [bindMouseEvents] *)
| Cleanup (textLayerDiv : nat)   (* [_cleanupTextSelection], which
                                   [useTextLayer] calls if it is set and then
                                   deletes: it is set while the layer is
                                   bound *)
| MouseDown (textLayerDiv : nat)
| PointerDown
| PointerUp
| Blur
| KeyUp
| SelectionChange (selection : option SelectionData).

Definition withPointer (down : bool) (s : Manager) : Manager :=
  {| textLayers := textLayers s; listening := listening s;
     isPointerDown := down; prevRange := prevRange s;
     isFirefox := isFirefox s;
     selecting := selecting s; bound := bound s |}.

Definition step (s : Manager) (e : Event) : Manager :=
  match e with
  | Bind textLayerDiv endOfContent =>
      if bound s textLayerDiv then s
      else {| textLayers := mapSet (textLayers s) textLayerDiv endOfContent;
              listening := true;
              isPointerDown := isPointerDown s; prevRange := prevRange s;
              isFirefox := isFirefox s;
              selecting := selecting s;
              bound := setFlag (bound s) textLayerDiv true |}
  | Cleanup textLayerDiv =>
      if bound s textLayerDiv
      then
        let textLayers' := mapDelete (textLayers s) textLayerDiv in
        {| textLayers := textLayers';
           listening := match textLayers' with
                        | [] => false
                        | _ :: _ => listening s
                        end;
           isPointerDown := isPointerDown s; prevRange := prevRange s;
           isFirefox := isFirefox s;
           selecting := selecting s;
           bound := setFlag (bound s) textLayerDiv false |}
      else s
  | MouseDown textLayerDiv =>
      if bound s textLayerDiv
      then {| textLayers := textLayers s; listening := listening s;
              isPointerDown := isPointerDown s; prevRange := prevRange s;
              isFirefox := isFirefox s;
              selecting := setFlag (selecting s) textLayerDiv true;
              bound := bound s |}
      else s
  | PointerDown => if listening s then withPointer true s else s
  | PointerUp => if listening s then resetAll (withPointer false s) else s
  | Blur => if listening s then resetAll (withPointer false s) else s
  | KeyUp =>
      if listening s
      then if isPointerDown s then s else resetAll s
      else s
  | SelectionChange selection =>
      if listening s then onSelectionChange selection s else s
  end.

Definition run (events : list Event) : Manager :=
  fold_left step events created.

(** *** The registry *)

Definition keys (m : list (nat * Marker)) : list nat := map fst m.

Lemma mapGet_some (m : list (nat * Marker)) (key : nat) :
  In key (keys m) <-> exists x, mapGet m key = Some x.
Proof.
  induction m as [|[k x] m IH]; cbn.
  - split; [intros [] | intros (? & K); discriminate].
  - destruct (Nat.eqb_spec k key) as [-> | Hne].
    + split; [eauto | now left].
    + rewrite <- IH. split; [intros [K | K]; [congruence | exact K] | tauto].
Qed.

Lemma mapSet_keys (m : list (nat * Marker)) (key : nat) (value : Marker) :
  keys (mapSet m key value)
  = if existsb (Nat.eqb key) (keys m) then keys m else keys m ++ [key].
Proof.
  induction m as [|[k x] m IH]; cbn [mapSet keys map fst existsb].
  - reflexivity.
  - rewrite (Nat.eqb_sym key k).
    destruct (Nat.eqb k key); cbn [orb keys map fst].
    + reflexivity.
    + fold (keys (mapSet m key value)). rewrite IH. fold (keys m).
      destruct (existsb (Nat.eqb key) (keys m)); reflexivity.
Qed.

Lemma existsb_eqb (key : nat) (l : list nat) :
  existsb (Nat.eqb key) l = true <-> In key l.
Proof.
  rewrite existsb_exists. split.
  - intros (x & Hx & E). apply Nat.eqb_eq in E. now subst.
  - intro H. exists key. split; [exact H | apply Nat.eqb_refl].
Qed.

Lemma mapSet_in (m : list (nat * Marker)) (key : nat) (value : Marker)
    (k : nat) :
  In k (keys (mapSet m key value)) <-> k = key \/ In k (keys m).
Proof.
  rewrite mapSet_keys.
  destruct (existsb (Nat.eqb key) (keys m)) eqn:E.
  - apply existsb_eqb in E. split; [tauto | intros [-> | H]; assumption].
  - rewrite in_app_iff. cbn. split; [intros [H | [H | []]]; auto |].
    intros [-> | H]; auto.
Qed.

Lemma mapSet_NoDup (m : list (nat * Marker)) (key : nat) (value : Marker) :
  NoDup (keys m) -> NoDup (keys (mapSet m key value)).
Proof.
  intro H. rewrite mapSet_keys.
  destruct (existsb (Nat.eqb key) (keys m)) eqn:E; [exact H |].
  apply NoDup_app; [exact H | repeat constructor; intros [] |].
  intros x Hx [<- | []]. apply existsb_eqb in Hx. congruence.
Qed.

Lemma mapDelete_in (m : list (nat * Marker)) (key k : nat) :
  In k (keys (mapDelete m key)) <-> In k (keys m) /\ k <> key.
Proof.
  unfold keys, mapDelete. rewrite !in_map_iff. split.
  - intros ([k' x] & <- & H). apply filter_In in H. destruct H as [H1 H2].
    cbn in *. apply negb_true_iff, Nat.eqb_neq in H2.
    split; [exists (k', x); auto | exact H2].
  - intros (([k' x] & <- & H) & Hne). exists (k', x). split; [reflexivity |].
    apply filter_In. split; [exact H |]. cbn in *.
    apply negb_true_iff, Nat.eqb_neq. exact Hne.
Qed.

Lemma mapDelete_NoDup (m : list (nat * Marker)) (key : nat) :
  NoDup (keys m) -> NoDup (keys (mapDelete m key)).
Proof.
  unfold keys, mapDelete. induction m as [|[k x] m IH]; cbn; intro H.
  - constructor.
  - inversion H as [|? ? Hk Hm]; subst.
    destruct (Nat.eqb k key); cbn; [apply IH, Hm |].
    constructor; [| apply IH, Hm].
    intro K. apply Hk. apply in_map_iff in K.
    destruct K as (e & <- & He). apply filter_In in He.
    apply in_map. tauto.
Qed.

(** The registry of a manager is in order: no layer is registered twice,
    the registered layers are the bound ones, and the global listeners are
    installed exactly while a layer is registered. *)
Record inOrder (s : Manager) : Prop := {
  keys_unique : NoDup (keys (textLayers s));
  bound_registered :
    forall l, bound s l = true <-> In l (keys (textLayers s));
  listening_registered : listening s = true <-> textLayers s <> []
}.

Lemma resetAll_keys (s : Manager) :
  keys (textLayers (resetAll s)) = keys (textLayers s).
Proof.
  unfold resetAll, keys. cbn [textLayers]. rewrite map_map. reflexivity.
Qed.

Lemma flagActive_keys (data : SelectionData) (s : Manager) :
  keys (textLayers (flagActive data s)) = keys (textLayers s).
Proof.
  unfold flagActive, keys. cbn [textLayers]. rewrite map_map.
  apply map_ext. intros [k x]. cbn. destruct (isActive data k); reflexivity.
Qed.

Lemma moveMarker_keys (data : SelectionData) (s : Manager) :
  keys (textLayers (moveMarker data s)) = keys (textLayers s).
Proof.
  unfold moveMarker. destruct (throws data); [reflexivity |].
  cbn [textLayers].
  destruct (anchorLayer _) as [l|]; [| reflexivity].
  destruct (mapGet (textLayers s) l) as [x|] eqn:E; [| reflexivity].
  rewrite mapSet_keys.
  assert (H : existsb (Nat.eqb l) (keys (textLayers s)) = true).
  { apply existsb_eqb, mapGet_some. eauto. }
  rewrite H. reflexivity.
Qed.

Lemma probeFirefox_same (data : SelectionData) (s : Manager) :
  textLayers (probeFirefox data s) = textLayers s /\
  listening (probeFirefox data s) = listening s /\
  bound (probeFirefox data s) = bound s /\
  selecting (probeFirefox data s) = selecting s.
Proof.
  unfold probeFirefox.
  destruct (isFirefox s); [tauto |].
  destruct (textLayers s) eqn:E; [tauto |].
  cbn. rewrite ?E. tauto.
Qed.

Lemma onSelectionChange_keys (selection : option SelectionData)
    (s : Manager) :
  keys (textLayers (onSelectionChange selection s)) = keys (textLayers s) /\
  listening (onSelectionChange selection s) = listening s /\
  bound (onSelectionChange selection s) = bound s.
Proof.
  unfold onSelectionChange.
  destruct selection as [data|]; [| split; [apply resetAll_keys | tauto]].
  destruct (rangeCount data =? 0)%nat;
    [split; [apply resetAll_keys | tauto] |].
  destruct (probeFirefox_same data (flagActive data s)) as (E1 & E2 & E3 & _).
  assert (K : keys (textLayers (probeFirefox data (flagActive data s)))
              = keys (textLayers s)).
  { rewrite E1. apply flagActive_keys. }
  destruct (isFirefox (probeFirefox data (flagActive data s))) as [[|]|].
  - rewrite K, E2, E3. repeat split.
  - rewrite moveMarker_keys, K.
    unfold moveMarker. destruct (throws data); cbn; rewrite ?E2, ?E3;
      repeat split.
  - rewrite moveMarker_keys, K.
    unfold moveMarker. destruct (throws data); cbn; rewrite ?E2, ?E3;
      repeat split.
Qed.

Lemma nonempty_keys (m : list (nat * Marker)) : m <> [] <-> keys m <> [].
Proof. destruct m; cbn; split; congruence. Qed.

Lemma step_inOrder (s : Manager) (e : Event) :
  inOrder s -> inOrder (step s e).
Proof.
  intros [Hn Hb Hl].
  assert (Hsame : forall s',
            keys (textLayers s') = keys (textLayers s) ->
            listening s' = listening s -> bound s' = bound s ->
            inOrder s').
  { intros s' K L B. constructor.
    - rewrite K. exact Hn.
    - intro l. rewrite K, B. apply Hb.
    - rewrite L, Hl, !nonempty_keys, K. tauto. }
  assert (Hs : inOrder s) by (constructor; assumption).
  destruct e as [l m | l | l | | | | | selection]; cbn [step].
  - destruct (bound s l) eqn:Eb; [constructor; assumption |].
    constructor; cbn [textLayers bound listening].
    + apply mapSet_NoDup, Hn.
    + intro k. rewrite mapSet_in. unfold setFlag.
      destruct (Nat.eqb_spec k l) as [-> | Hne]; [tauto |].
      rewrite Hb. tauto.
    + split; [| reflexivity]. intros _ K.
      destruct (textLayers s) as [|[k x] t]; cbn in K; [discriminate |].
      destruct (Nat.eqb k l); discriminate.
  - destruct (bound s l) eqn:Eb; [| exact Hs].
    constructor; cbn [textLayers bound listening].
    + apply mapDelete_NoDup, Hn.
    + intro k. rewrite mapDelete_in. unfold setFlag.
      destruct (Nat.eqb_spec k l) as [-> | Hne].
      * split; [discriminate | tauto].
      * rewrite Hb. tauto.
    + destruct (mapDelete (textLayers s) l) as [|e t] eqn:Ed.
      * split; [discriminate | congruence].
      * rewrite Hl. split; [discriminate |]. intros _ K.
        rewrite K in Ed. discriminate.
  - destruct (bound s l); [| exact Hs].
    apply Hsame; reflexivity.
  - case_eq (listening s); intro E; [| exact Hs].
    apply Hsame; reflexivity.
  - case_eq (listening s); intro E; [| exact Hs].
    apply Hsame; [rewrite resetAll_keys | ..]; reflexivity.
  - case_eq (listening s); intro E; [| exact Hs].
    apply Hsame; [rewrite resetAll_keys | ..]; reflexivity.
  - case_eq (listening s); intro E; [| exact Hs].
    destruct (isPointerDown s); [exact Hs |].
    apply Hsame; [rewrite resetAll_keys | ..]; reflexivity.
  - case_eq (listening s); intro E; [| exact Hs].
    destruct (onSelectionChange_keys selection s) as (K & L & B).
    apply Hsame; congruence.
Qed.

Lemma run_snoc (events : list Event) (e : Event) :
  run (events ++ [e]) = step (run events) e.
Proof. unfold run. rewrite fold_left_app. reflexivity. Qed.

Lemma run_inOrder (events : list Event) : inOrder (run events).
Proof.
  induction events as [|e events IH] using rev_ind.
  - constructor; cbn.
    + constructor.
    + intro l. split; [discriminate | intros []].
    + split; [discriminate | congruence].
  - rewrite run_snoc. apply step_inOrder, IH.
Qed.

(** In every history of the manager, no text layer is registered twice, a
    text layer is registered exactly while it is bound, and the global
    listeners are installed exactly while some text layer is registered. *)
Theorem registry_in_order (events : list Event) :
  let s := run events in
  NoDup (keys (textLayers s)) /\
  (forall l, bound s l = true <-> In l (keys (textLayers s))) /\
  (listening s = true <-> textLayers s <> []).
Proof.
  cbv zeta. destruct (run_inOrder events) as [H1 H2 H3]. auto.
Qed.

(** *** What the listeners leave behind *)

Lemma fold_setFlag (g : nat -> bool) (m : list (nat * Marker))
    (f : nat -> bool) (l : nat) :
  fold_left (fun f entry => setFlag f (fst entry) (g (fst entry))) m f l
  = if existsb (Nat.eqb l) (keys m) then g l else f l.
Proof.
  revert f. induction m as [|[k x] m IH]; intro f; cbn.
  - reflexivity.
  - rewrite IH. unfold setFlag. fold (keys m).
    destruct (Nat.eqb_spec l k) as [-> | Hne];
      destruct (existsb (Nat.eqb _) (keys m)); reflexivity.
Qed.

Lemma existsb_eqb_false (key : nat) (l : list nat) :
  ~ In key l -> existsb (Nat.eqb key) l = false.
Proof.
  intro H. destruct (existsb (Nat.eqb key) l) eqn:E; [| reflexivity].
  apply existsb_eqb in E. contradiction.
Qed.

Lemma mapGet_map (h : nat -> Marker -> Marker) (m : list (nat * Marker))
    (l : nat) :
  mapGet (map (fun entry => (fst entry, h (fst entry) (snd entry))) m) l
  = option_map (h l) (mapGet m l).
Proof.
  induction m as [|[k x] m IH]; cbn; [reflexivity |].
  destruct (Nat.eqb_spec k l) as [-> | Hne]; [reflexivity | exact IH].
Qed.

(** A sweep [textLayers.forEach(reset)] took the manager from [s] to [s']:
    the same layers are registered, each with its marker back in its layer
    and unsized and without the class [selecting]; layers that are not
    registered keep the class they had. *)
Definition swept (s s' : Manager) : Prop :=
  keys (textLayers s') = keys (textLayers s) /\
  (forall l, In l (keys (textLayers s)) ->
     mapGet (textLayers s') l = Some (mkMarker true None) /\
     selecting s' l = false) /\
  (forall l, ~ In l (keys (textLayers s)) -> selecting s' l = selecting s l).

Lemma resetAll_swept (s : Manager) : swept s (resetAll s).
Proof.
  split; [apply resetAll_keys |]. split.
  - intros l Hl. split.
    + unfold resetAll. cbn [textLayers].
      rewrite (mapGet_map (fun _ => resetMarker)).
      apply mapGet_some in Hl. destruct Hl as (x & ->). reflexivity.
    + unfold resetAll. cbn [selecting].
      rewrite (fold_setFlag (fun _ => false)).
      apply existsb_eqb in Hl. rewrite Hl. reflexivity.
  - intros l Hl. unfold resetAll. cbn [selecting].
    rewrite (fold_setFlag (fun _ => false)).
    rewrite (existsb_eqb_false _ _ Hl). reflexivity.
Qed.

Lemma idle_swept (s : Manager) : inOrder s -> listening s = false -> swept s s.
Proof.
  intros Hs E.
  assert (Hempty : textLayers s = []).
  { destruct (textLayers s) eqn:Et; [reflexivity |].
    assert (K : listening s = true)
      by (apply (listening_registered s Hs); rewrite Et; discriminate).
    congruence. }
  unfold swept. rewrite Hempty. cbn. split; [reflexivity |].
  split; [intros l [] | reflexivity].
Qed.

(** In every history, releasing the pointer and the window losing focus
    put every registered text layer back: its marker is in the layer and
    unsized, the layer is not [selecting]; with listeners installed the
    pointer counts as up afterwards.  A key release does the same while the
    pointer is up, and changes nothing while it is down. *)
Theorem release_resets_layers (events : list Event) :
  let s := run events in
  (swept s (run (events ++ [PointerUp])) /\
   swept s (run (events ++ [Blur])) /\
   (listening s = true ->
      isPointerDown (run (events ++ [PointerUp])) = false /\
      isPointerDown (run (events ++ [Blur])) = false)) /\
  (isPointerDown s = false -> swept s (run (events ++ [KeyUp]))) /\
  (isPointerDown s = true -> run (events ++ [KeyUp]) = s).
Proof.
  cbv zeta. rewrite !run_snoc.
  pose proof (run_inOrder events) as Hs.
  set (s := run events) in *. cbn [step].
  destruct (listening s) eqn:E.
  - split; [split; [| split] |].
    + apply (resetAll_swept (withPointer false s)).
    + apply (resetAll_swept (withPointer false s)).
    + intros _. split; reflexivity.
    + split.
      * intros ->. apply resetAll_swept.
      * intros ->. reflexivity.
  - pose proof (idle_swept s Hs E) as Hi.
    split; [split; [exact Hi | split; [exact Hi | discriminate]] |].
    split; [intros _; destruct (isPointerDown s); exact Hi |].
    intros _. destruct (isPointerDown s); reflexivity.
Qed.

Lemma release_resets_layers_witness :
  selecting (run [Bind 1 (mkMarker true None); MouseDown 1; PointerDown]) 1
    = true /\
  selecting (run ([Bind 1 (mkMarker true None); MouseDown 1; PointerDown]
                  ++ [PointerUp])) 1 = false.
Proof.
  split; [reflexivity |].
  exact (proj2
           (proj1 (proj2 (proj1 (proj1
              (release_resets_layers
                 [Bind 1 (mkMarker true None); MouseDown 1; PointerDown]))))
              1%nat (or_introl eq_refl))).
Defined.

Lemma moveMarker_selecting (data : SelectionData) (s : Manager) :
  selecting (moveMarker data s) = selecting s.
Proof. unfold moveMarker. destruct (throws data); reflexivity. Qed.

Lemma onSelectionChange_selecting (data : SelectionData) (s : Manager)
    (l : nat) :
  selecting (onSelectionChange (Some data) s) l
  = if existsb (Nat.eqb l) (keys (textLayers s)) then isActive data l
    else selecting s l.
Proof.
  assert (Hflag : selecting (flagActive data s) l
                  = if existsb (Nat.eqb l) (keys (textLayers s))
                    then isActive data l else selecting s l).
  { unfold flagActive. cbn [selecting]. apply (fold_setFlag (isActive data)). }
  unfold onSelectionChange.
  destruct (rangeCount data =? 0)%nat eqn:E0.
  - unfold resetAll. cbn [selecting].
    rewrite (fold_setFlag (fun _ => false)).
    destruct (existsb (Nat.eqb l) (keys (textLayers s))); [| reflexivity].
    apply Nat.eqb_eq in E0. unfold isActive. rewrite E0. reflexivity.
  - destruct (probeFirefox_same data (flagActive data s)) as (_ & _ & _ & E4).
    cbv zeta.
    destruct (isFirefox (probeFirefox data (flagActive data s))) as [[|]|];
      rewrite ?moveMarker_selecting, E4; exact Hflag.
Qed.

Lemma mapGet_flagActive (data : SelectionData) (s : Manager) (l : nat) :
  mapGet (textLayers (flagActive data s)) l
  = if isActive data l then mapGet (textLayers s) l
    else option_map resetMarker (mapGet (textLayers s) l).
Proof.
  unfold flagActive. cbn [textLayers].
  induction (textLayers s) as [|[k x] m IH]; cbn.
  - destruct (isActive data l); reflexivity.
  - destruct (isActive data k) eqn:Ek; cbn;
      (destruct (Nat.eqb_spec k l) as [-> | Hne]; [rewrite Ek | exact IH]);
      reflexivity.
Qed.

Lemma mapSet_get_other (m : list (nat * Marker)) (key : nat) (value : Marker)
    (l : nat) :
  l <> key -> mapGet (mapSet m key value) l = mapGet m l.
Proof.
  intro Hne. induction m as [|[k x] m IH]; cbn.
  - destruct (Nat.eqb_spec key l); [congruence | reflexivity].
  - destruct (Nat.eqb_spec k key) as [-> | Hk]; cbn.
    + destruct (Nat.eqb_spec key l); [congruence | reflexivity].
    + destruct (Nat.eqb k l); [reflexivity | exact IH].
Qed.

Lemma mapSet_get (m : list (nat * Marker)) (key : nat) (value : Marker) :
  mapGet (mapSet m key value) key = Some value.
Proof.
  induction m as [|[k x] m IH]; cbn.
  - now rewrite Nat.eqb_refl.
  - destruct (Nat.eqb_spec k key) as [-> | Hk]; cbn.
    + now rewrite Nat.eqb_refl.
    + destruct (Nat.eqb_spec k key); [contradiction | exact IH].
Qed.

(** The marker of [l] is where [reset] puts it, or has the size of [l]. *)
Definition resetOrSized (l : nat) (marker : option Marker) : Prop :=
  marker = Some (mkMarker true None) \/
  exists m, marker = Some m /\ sizedFrom m = Some l.

Lemma moveMarker_get (data : SelectionData) (s : Manager) (l : nat) :
  mapGet (textLayers (moveMarker data s)) l = mapGet (textLayers s) l \/
  exists m, mapGet (textLayers (moveMarker data s)) l = Some m /\
            sizedFrom m = Some l.
Proof.
  unfold moveMarker. destruct (throws data); [now left |].
  cbn [textLayers].
  destruct (anchorLayer _) as [p|]; [| now left].
  destruct (mapGet (textLayers s) p) as [x|]; [| now left].
  destruct (Nat.eq_dec l p) as [-> | Hne].
  - right. rewrite mapSet_get. eexists. split; reflexivity.
  - left. apply mapSet_get_other, Hne.
Qed.

(** In every history, after a [selectionchange] with a selection a
    registered text layer is [selecting] exactly if a range of the selection
    intersects it, and layers that are not registered keep their class.  The
    marker of a registered layer that no range intersects is reset, unless
    it is the marker the handler has just sized from that layer.  On Firefox
    no marker of an intersected layer is touched. *)
Theorem selection_change_flags_layers (events : list Event)
    (data : SelectionData) :
  let s := run events in
  let s' := run (events ++ [SelectionChange (Some data)]) in
  keys (textLayers s') = keys (textLayers s) /\
  (forall l, In l (keys (textLayers s)) ->
     selecting s' l = isActive data l /\
     (isActive data l = false -> resetOrSized l (mapGet (textLayers s') l)) /\
     (isActive data l = true -> isFirefox s' = Some true ->
        mapGet (textLayers s') l = mapGet (textLayers s) l)) /\
  (forall l, ~ In l (keys (textLayers s)) -> selecting s' l = selecting s l).
Proof.
  cbv zeta. rewrite run_snoc.
  pose proof (run_inOrder events) as Hs.
  set (s := run events) in *. cbn [step].
  destruct (listening s) eqn:E.
  2:{ destruct (idle_swept s Hs E) as (_ & H2 & _).
      split; [reflexivity |]. split; [| reflexivity].
      intros l Hl. destruct (H2 l Hl) as [H _].
      assert (Hempty : keys (textLayers s) = []).
      { destruct (textLayers s) eqn:Et; [reflexivity |].
        assert (K : listening s = true)
          by (apply (listening_registered s Hs); rewrite Et; discriminate).
        congruence. }
      rewrite Hempty in Hl. destruct Hl. }
  split; [apply onSelectionChange_keys |].
  split.
  - intros l Hl. split; [| split].
    + rewrite onSelectionChange_selecting.
      apply existsb_eqb in Hl. rewrite Hl. reflexivity.
    + intro Hi. unfold onSelectionChange.
      destruct (rangeCount data =? 0)%nat.
      * left. apply (resetAll_swept s), Hl.
      * cbv zeta.
        destruct (probeFirefox_same data (flagActive data s)) as (E1 & _).
        assert (Hf : mapGet (textLayers (probeFirefox data (flagActive data s))) l
                     = Some (mkMarker true None)).
        { rewrite E1, mapGet_flagActive, Hi.
          apply mapGet_some in Hl. destruct Hl as (x & ->). reflexivity. }
        destruct (isFirefox (probeFirefox data (flagActive data s)))
          as [[|]|]; [left; exact Hf | |];
          (destruct (moveMarker_get data
                       (probeFirefox data (flagActive data s)) l) as [K | K];
           [left; rewrite K; exact Hf | right; exact K]).
    + intros Ha. unfold onSelectionChange.
      destruct (rangeCount data =? 0)%nat eqn:E0.
      * apply Nat.eqb_eq in E0. unfold isActive in Ha. rewrite E0 in Ha.
        discriminate.
      * cbv zeta.
        destruct (probeFirefox_same data (flagActive data s)) as (E1 & _).
        destruct (isFirefox (probeFirefox data (flagActive data s)))
          as [[|]|] eqn:Ef.
        -- intros _. rewrite E1, mapGet_flagActive, Ha. reflexivity.
        -- unfold moveMarker. destruct (throws data); cbn [isFirefox];
             rewrite Ef; discriminate.
        -- unfold moveMarker. destruct (throws data); cbn [isFirefox];
             rewrite Ef; discriminate.
  - intros l Hl. rewrite onSelectionChange_selecting.
    rewrite (existsb_eqb_false _ _ Hl). reflexivity.
Qed.

Definition onFirstLayer : SelectionData :=
  {| rangeCount := 1;
     intersectsNode := fun _ layer => Nat.eqb layer 1;
     mozUserSelectNone := false;
     boundaryUnchanged := false;
     startAnchor := mkAnchor (Some 1%nat) false true;
     endAnchor := mkAnchor (Some 1%nat) false true;
     throws := false |}.

Lemma selection_change_flags_layers_witness :
  selecting (run ([Bind 1 (mkMarker true None); Bind 2 (mkMarker true None);
                   MouseDown 2]
                  ++ [SelectionChange (Some onFirstLayer)])) 2 = false.
Proof.
  exact (proj1
           (proj1 (proj2
              (selection_change_flags_layers
                 [Bind 1 (mkMarker true None); Bind 2 (mkMarker true None);
                  MouseDown 2] onFirstLayer))
              2%nat (or_intror (or_introl eq_refl)))).
Defined.

(** *** Binding and cleaning up *)

Lemma mapDelete_mapSet (m : list (nat * Marker)) (key : nat)
    (value : Marker) :
  ~ In key (keys m) -> mapDelete (mapSet m key value) key = m.
Proof.
  unfold mapDelete. induction m as [|[k x] m IH]; cbn; intro H.
  - now rewrite Nat.eqb_refl.
  - destruct (Nat.eqb_spec k key) as [-> | Hk]; [tauto |].
    cbn. destruct (Nat.eqb_spec k key); [contradiction |].
    cbn. f_equal. apply IH. tauto.
Qed.

(** In every history, binding a text layer that is not bound and cleaning
    it up again leaves the registry, the listeners and the binding of every
    layer as they were. *)
Theorem bind_then_cleanup (events : list Event) (l : nat) (m : Marker) :
  bound (run events) l = false ->
  let s := run events in
  let s' := run (events ++ [Bind l m; Cleanup l]) in
  textLayers s' = textLayers s /\
  listening s' = listening s /\
  (forall k, bound s' k = bound s k).
Proof.
  intro Hb. cbv zeta.
  replace (events ++ [Bind l m; Cleanup l])
    with ((events ++ [Bind l m]) ++ [Cleanup l])
    by (rewrite <- app_assoc; reflexivity).
  rewrite (run_snoc (events ++ [Bind l m])), run_snoc.
  pose proof (run_inOrder events) as Hs.
  set (s := run events) in *.
  assert (Hl : ~ In l (keys (textLayers s))).
  { intro K. apply (bound_registered s Hs) in K. congruence. }
  assert (Ht : setFlag (bound s) l true l = true)
    by (unfold setFlag; now rewrite Nat.eqb_refl).
  cbn [step]. rewrite Hb. cbn [bound]. rewrite Ht.
  cbn [textLayers listening bound].
  rewrite (mapDelete_mapSet _ _ _ Hl).
  split; [reflexivity |]. split.
  - destruct (textLayers s) eqn:Et.
    + destruct (listening s) eqn:E; [| reflexivity].
      apply (listening_registered s Hs) in E. congruence.
    + symmetry. apply (listening_registered s Hs). rewrite Et. discriminate.
  - intro k. unfold setFlag.
    destruct (Nat.eqb_spec k l) as [-> | Hne]; [congruence | reflexivity].
Qed.

Lemma bind_then_cleanup_witness :
  bound (run [Bind 1 (mkMarker true None); PointerDown]) 2 = false /\
  textLayers (run ([Bind 1 (mkMarker true None); PointerDown]
                   ++ [Bind 2 (mkMarker true None); Cleanup 2]))
  = [(1, mkMarker true None)]%nat.
Proof.
  split; [reflexivity |].
  apply (proj1 (bind_then_cleanup [Bind 1 (mkMarker true None); PointerDown]
                  2 (mkMarker true None) eq_refl)).
Defined.

End TextSelection.

(** ** Binary64 numbers

    JavaScript numbers are IEEE 754 binary64 values; they are modelled by
    the primitive type [float], whose operations round to nearest, ties to
    even.  This module adds what the source uses of [Math] and the order
    of the numbers that are not [NaN]. *)

Module Binary64.

Import Floats.
#[local] Open Scope float_scope.
#[local] Set Warnings "-inexact-float".

(** [Math.min] and [Math.max] of two numbers: [NaN] if either is [NaN];
    [-0] counts as smaller than [+0]. *)
Definition Math_min (x y : float) : float :=
  if is_nan x || is_nan y then nan
  else if x <? y then x
  else if y <? x then y
  else if get_sign x then x else y.

Definition Math_max (x y : float) : float :=
  if is_nan x || is_nan y then nan
  else if x <? y then y
  else if y <? x then x
  else if get_sign x then y else x.

(** [!x] for a number [x]: [0], [-0] and [NaN] are falsy. *)
Definition falsy (x : float) : bool := is_zero x || is_nan x.

(** *** The order of the numbers that are not [NaN] *)

Definition number (x : float) : Prop := is_nan x = false.

Lemma SFcompare_refl (s : spec_float) :
  s <> S754_nan -> SFcompare s s = Some Eq.
Proof.
  destruct s as [[]|[]| |[] m e]; cbn; try congruence; intros _;
    rewrite Z.compare_refl, Pos.compare_cont_refl; reflexivity.
Qed.

Lemma number_spec (x : float) : number x <-> Prim2SF x <> S754_nan.
Proof.
  unfold number, is_nan. rewrite eqb_spec. unfold SFeqb.
  split.
  - intros H E. rewrite E in H. discriminate.
  - intro H. rewrite (SFcompare_refl _ H). reflexivity.
Qed.

Lemma SFcompare_some (s t : spec_float) (c : comparison) :
  SFcompare s t = Some c -> s <> S754_nan /\ t <> S754_nan.
Proof.
  destruct s as [[]|[]| |[] m e], t as [[]|[]| |[] m' e']; cbn;
    intro H; split; congruence.
Qed.

Ltac order_cases :=
  repeat match goal with
  | |- context [Z.compare ?a ?b] =>
      let H := fresh in destruct (Z.compare_spec a b) as [H | H | H]
  | H : context [Z.compare ?a ?b] |- _ =>
      let H' := fresh in destruct (Z.compare_spec a b) as [H' | H' | H']
  | |- context [Pos.compare_cont Eq ?a ?b] =>
      let H := fresh in
      change (Pos.compare_cont Eq a b) with (Pos.compare a b);
      destruct (Pos.compare_spec a b) as [H | H | H]
  | H : context [Pos.compare_cont Eq ?a ?b] |- _ =>
      let H' := fresh in
      change (Pos.compare_cont Eq a b) with (Pos.compare a b) in H;
      destruct (Pos.compare_spec a b) as [H' | H' | H']
  end.

Lemma SFleb_trans (s t u : spec_float) :
  SFleb s t = true -> SFleb t u = true -> SFleb s u = true.
Proof.
  unfold SFleb.
  destruct s as [[]|[]| |[] m1 e1], t as [[]|[]| |[] m2 e2],
           u as [[]|[]| |[] m3 e3]; cbn; try congruence;
    order_cases; cbn; try congruence; try lia.
Qed.

Lemma SFltb_leb (s t : spec_float) : SFltb s t = true -> SFleb s t = true.
Proof.
  unfold SFltb, SFleb. destruct (SFcompare s t) as [[]|]; congruence.
Qed.

Lemma SFltb_asym (s t : spec_float) : SFltb s t = true -> SFleb t s = false.
Proof.
  unfold SFltb, SFleb.
  destruct s as [[]|[]| |[] m1 e1], t as [[]|[]| |[] m2 e2]; cbn;
    try congruence; order_cases; cbn; try congruence; try lia.
Qed.

Lemma SFleb_total (s t : spec_float) :
  s <> S754_nan -> t <> S754_nan -> SFltb s t = false -> SFleb t s = true.
Proof.
  unfold SFltb, SFleb.
  destruct s as [[]|[]| |[] m1 e1], t as [[]|[]| |[] m2 e2]; cbn;
    try congruence; order_cases; cbn; try congruence; try lia.
Qed.

Lemma SFltb_leb_trans (s t u : spec_float) :
  SFltb s t = true -> SFleb t u = true -> SFltb s u = true.
Proof.
  unfold SFleb, SFltb.
  destruct s as [[]|[]| |[] m1 e1], t as [[]|[]| |[] m2 e2],
           u as [[]|[]| |[] m3 e3]; cbn; try congruence;
    order_cases; cbn; try congruence; try lia.
Qed.

(** [x <= y] and [x < y] as propositions. *)
Definition le (x y : float) : Prop := (x <=? y) = true.
Definition lt (x y : float) : Prop := (x <? y) = true.

Lemma le_number (x y : float) : le x y -> number x /\ number y.
Proof.
  unfold le. rewrite leb_spec, !number_spec. unfold SFleb.
  destruct (SFcompare (Prim2SF x) (Prim2SF y)) as [c|] eqn:E; [| discriminate].
  intros _. eapply SFcompare_some, E.
Qed.

Lemma lt_number (x y : float) : lt x y -> number x /\ number y.
Proof.
  unfold lt. rewrite ltb_spec, !number_spec. unfold SFltb.
  destruct (SFcompare (Prim2SF x) (Prim2SF y)) as [c|] eqn:E; [| discriminate].
  intros _. eapply SFcompare_some, E.
Qed.

Lemma le_refl (x : float) : number x -> le x x.
Proof.
  unfold le. rewrite leb_spec, number_spec. intro H.
  unfold SFleb. rewrite (SFcompare_refl _ H). reflexivity.
Qed.

Lemma le_trans (x y z : float) : le x y -> le y z -> le x z.
Proof. unfold le. rewrite !leb_spec. apply SFleb_trans. Qed.

Lemma lt_le (x y : float) : lt x y -> le x y.
Proof. unfold lt, le. rewrite ltb_spec, leb_spec. apply SFltb_leb. Qed.

Lemma lt_not_ge (x y : float) : lt x y -> (y <=? x) = false.
Proof. unfold lt. rewrite ltb_spec, leb_spec. apply SFltb_asym. Qed.

Lemma not_lt_ge (x y : float) :
  number x -> number y -> (x <? y) = false -> le y x.
Proof.
  unfold le. rewrite ltb_spec, leb_spec, !number_spec. apply SFleb_total.
Qed.

Lemma lt_le_trans (x y z : float) : lt x y -> le y z -> lt x z.
Proof. unfold le, lt. rewrite !ltb_spec, leb_spec. apply SFltb_leb_trans. Qed.

(** [x === y] on numbers. *)
Lemma SFeqb_sym (s t : spec_float) : SFeqb s t = true -> SFeqb t s = true.
Proof.
  unfold SFeqb.
  destruct s as [[]|[]| |[] m1 e1], t as [[]|[]| |[] m2 e2]; cbn;
    try congruence; order_cases; cbn; try congruence; try lia.
Qed.

Lemma SFeqb_trans (s t u : spec_float) :
  SFeqb s t = true -> SFeqb t u = true -> SFeqb s u = true.
Proof.
  unfold SFeqb.
  destruct s as [[]|[]| |[] m1 e1], t as [[]|[]| |[] m2 e2],
           u as [[]|[]| |[] m3 e3]; cbn; try congruence;
    order_cases; cbn; try congruence; try lia.
Qed.

Lemma eqb_sym (x y : float) : (x =? y) = true -> (y =? x) = true.
Proof. rewrite !eqb_spec. apply SFeqb_sym. Qed.

Lemma eqb_trans (x y z : float) :
  (x =? y) = true -> (y =? z) = true -> (x =? z) = true.
Proof. rewrite !eqb_spec. apply SFeqb_trans. Qed.

(** *** [Math.min] and [Math.max] *)

Lemma Math_min_spec (x y : float) :
  number x -> number y ->
  (Math_min x y = x \/ Math_min x y = y) /\
  le (Math_min x y) x /\ le (Math_min x y) y.
Proof.
  unfold number, Math_min. intros Hx Hy. rewrite Hx, Hy. cbn [orb].
  destruct (x <? y) eqn:E1.
  { split; [now left |]. split; [apply le_refl, Hx | apply lt_le, E1]. }
  destruct (y <? x) eqn:E2.
  { split; [now right |]. split; [apply lt_le, E2 | apply le_refl, Hy]. }
  pose proof (not_lt_ge x y Hx Hy E1). pose proof (not_lt_ge y x Hy Hx E2).
  destruct (get_sign x).
  - split; [now left |]. split; [apply le_refl, Hx | assumption].
  - split; [now right |]. split; [assumption | apply le_refl, Hy].
Qed.

Lemma Math_max_spec (x y : float) :
  number x -> number y ->
  (Math_max x y = x \/ Math_max x y = y) /\
  le x (Math_max x y) /\ le y (Math_max x y).
Proof.
  unfold number, Math_max. intros Hx Hy. rewrite Hx, Hy. cbn [orb].
  destruct (x <? y) eqn:E1.
  { split; [now right |]. split; [apply lt_le, E1 | apply le_refl, Hy]. }
  destruct (y <? x) eqn:E2.
  { split; [now left |]. split; [apply le_refl, Hx | apply lt_le, E2]. }
  pose proof (not_lt_ge x y Hx Hy E1). pose proof (not_lt_ge y x Hy Hx E2).
  destruct (get_sign x).
  - split; [now right |]. split; [assumption | apply le_refl, Hy].
  - split; [now left |]. split; [apply le_refl, Hx | assumption].
Qed.

Lemma Math_min_number (x y : float) :
  number x -> number y -> number (Math_min x y).
Proof.
  intros Hx Hy. destruct (Math_min_spec x y Hx Hy) as ([-> | ->] & _); assumption.
Qed.

Lemma Math_max_number (x y : float) :
  number x -> number y -> number (Math_max x y).
Proof.
  intros Hx Hy. destruct (Math_max_spec x y Hx Hy) as ([-> | ->] & _); assumption.
Qed.

(** *** The exact value of a finite number

    A finite double is an integer multiple of [2^-1074]; [scaled x] is that
    integer, [exact x] the rational it stands for. *)
Definition weight (m : positive) (e : Z) : Z := (Zpos m * 2 ^ (e + 1074))%Z.

Definition scaledSF (s : spec_float) : option Z :=
  match s with
  | S754_zero _ => Some 0%Z
  | S754_finite sign m e => Some (cond_Zopp sign (weight m e))
  | _ => None
  end.

Definition scaled (x : float) : option Z := scaledSF (Prim2SF x).

Definition grain : positive := Eval vm_compute in (2 ^ 1074)%positive.

Definition exact (x : float) : option Q :=
  option_map (fun v => Qmake v grain) (scaled x).

(** [Math.floor] of a finite number, as an integer. *)
Definition Math_floor (x : float) : option Z := option_map Qfloor (exact x).

Lemma digits2_bounds (m : positive) :
  (2 ^ (Zpos (digits2_pos m) - 1) <= Zpos m < 2 ^ Zpos (digits2_pos m))%Z.
Proof.
  induction m as [m IH | m IH |]; cbn [digits2_pos].
  - rewrite Pos2Z.inj_succ.
    replace (Z.succ (Zpos (digits2_pos m)) - 1)%Z
      with (Z.succ (Zpos (digits2_pos m) - 1))%Z by lia.
    rewrite !Z.pow_succ_r by lia. lia.
  - rewrite Pos2Z.inj_succ.
    replace (Z.succ (Zpos (digits2_pos m)) - 1)%Z
      with (Z.succ (Zpos (digits2_pos m) - 1))%Z by lia.
    rewrite !Z.pow_succ_r by lia. lia.
  - cbn. lia.
Qed.

Lemma valid_finite (s : bool) (m : positive) (e : Z) :
  valid_binary (S754_finite s m e) = true ->
  (-1074 <= e)%Z /\ (Zpos m < 2 ^ 53)%Z /\
  (-1074 < e -> 2 ^ 52 <= Zpos m)%Z.
Proof.
  cbn [SpecFloat.valid_binary]. unfold bounded, canonical_mantissa, fexp.
  intro H. apply andb_prop in H. destruct H as [H _].
  apply Z.eqb_eq in H.
  change (SpecFloat.emin prec emax) with (-1074)%Z in H.
  change prec with 53%Z in H.
  pose proof (digits2_bounds m) as [Hlo Hhi].
  set (d := Zpos (digits2_pos m)) in *.
  assert (Hd : (0 < d)%Z) by (unfold d; lia).
  split; [lia |]. split.
  - eapply Z.lt_le_trans; [exact Hhi |].
    apply Z.pow_le_mono_r; lia.
  - intro He. assert (d = 53)%Z by lia.
    replace 52%Z with (d - 1)%Z by lia. exact Hlo.
Qed.

Lemma weight_pos (m : positive) (e : Z) :
  (-1074 <= e)%Z -> (0 < weight m e)%Z.
Proof.
  intro H. unfold weight. apply Z.mul_pos_pos; [lia |].
  apply Z.pow_pos_nonneg; lia.
Qed.

Lemma weight_exponent (s1 s2 : bool) (m1 m2 : positive) (e1 e2 : Z) :
  valid_binary (S754_finite s1 m1 e1) = true ->
  valid_binary (S754_finite s2 m2 e2) = true ->
  (e1 < e2)%Z -> (weight m1 e1 < weight m2 e2)%Z.
Proof.
  intros V1 V2 Hlt.
  apply valid_finite in V1. apply valid_finite in V2.
  destruct V1 as (E1 & M1 & _), V2 as (E2 & _ & M2).
  assert (He2 : (-1074 < e2)%Z) by lia.
  specialize (M2 He2). unfold weight.
  replace (e2 + 1074)%Z with ((e2 - e1 - 1) + 1 + (e1 + 1074))%Z by lia.
  rewrite (Z.pow_add_r 2 (e2 - e1 - 1 + 1) (e1 + 1074)) by lia.
  rewrite (Z.pow_add_r 2 (e2 - e1 - 1) 1) by lia.
  assert (Hp : (0 < 2 ^ (e1 + 1074))%Z) by (apply Z.pow_pos_nonneg; lia).
  assert (Hq : (1 <= 2 ^ (e2 - e1 - 1))%Z)
    by (apply (Z.pow_le_mono_r 2 0); lia).
  change (2 ^ 1)%Z with 2%Z.
  change (2 ^ 53)%Z with (2 * 2 ^ 52)%Z in M1.
  apply Z.lt_le_trans with (2 * 2 ^ 52 * 2 ^ (e1 + 1074))%Z.
  - apply Z.mul_lt_mono_pos_r; assumption.
  - rewrite Z.mul_assoc. apply Z.mul_le_mono_nonneg_r; [lia |].
    nia.
Qed.

Lemma weight_mantissa (m1 m2 : positive) (e : Z) :
  (-1074 <= e)%Z ->
  (weight m1 e ?= weight m2 e)%Z = (m1 ?= m2)%positive.
Proof.
  intro H. unfold weight.
  assert (Hp : (0 < 2 ^ (e + 1074))%Z) by (apply Z.pow_pos_nonneg; lia).
  destruct (Pos.compare_spec m1 m2) as [E | E | E].
  - rewrite E. apply Z.compare_refl.
  - apply Z.compare_lt_iff. apply Z.mul_lt_mono_pos_r; [assumption | lia].
  - apply Z.compare_gt_iff. apply Z.mul_lt_mono_pos_r; [assumption | lia].
Qed.

(** The comparison of two finite numbers is the comparison of their exact
    values. *)
Lemma SFcompare_scaled (s t : spec_float) (a b : Z) :
  valid_binary s = true -> valid_binary t = true ->
  scaledSF s = Some a -> scaledSF t = Some b ->
  SFcompare s t = Some (a ?= b)%Z.
Proof.
  intros Vs Vt.
  destruct s as [s1| | |s1 m1 e1], t as [s2| | |s2 m2 e2]; unfold scaledSF;
    try discriminate; intros Ea Eb; inversion Ea; inversion Eb; subst;
    clear Ea Eb.
  - reflexivity.
  - pose proof (weight_pos m2 e2 (proj1 (valid_finite _ _ _ Vt))) as P.
    cbn [SFcompare].
    destruct s2; cbn [cond_Zopp]; f_equal; symmetry;
      [apply Z.compare_gt_iff | apply Z.compare_lt_iff]; lia.
  - pose proof (weight_pos m1 e1 (proj1 (valid_finite _ _ _ Vs))) as P.
    cbn [SFcompare].
    destruct s1; cbn [cond_Zopp]; f_equal; symmetry;
      [apply Z.compare_lt_iff | apply Z.compare_gt_iff]; lia.
  - pose proof (weight_pos m1 e1 (proj1 (valid_finite _ _ _ Vs))) as P1.
    pose proof (weight_pos m2 e2 (proj1 (valid_finite _ _ _ Vt))) as P2.
    cbn [SFcompare].
    change (Pos.compare_cont Eq m1 m2) with (m1 ?= m2)%positive.
    destruct s1, s2; cbn [cond_Zopp]; f_equal; symmetry.
    + destruct (Z.compare_spec e1 e2) as [E | E | E].
      * subst e2.
        rewrite <- (weight_mantissa m1 m2 e1 (proj1 (valid_finite _ _ _ Vs))).
        rewrite Z.compare_opp. apply Z.compare_antisym.
      * apply Z.compare_gt_iff.
        pose proof (weight_exponent _ _ _ _ _ _ Vs Vt E). lia.
      * apply Z.compare_lt_iff.
        pose proof (weight_exponent _ _ _ _ _ _ Vt Vs E). lia.
    + apply Z.compare_lt_iff. lia.
    + apply Z.compare_gt_iff. lia.
    + destruct (Z.compare_spec e1 e2) as [E | E | E].
      * subst e2.
        apply (weight_mantissa m1 m2 e1 (proj1 (valid_finite _ _ _ Vs))).
      * apply Z.compare_lt_iff.
        apply (weight_exponent _ _ _ _ _ _ Vs Vt E).
      * apply Z.compare_gt_iff.
        apply (weight_exponent _ _ _ _ _ _ Vt Vs E).
Qed.

Lemma ltb_scaled (x y : float) (a b : Z) :
  scaled x = Some a -> scaled y = Some b -> (x <? y) = (a <? b)%Z.
Proof.
  intros Ea Eb. rewrite ltb_spec. unfold SFltb.
  rewrite (SFcompare_scaled _ _ a b (Prim2SF_valid x) (Prim2SF_valid y) Ea Eb).
  unfold Z.ltb. destruct (a ?= b)%Z; reflexivity.
Qed.

Lemma leb_scaled (x y : float) (a b : Z) :
  scaled x = Some a -> scaled y = Some b -> (x <=? y) = (a <=? b)%Z.
Proof.
  intros Ea Eb. rewrite leb_spec. unfold SFleb.
  rewrite (SFcompare_scaled _ _ a b (Prim2SF_valid x) (Prim2SF_valid y) Ea Eb).
  unfold Z.leb. destruct (a ?= b)%Z; reflexivity.
Qed.

(** *** Signs *)

(** The number is not below zero (or is [NaN]). *)
Definition unsigned (s : spec_float) : Prop :=
  match s with
  | S754_zero _ | S754_nan => True
  | S754_infinity sign | S754_finite sign _ _ => sign = false
  end.

Lemma unsigned_le (x : float) : unsigned (Prim2SF x) -> number x -> le 0 x.
Proof.
  intros H N. apply number_spec in N. unfold le. rewrite leb_spec.
  change (Prim2SF 0) with (S754_zero false).
  destruct (Prim2SF x) as [s|s| |s m e]; cbn in *;
    try reflexivity; try congruence; subst; reflexivity.
Qed.

Lemma rounded_unsigned (m e : Z) (l : location) :
  unsigned (binary_round_aux prec emax false m e l).
Proof.
  unfold binary_round_aux.
  destruct (shr_fexp prec emax m e l) as [mrs' e'].
  destruct (shr_fexp prec emax _ e' loc_Exact) as [mrs'' e''].
  destruct (shr_m mrs''); cbn; [exact I | | exact I].
  destruct (e'' <=? _)%Z; reflexivity.
Qed.

Lemma sqrt_unsigned (x : float) : unsigned (Prim2SF (sqrt x)).
Proof.
  rewrite sqrt_spec. unfold SF64sqrt, SFsqrt.
  destruct (Prim2SF x) as [s|[]| |[] m e]; try exact I; try reflexivity.
  destruct (SFsqrt_core_binary prec emax (Z.pos m) e) as [[mz ez] lz].
  apply rounded_unsigned.
Qed.

(** A quotient of a positive finite number by a number that is at least 1 *)
Lemma div_unsigned (x y : float) (m : positive) (e : Z) :
  Prim2SF x = S754_finite false m e -> le 1 y ->
  unsigned (Prim2SF (x / y)).
Proof.
  intros Ex Hy. unfold le in Hy. rewrite leb_spec in Hy.
  change (Prim2SF 1) with (S754_finite false 4503599627370496 (-52)) in Hy.
  rewrite div_spec, Ex. unfold SF64div, SFdiv.
  destruct (Prim2SF y) as [s|s| |s m' e'].
  - destruct s; discriminate.
  - exact I.
  - exact I.
  - destruct s; [discriminate |]. cbn [xorb].
    destruct (SFdiv_core_binary prec emax (Z.pos m) e (Z.pos m') e')
      as [[mz ez] lz].
    apply rounded_unsigned.
Qed.

Lemma finite_number (x : float) : is_finite x = true -> number x.
Proof.
  unfold is_finite, number. intro H. apply negb_true_iff in H.
  apply orb_false_elim in H. tauto.
Qed.

Lemma le_antisym (x y : float) : le x y -> le y x -> (x =? y) = true.
Proof.
  unfold le. rewrite !leb_spec, eqb_spec. unfold SFleb, SFeqb.
  destruct (Prim2SF x) as [[]|[]| |[] m1 e1],
           (Prim2SF y) as [[]|[]| |[] m2 e2]; cbn;
    try congruence; order_cases; cbn; try congruence; try lia.
Qed.

Lemma lt_not_falsy (x : float) : lt 0 x -> falsy x = false.
Proof.
  intro H. unfold falsy, is_zero. change zero with 0.
  destruct (lt_number _ _ H) as [_ N]. unfold number in N. rewrite N.
  rewrite orb_false_r.
  destruct (x =? 0) eqn:E; [| reflexivity].
  pose proof (lt_not_ge _ _ H) as G.
  revert E G. rewrite eqb_spec, leb_spec. unfold SFeqb, SFleb.
  destruct (SFcompare (Prim2SF x) (Prim2SF 0)) as [[]|]; congruence.
Qed.

End Binary64.

(** ** Rounding in binary64

    How far a quotient, a square root and a product, as the primitive
    operations round them, are from the exact ones.  The operations are
    specified by [SFdiv], [SFsqrt] and [SFmul], which shift a mantissa to
    the precision of the format and round it to the nearest even. *)

Module Rounding64.
Import Reals Lra Qreals.
Import Floats Binary64.
#[local] Open Scope R_scope.

(** *** Powers of two *)

Definition p2 (e : Z) : R := powerRZ 2 e.

Lemma p2_pos (e : Z) : 0 < p2 e.
Proof. apply powerRZ_lt. lra. Qed.

Lemma p2_add (a b : Z) : p2 (a + b) = p2 a * p2 b.
Proof. apply powerRZ_add. lra. Qed.

Lemma p2_0 : p2 0 = 1.
Proof. reflexivity. Qed.

Lemma p2_1 : p2 1 = 2.
Proof. exact (powerRZ_1 2). Qed.

Lemma p2_succ (e : Z) : p2 (e + 1) = 2 * p2 e.
Proof. rewrite p2_add, p2_1. lra. Qed.

Lemma p2_pred (e : Z) : p2 (e - 1) = / 2 * p2 e.
Proof.
  replace (p2 e) with (p2 (e - 1 + 1)) by (f_equal; lia).
  rewrite p2_succ. lra.
Qed.

Lemma p2_opp (e : Z) : p2 (- e) = / p2 e.
Proof. apply powerRZ_neg'. Qed.

Lemma p2_cancel (e : Z) : p2 e * p2 (- e) = 1.
Proof. rewrite <- p2_add. replace (e + - e)%Z with 0%Z by lia. apply p2_0. Qed.

Lemma p2_nat (n : nat) : p2 (Z.of_nat n) = 2 ^ n.
Proof. unfold p2. symmetry. apply pow_powerRZ. Qed.

Lemma p2_ge_1 (e : Z) : (0 <= e)%Z -> 1 <= p2 e.
Proof.
  intro H. rewrite <- (Z2Nat.id e H), p2_nat. apply pow_R1_Rle. lra.
Qed.

Lemma p2_le (a b : Z) : (a <= b)%Z -> p2 a <= p2 b.
Proof.
  intro H. replace b with (a + (b - a))%Z by lia. rewrite p2_add.
  pose proof (p2_pos a). pose proof (p2_ge_1 (b - a) ltac:(lia)). nra.
Qed.

Lemma p2_lt (a b : Z) : (a < b)%Z -> p2 a < p2 b.
Proof.
  intro H. replace b with (a + 1 + (b - a - 1))%Z by lia.
  rewrite p2_add, p2_succ.
  pose proof (p2_pos a). pose proof (p2_ge_1 (b - a - 1) ltac:(lia)). nra.
Qed.

Lemma p2_IZR (n : Z) : (0 <= n)%Z -> IZR (2 ^ n) = p2 n.
Proof.
  intro H. rewrite <- (Z2Nat.id n H), p2_nat, <- pow_IZR. reflexivity.
Qed.

(** The value of a mantissa at an exponent. *)
Definition F2R (m e : Z) : R := IZR m * p2 e.

(** *** Shifting a mantissa to the right

    A record of a mantissa, a round bit and a sticky bit stands for the
    numbers [X] at its location. *)
Definition located (mrs : shr_record) (X : R) : Prop :=
  let m := IZR (shr_m mrs) in
  match shr_r mrs, shr_s mrs with
  | false, false => X = m
  | false, true => m < X < m + / 2
  | true, false => X = m + / 2
  | true, true => m + / 2 < X < m + 1
  end.

Lemma located_range (mrs : shr_record) (X : R) :
  located mrs X -> IZR (shr_m mrs) <= X < IZR (shr_m mrs) + 1.
Proof.
  unfold located. destruct (shr_r mrs), (shr_s mrs); cbv zeta; lra.
Qed.

Lemma shr_1_located (mrs : shr_record) (X : R) :
  (0 <= shr_m mrs)%Z -> located mrs X ->
  located (shr_1 mrs) (X / 2) /\ (0 <= shr_m (shr_1 mrs))%Z.
Proof.
  destruct mrs as [m r s]. cbn [shr_m]. intros Hm.
  destruct m as [|p|p]; [| | lia].
  - unfold located; cbn [shr_1 shr_m shr_r shr_s].
    destruct r, s; cbn [orb]; cbv zeta; split; try lia; lra.
  - destruct p as [p|p|]; unfold located; cbn [shr_1 shr_m shr_r shr_s];
      [rewrite Pos2Z.inj_xI, plus_IZR, mult_IZR
      |rewrite Pos2Z.inj_xO, mult_IZR |];
      destruct r, s; cbn [orb]; cbv zeta; split; try lia; lra.
Qed.

Lemma iter_located (p : positive) :
  forall (mrs : shr_record) (X : R),
    (0 <= shr_m mrs)%Z -> located mrs X ->
    located (SpecFloat.iter_pos shr_1 p mrs) (X * p2 (- Zpos p)) /\
    (0 <= shr_m (SpecFloat.iter_pos shr_1 p mrs))%Z.
Proof.
  assert (Hhalf : forall X, X / 2 = X * p2 (Z.opp 1)).
  { intro X. rewrite p2_opp, p2_1. reflexivity. }
  induction p as [p IH | p IH |]; intros mrs X Hm HX; cbn [SpecFloat.iter_pos].
  - destruct (shr_1_located mrs X Hm HX) as [H1 M1].
    destruct (IH _ _ M1 H1) as [H2 M2].
    destruct (IH _ _ M2 H2) as [H3 M3].
    split; [| exact M3].
    replace (X * p2 (- Zpos p~1)) with (X / 2 * p2 (- Zpos p) * p2 (- Zpos p));
      [exact H3 |].
    rewrite Hhalf, !Rmult_assoc, <- !p2_add. do 2 f_equal. lia.
  - destruct (IH _ _ Hm HX) as [H2 M2].
    destruct (IH _ _ M2 H2) as [H3 M3].
    split; [| exact M3].
    replace (X * p2 (- Zpos p~0)) with (X * p2 (- Zpos p) * p2 (- Zpos p));
      [exact H3 |].
    rewrite !Rmult_assoc, <- !p2_add. do 2 f_equal. lia.
  - rewrite <- Hhalf. apply shr_1_located; assumption.
Qed.

(** [represents mrs e x]: the record [mrs], at the exponent [e], stands for
    the number [x]. *)
Definition represents (mrs : shr_record) (e : Z) (x : R) : Prop :=
  located mrs (x * p2 (- e)).

Lemma shr_represents (mrs : shr_record) (e n : Z) (x : R) :
  (0 <= shr_m mrs)%Z -> represents mrs e x ->
  represents (fst (shr mrs e n)) (snd (shr mrs e n)) x /\
  (0 <= shr_m (fst (shr mrs e n)))%Z /\
  snd (shr mrs e n) = (e + Z.max n 0)%Z.
Proof.
  intros Hm Hx. unfold shr. destruct n as [|p|p]; cbn [fst snd].
  - split; [| split]; [exact Hx | exact Hm | lia].
  - destruct (iter_located p mrs _ Hm Hx) as [H M].
    split; [| split]; [| exact M | lia].
    unfold represents.
    replace (x * p2 (- (e + Zpos p))) with (x * p2 (- e) * p2 (- Zpos p));
      [exact H |].
    rewrite Rmult_assoc, <- p2_add. do 2 f_equal. lia.
  - split; [| split]; [exact Hx | exact Hm | lia].
Qed.

Lemma represents_range (mrs : shr_record) (e : Z) (x : R) :
  represents mrs e x ->
  F2R (shr_m mrs) e <= x < F2R (shr_m mrs) e + p2 e.
Proof.
  unfold represents, F2R. intro H. apply located_range in H.
  pose proof (p2_pos e) as P. pose proof (p2_cancel e) as C.
  assert (E : x = x * p2 (- e) * p2 e).
  { rewrite Rmult_assoc, (Rmult_comm (p2 (- e))), C. lra. }
  revert H E. generalize (x * p2 (- e)). intros y H E. rewrite E. nra.
Qed.

(** Rounding to nearest moves a located number by at most a half. *)
Lemma round_nearest_even_near (mrs : shr_record) (X : R) :
  located mrs X ->
  let m' := round_nearest_even (shr_m mrs) (loc_of_shr_record mrs) in
  IZR m' - / 2 <= X <= IZR m' + / 2 /\ (shr_m mrs <= m')%Z.
Proof.
  destruct mrs as [m r s]. unfold located.
  cbn [shr_m shr_r shr_s loc_of_shr_record].
  destruct r, s; cbn [round_nearest_even]; cbv zeta; intro H.
  - rewrite plus_IZR. split; [lra | lia].
  - destruct (Z.even m); [| rewrite plus_IZR]; split; try lia; lra.
  - split; [lra | lia].
  - split; [lra | lia].
Qed.

(** *** Rounding *)

Lemma shr_m_of_loc (m : Z) (l : location) : shr_m (shr_record_of_loc m l) = m.
Proof. destruct l as [|[]]; reflexivity. Qed.

Lemma fexp_value (e : Z) :
  SpecFloat.fexp prec emax e = Z.max (e - 53) (-1074).
Proof. reflexivity. Qed.

Lemma shr_fexp_represents (m e : Z) (l : location) (x : R) :
  (0 <= m)%Z -> represents (shr_record_of_loc m l) e x ->
  let '(mrs', e') := shr_fexp prec emax m e l in
  represents mrs' e' x /\ (0 <= shr_m mrs')%Z /\
  e' = (e + Z.max (Z.max (Zdigits2 m + e - 53) (-1074) - e) 0)%Z.
Proof.
  intros Hm Hx. unfold shr_fexp. rewrite fexp_value.
  pose proof (shr_represents (shr_record_of_loc m l) e
                (Z.max (Zdigits2 m + e - 53) (-1074) - e) x) as H.
  rewrite shr_m_of_loc in H. specialize (H Hm Hx).
  destruct (shr _ e _) as [mrs' e']. exact H.
Qed.

Lemma exact_represents (m e : Z) :
  represents (shr_record_of_loc m loc_Exact) e (F2R m e).
Proof.
  unfold represents, located, F2R. cbn. rewrite Rmult_assoc, p2_cancel. lra.
Qed.

Lemma digits_bounds_R (m : positive) :
  p2 (Zpos (digits2_pos m) - 1) <= IZR (Zpos m) < p2 (Zpos (digits2_pos m)).
Proof.
  pose proof (digits2_bounds m) as [H1 H2].
  rewrite <- !p2_IZR by lia. split; [apply IZR_le, H1 | apply IZR_lt, H2].
Qed.

(** What [binary_round_aux] returns for a positive mantissa [mx] at the
    exponent [ex] that stands for the number [x]. *)
Lemma binary_round_aux_bounds (sx : bool) (mx ex : Z) (lx : location) (x : R) :
  (0 <= mx)%Z ->
  represents (shr_record_of_loc mx lx) ex x ->
  match binary_round_aux prec emax sx mx ex lx with
  | S754_zero sign => sign = sx /\ ((0 < mx)%Z -> x <= p2 (-1075))
  | S754_finite sign mf ef =>
      sign = sx /\
      x - 3 / 2 * p2 ef < F2R (Zpos mf) ef <= x + / 2 * p2 ef
  | S754_infinity sign => sign = sx /\ p2 971 <= x
  | S754_nan => False
  end.
Proof.
  intros Hm0 Hx. unfold binary_round_aux.
  pose proof (shr_fexp_represents mx ex lx x ltac:(lia) Hx) as H1.
  destruct (shr_fexp prec emax mx ex lx) as [mrs' e'].
  destruct H1 as (R1 & M1 & E1).
  pose proof (round_nearest_even_near mrs' _ R1) as H. cbv zeta in H.
  set (m' := round_nearest_even (shr_m mrs') (loc_of_shr_record mrs')) in *.
  destruct H as (N1 & N2).
  pose proof (shr_fexp_represents m' e' loc_Exact (F2R m' e') ltac:(lia)
                (exact_represents m' e')) as H2.
  destruct (shr_fexp prec emax m' e' loc_Exact) as [mrs'' e''].
  destruct H2 as (R2 & M2 & E2).
  apply represents_range in R2.
  pose proof (p2_pos e') as P'. pose proof (p2_pos e'') as P''.
  assert (L : p2 e' <= p2 e'') by (apply p2_le; lia).
  assert (Hx' : F2R m' e' - / 2 * p2 e' <= x <= F2R m' e' + / 2 * p2 e').
  { pose proof (p2_cancel e') as C. unfold F2R.
    assert (E : x = x * p2 (- e') * p2 e').
    { rewrite Rmult_assoc, (Rmult_comm (p2 (- e'))), C. lra. }
    revert N1 E. generalize (x * p2 (- e')). intros y N1 E. rewrite E. nra. }
  (* the exponent after the first shift is not below the least one *)
  assert (Emin : (-1074 <= e')%Z) by lia.
  revert R2 M2. destruct (shr_m mrs'') as [|mf|mf]; intros R2 M2; [| | lia].
  - (* the result is zero *)
    split; [reflexivity |]. intro Hm.
    assert (R2' : F2R m' e' < p2 e'') by (unfold F2R in *; lra).
    clear R2. rename R2' into R2.
    (* the rounded mantissa is zero *)
    assert (Z' : m' = 0%Z).
    { destruct m' as [|p|p]; [reflexivity | | lia]. exfalso.
      pose proof (digits_bounds_R p) as [D1 _].
      cbn [Zdigits2] in E2.
      set (d := Zpos (digits2_pos p)) in *.
      assert (Hd : (1 <= d)%Z) by (unfold d; lia).
      assert (Le : (e'' <= e' + (d - 1))%Z) by lia.
      apply p2_le in Le. rewrite p2_add in Le.
      unfold F2R in R2. nra. }
    rewrite Z' in Hx'. unfold F2R in Hx'. rewrite Rmult_0_l in Hx'.
    (* so the first shift went down to the least exponent *)
    destruct mx as [|p|p]; [lia | | lia].
    cbn [Zdigits2] in E1.
    pose proof (digits_bounds_R p) as [D1 _].
    set (d := Zpos (digits2_pos p)) in *.
    assert (Hd : (1 <= d)%Z) by (unfold d; lia).
    apply represents_range in Hx. rewrite shr_m_of_loc in Hx.
    destruct (Z.eq_dec e' (-1074)) as [-> | Ne].
    + change (-1075)%Z with (-1074 - 1)%Z. rewrite p2_pred. lra.
    + exfalso.
      destruct (Z_le_gt_dec (Z.max (d + ex - 53) (-1074) - ex) 0) as [Hn | Hn].
      * (* no shift: the mantissa is kept, and is not zero *)
        assert (He : e' = ex) by lia. rewrite He in Hx'.
        assert (1 <= IZR (Zpos p)) by (apply IZR_le; lia).
        unfold F2R in Hx. nra.
      * assert (Ee : (ex + (d - 1) = e' + 52)%Z) by lia.
        assert (Le : p2 (e' + 52) <= F2R (Zpos p) ex).
        { rewrite <- Ee, p2_add. unfold F2R.
          pose proof (p2_pos ex). nra. }
        rewrite p2_add in Le.
        assert (1 <= p2 52) by (apply p2_ge_1; lia). nra.
  - assert (B : x - 3 / 2 * p2 e'' < F2R (Zpos mf) e'' <= x + / 2 * p2 e'')
      by (unfold F2R in *; split; nra).
    destruct (Z.leb_spec e'' (emax - prec)) as [He | He];
      (split; [reflexivity |]); [exact B |].
    change (emax - prec)%Z with 971%Z in He.
    assert (L2 : p2 972 <= p2 e'') by (apply p2_le; lia).
    change 972%Z with (971 + 1)%Z in L2. rewrite p2_succ in L2.
    assert (1 <= IZR (Zpos mf)) by (apply IZR_le; lia).
    unfold F2R in B. nra.
Qed.

(** *** The three operations *)

Lemma mul_core_bounds (sx sy : bool) (mx my : positive) (ex ey : Z) :
  let x := F2R (Zpos mx) ex * F2R (Zpos my) ey in
  match SFmul prec emax (S754_finite sx mx ex) (S754_finite sy my ey) with
  | S754_zero sign => sign = xorb sx sy /\ x <= p2 (-1075)
  | S754_finite sign mf ef =>
      sign = xorb sx sy /\
      x - 3 / 2 * p2 ef < F2R (Zpos mf) ef <= x + / 2 * p2 ef
  | S754_infinity sign => sign = xorb sx sy /\ p2 971 <= x
  | S754_nan => False
  end.
Proof.
  cbv zeta. cbn [SFmul].
  pose proof (binary_round_aux_bounds (xorb sx sy) (Zpos (mx * my)) (ex + ey)
                loc_Exact (F2R (Zpos mx) ex * F2R (Zpos my) ey)
                ltac:(lia)) as H.
  assert (E : F2R (Zpos (mx * my)) (ex + ey)
              = F2R (Zpos mx) ex * F2R (Zpos my) ey).
  { unfold F2R. rewrite Pos2Z.inj_mul, mult_IZR, p2_add. ring. }
  rewrite <- E in H. specialize (H (exact_represents _ _)). rewrite E in H.
  destruct (binary_round_aux prec emax _ _ _ _) as [sign|sign| |sign mf ef];
    try exact H.
  destruct H as [H1 H2]. split; [exact H1 | apply H2; lia].
Qed.

(** Where a quotient with a remainder lies. *)
Lemma ratio_located (q r b : Z) :
  (0 < b)%Z -> (0 <= r < b)%Z ->
  located (shr_record_of_loc q (new_location b r))
          (IZR q + IZR r / IZR b).
Proof.
  intros Hb Hr.
  assert (B : 0 < IZR b) by (apply IZR_lt; lia).
  assert (R0 : 0 <= IZR r) by (apply IZR_le; lia).
  assert (E : IZR r = IZR r / IZR b * IZR b) by (field; lra).
  assert (R2 : IZR r + 1 <= IZR b) by (rewrite <- plus_IZR; apply IZR_le; lia).
  assert (Hzero : r = 0%Z -> IZR q + IZR r / IZR b = IZR q).
  { intros ->. unfold Rdiv. lra. }
  unfold new_location.
  destruct (Z.even b) eqn:Eb;
    unfold new_location_even, new_location_odd;
    (destruct (Z.eqb_spec r 0) as [Hz | Hne];
     [unfold located; cbn; apply Hzero, Hz |]);
    assert (R1 : 1 <= IZR r) by (apply IZR_le; lia);
    clear Hzero; revert E R0 R1 R2; generalize (IZR r / IZR b);
    intros t E R0 R1 R2.
  - destruct (Z.compare_spec (2 * r) b) as [H | H | H]; unfold located; cbn.
    + apply (f_equal IZR) in H. rewrite mult_IZR in H.
      assert (Ht : t = / 2)
        by (apply Rmult_eq_reg_r with (IZR b); lra).
      lra.
    + apply IZR_lt in H. rewrite mult_IZR in H. nra.
    + apply IZR_lt in H. rewrite mult_IZR in H. nra.
  - assert (Ho : Z.odd b = true) by (rewrite <- Z.negb_even, Eb; reflexivity).
    apply Z.odd_spec in Ho. destruct Ho as [k Hk].
    destruct (Z.compare_spec (2 * r + 1) b) as [H | H | H]; unfold located; cbn.
    + assert (H' : (2 * r < b)%Z) by lia.
      apply IZR_lt in H'. rewrite mult_IZR in H'. nra.
    + assert (H' : (2 * r < b)%Z) by lia.
      apply IZR_lt in H'. rewrite mult_IZR in H'. nra.
    + assert (H' : (b < 2 * r)%Z) by lia.
      apply IZR_lt in H'. rewrite mult_IZR in H'. nra.
Qed.

Lemma div_core_represents (m1 m2 : positive) (e1 e2 : Z) :
  let '(q, e', l) := SFdiv_core_binary prec emax (Zpos m1) e1 (Zpos m2) e2 in
  (0 <= q)%Z /\
  represents (shr_record_of_loc q l) e'
             (F2R (Zpos m1) e1 / F2R (Zpos m2) e2).
Proof.
  unfold SFdiv_core_binary.
  set (e' := Z.min _ (e1 - e2)).
  set (s := (e1 - e2 - e')%Z).
  assert (Hs : (0 <= s)%Z) by (unfold s, e'; lia).
  set (m' := match s with
             | 0%Z => Zpos m1
             | Zpos _ => Z.shiftl (Zpos m1) s
             | Zneg _ => 0%Z
             end).
  assert (Hm' : m' = (Zpos m1 * 2 ^ s)%Z).
  { unfold m'. destruct s as [|p|p]; [cbn; lia | | lia].
    apply Z.shiftl_mul_pow2. lia. }
  pose proof (Z_div_mod m' (Zpos m2) ltac:(lia)) as H.
  destruct (Z.div_eucl m' (Zpos m2)) as [q r]. destruct H as [Hq Hr].
  assert (P : (0 < 2 ^ s)%Z) by (apply Z.pow_pos_nonneg; lia).
  split; [nia |].
  unfold represents.
  replace (F2R (Zpos m1) e1 / F2R (Zpos m2) e2 * p2 (- e'))
    with (IZR q + IZR r / IZR (Zpos m2));
    [apply ratio_located; lia |].
  assert (B : 0 < IZR (Zpos m2)) by (apply IZR_lt; lia).
  assert (E1 : IZR m' = IZR (Zpos m1) * p2 s).
  { rewrite Hm', mult_IZR, p2_IZR by lia. reflexivity. }
  assert (E2 : IZR m' = IZR (Zpos m2) * IZR q + IZR r).
  { rewrite Hq, plus_IZR, mult_IZR. reflexivity. }
  assert (E3 : p2 e1 = p2 s * p2 e2 * p2 e').
  { rewrite <- !p2_add. f_equal. unfold s. lia. }
  unfold F2R. rewrite E3, p2_opp.
  pose proof (p2_pos e2). pose proof (p2_pos e'). pose proof (p2_pos s).
  transitivity (IZR m' / IZR (Zpos m2)).
  - rewrite E2. field. lra.
  - rewrite E1. field. repeat split; lra.
Qed.

Lemma div_core_bounds (sx sy : bool) (mx my : positive) (ex ey : Z) :
  let x := F2R (Zpos mx) ex / F2R (Zpos my) ey in
  match SFdiv prec emax (S754_finite sx mx ex) (S754_finite sy my ey) with
  | S754_zero sign => sign = xorb sx sy
  | S754_finite sign mf ef =>
      sign = xorb sx sy /\
      x - 3 / 2 * p2 ef < F2R (Zpos mf) ef <= x + / 2 * p2 ef
  | S754_infinity sign => sign = xorb sx sy /\ p2 971 <= x
  | S754_nan => False
  end.
Proof.
  cbv zeta. cbn [SFdiv].
  pose proof (div_core_represents mx my ex ey) as H.
  destruct (SFdiv_core_binary prec emax (Zpos mx) ex (Zpos my) ey)
    as [[q e'] l].
  destruct H as [Hq Hr].
  pose proof (binary_round_aux_bounds (xorb sx sy) q e' l _ Hq Hr) as H.
  destruct (binary_round_aux prec emax _ _ _ _) as [sign|sign| |sign mf ef];
    try exact H.
  apply H.
Qed.

Lemma sqrt_between (q r : Z) :
  (0 <= q)%Z -> (0 <= r <= 2 * q)%Z ->
  let l := if (r =? 0)%Z then loc_Exact
           else loc_Inexact (if (r <=? q)%Z then Lt else Gt) in
  located (shr_record_of_loc q l) (R_sqrt.sqrt (IZR (q * q + r))).
Proof.
  intros Hq Hr. cbv zeta.
  assert (Q0 : 0 <= IZR q) by (apply IZR_le; lia).
  assert (R0 : 0 <= IZR r) by (apply IZR_le; lia).
  rewrite plus_IZR, mult_IZR.
  assert (Below : forall a y, 0 <= a -> a * a < y -> a < R_sqrt.sqrt y).
  { intros a y Ha Hy. rewrite <- (sqrt_square a Ha) at 1.
    apply sqrt_lt_1_alt. split; [nra | exact Hy]. }
  assert (Above : forall a y, 0 <= a -> 0 <= y -> y < a * a -> R_sqrt.sqrt y < a).
  { intros a y Ha Hy0 Hy. rewrite <- (sqrt_square a Ha) at 1.
    apply sqrt_lt_1_alt. split; [exact Hy0 | exact Hy]. }
  destruct (Z.eqb_spec r 0) as [-> | Hne].
  { unfold located; cbn. rewrite Rplus_0_r. apply sqrt_square, Q0. }
  assert (R1 : 1 <= IZR r) by (apply IZR_le; lia).
  destruct (Z.leb_spec r q) as [H | H]; unfold located; cbn.
  - apply IZR_le in H. split; [apply Below; nra | apply Above; nra].
  - assert (H' : (q + 1 <= r)%Z) by lia.
    apply IZR_le in H'. rewrite plus_IZR in H'.
    assert (H2 : IZR r <= 2 * IZR q)
      by (rewrite <- mult_IZR; apply IZR_le; lia).
    split; [apply Below; nra | apply Above; nra].
Qed.

Lemma sqrt_core_represents (m : positive) (e : Z) :
  let '(q, e', l) := SFsqrt_core_binary prec emax (Zpos m) e in
  (0 <= q)%Z /\
  represents (shr_record_of_loc q l) e' (R_sqrt.sqrt (F2R (Zpos m) e)).
Proof.
  unfold SFsqrt_core_binary.
  set (e' := Z.min _ (Z.div2 e)).
  assert (He' : (2 * e' <= e)%Z).
  { unfold e'. rewrite Z.div2_div.
    pose proof (Z.mul_div_le e 2 ltac:(lia)). lia. }
  set (s := (e - 2 * e')%Z).
  assert (Hs : (0 <= s)%Z) by (unfold s; lia).
  set (m' := match s with
             | 0%Z => Zpos m
             | Zpos _ => Z.shiftl (Zpos m) s
             | Zneg _ => 0%Z
             end).
  assert (Hm' : m' = (Zpos m * 2 ^ s)%Z).
  { unfold m'. destruct s as [|p|p]; [cbn; lia | | lia].
    apply Z.shiftl_mul_pow2. lia. }
  assert (P : (0 < 2 ^ s)%Z) by (apply Z.pow_pos_nonneg; lia).
  pose proof (Z.sqrtrem_spec m' ltac:(nia)) as H.
  destruct (Z.sqrtrem m') as [q r]. destruct H as [Hq Hr].
  assert (Q0 : (0 <= q)%Z) by nia.
  split; [exact Q0 |].
  unfold represents.
  replace (R_sqrt.sqrt (F2R (Zpos m) e) * p2 (- e')) with (R_sqrt.sqrt (IZR (q * q + r)));
    [apply sqrt_between; assumption |].
  rewrite <- Hq.
  assert (E1 : IZR m' = IZR (Zpos m) * p2 s).
  { rewrite Hm', mult_IZR, p2_IZR by lia. reflexivity. }
  assert (E3 : p2 e = p2 s * (p2 e' * p2 e')).
  { rewrite <- !p2_add. f_equal. unfold s. lia. }
  pose proof (p2_pos e') as Pe. pose proof (p2_pos s) as Ps.
  assert (M0 : 0 <= IZR m') by (apply IZR_le; nia).
  unfold F2R. rewrite E3.
  replace (IZR (Zpos m) * (p2 s * (p2 e' * p2 e')))
    with (IZR m' * (p2 e' * p2 e')) by (rewrite E1; ring).
  rewrite sqrt_mult by nra. rewrite sqrt_square by lra.
  rewrite Rmult_assoc, p2_cancel. lra.
Qed.

Lemma sqrt_core_bounds (mx : positive) (ex : Z) :
  let x := R_sqrt.sqrt (F2R (Zpos mx) ex) in
  match SFsqrt prec emax (S754_finite false mx ex) with
  | S754_zero sign => sign = false
  | S754_finite sign mf ef =>
      sign = false /\
      x - 3 / 2 * p2 ef < F2R (Zpos mf) ef <= x + / 2 * p2 ef
  | S754_infinity sign => sign = false /\ p2 971 <= x
  | S754_nan => False
  end.
Proof.
  cbv zeta. cbn [SFsqrt].
  pose proof (sqrt_core_represents mx ex) as H.
  destruct (SFsqrt_core_binary prec emax (Zpos mx) ex) as [[q e'] l].
  destruct H as [Hq Hr].
  pose proof (binary_round_aux_bounds false q e' l _ Hq Hr) as H.
  destruct (binary_round_aux prec emax _ _ _ _) as [sign|sign| |sign mf ef];
    try exact H.
  apply H.
Qed.

(** *** The value of a number *)

(** The real number that a finite double is; [0] for the others. *)
Definition SF2R (s : spec_float) : R :=
  match s with
  | S754_finite sign m e =>
      if sign then - F2R (Zpos m) e else F2R (Zpos m) e
  | _ => 0
  end.

Definition value (x : float) : R := SF2R (Prim2SF x).

Definition finiteSF (s : spec_float) : bool :=
  match s with
  | S754_zero _ | S754_finite _ _ _ => true
  | _ => false
  end.

(** [Number.isFinite]. *)
Lemma is_finite_spec (x : float) : is_finite x = finiteSF (Prim2SF x).
Proof.
  unfold is_finite, is_nan, is_infinity.
  rewrite !eqb_spec, abs_spec.
  change (Prim2SF infinity) with (S754_infinity false).
  unfold SFeqb.
  destruct (Prim2SF x) as [[]|[]| |sign m e]; try reflexivity.
  rewrite SFcompare_refl by discriminate. destruct sign; reflexivity.
Qed.

Lemma finite_F2R (m : positive) (e : Z) : 0 < F2R (Zpos m) e.
Proof.
  unfold F2R. apply Rmult_lt_0_compat; [apply IZR_lt; lia | apply p2_pos].
Qed.

Lemma scaledSF_value (s : spec_float) (a : Z) :
  valid_binary s = true -> scaledSF s = Some a ->
  SF2R s = IZR a * p2 (-1074).
Proof.
  destruct s as [sign|sign| |sign m e]; cbn [scaledSF SF2R];
    intros V E; try discriminate; inversion E; subst a; clear E.
  - lra.
  - apply valid_finite in V. destruct V as (He & _).
    assert (W : IZR (weight m e) * p2 (-1074) = F2R (Zpos m) e).
    { unfold weight, F2R. rewrite mult_IZR, p2_IZR by lia.
      rewrite Rmult_assoc, <- p2_add. do 2 f_equal. lia. }
    destruct sign; cbn [cond_Zopp]; [rewrite opp_IZR |]; rewrite <- W; ring.
Qed.

Lemma scaled_value (x : float) (a : Z) :
  scaled x = Some a -> value x = IZR a * p2 (-1074).
Proof. apply scaledSF_value, Prim2SF_valid. Qed.

Lemma finite_scaled (x : float) :
  is_finite x = true -> exists a, scaled x = Some a.
Proof.
  rewrite is_finite_spec. unfold scaled.
  destruct (Prim2SF x) as [sign|sign| |sign m e]; cbn; try discriminate;
    intros _; eexists; reflexivity.
Qed.

Lemma grain_value : IZR (Zpos grain) = p2 1074.
Proof.
  replace (Zpos grain) with (2 ^ 1074)%Z by (vm_compute; reflexivity).
  apply p2_IZR. lia.
Qed.

Lemma exact_value (x : float) (q : Q) : exact x = Some q -> Q2R q = value x.
Proof.
  unfold exact. destruct (scaled x) as [a|] eqn:E; [| discriminate].
  cbn. intro H. inversion H; subst q. rewrite (scaled_value x a E).
  unfold Q2R. cbn [Qnum Qden]. rewrite grain_value.
  change (-1074)%Z with (- (1074))%Z. rewrite p2_opp. reflexivity.
Qed.

Lemma finite_exact (x : float) :
  is_finite x = true -> exists q, exact x = Some q.
Proof.
  intro H. destruct (finite_scaled x H) as [a E].
  unfold exact. rewrite E. eexists. reflexivity.
Qed.

Lemma le_value (x y : float) :
  is_finite x = true -> is_finite y = true -> le x y -> value x <= value y.
Proof.
  intros Fx Fy H.
  destruct (finite_scaled x Fx) as [a Ea], (finite_scaled y Fy) as [b Eb].
  unfold le in H. rewrite (leb_scaled x y a b Ea Eb) in H.
  apply Z.leb_le in H. rewrite (scaled_value x a Ea), (scaled_value y b Eb).
  apply Rmult_le_compat_r; [apply Rlt_le, p2_pos | apply IZR_le, H].
Qed.

(** A number between zero and a finite number is finite. *)
Lemma le_finite (x y : float) :
  le 0 x -> le x y -> is_finite y = true -> is_finite x = true.
Proof.
  unfold le. rewrite !is_finite_spec, !leb_spec.
  change (Prim2SF 0) with (S754_zero false). unfold SFleb.
  destruct (Prim2SF x) as [[]|[]| |[] m e],
           (Prim2SF y) as [[]|[]| |[] m' e']; cbn; congruence.
Qed.

(** A finite number that is at least 1 is a positive finite number. *)
Lemma le_one_finite (x : float) :
  le 1 x -> is_finite x = true ->
  exists m e, Prim2SF x = S754_finite false m e /\ 1 <= value x.
Proof.
  intros H F.
  assert (F1 : is_finite 1 = true) by reflexivity.
  pose proof (le_value 1 x F1 F H) as Hv.
  assert (V1 : value 1 = 1).
  { rewrite (scaled_value 1 (Zpos grain)) by (vm_compute; reflexivity).
    rewrite grain_value. apply p2_cancel. }
  rewrite V1 in Hv.
  revert F Hv. rewrite is_finite_spec. unfold value.
  destruct (Prim2SF x) as [sign|sign| |sign m e]; cbn [SF2R finiteSF];
    try discriminate; intros _ Hv; [lra |].
  pose proof (finite_F2R m e).
  destruct sign; [lra |]. exists m. exists e. split; [reflexivity | exact Hv].
Qed.

Lemma value_below (x : float) : is_finite x = true -> value x < p2 1024.
Proof.
  rewrite is_finite_spec. unfold value.
  pose proof (Prim2SF_valid x) as V.
  destruct (Prim2SF x) as [sign|sign| |sign m e]; cbn [SF2R finiteSF];
    try discriminate; intros _; try apply p2_pos.
  pose proof (finite_F2R m e) as P.
  destruct sign; [pose proof (p2_pos 1024); lra |].
  pose proof V as V'. apply valid_finite in V'. destruct V' as (_ & Hm & _).
  cbn [SpecFloat.valid_binary] in V. unfold bounded in V.
  apply andb_prop in V. destruct V as [_ V]. apply Z.leb_le in V.
  change (emax - prec)%Z with 971%Z in V.
  apply IZR_lt in Hm. rewrite p2_IZR in Hm by lia.
  apply p2_le in V. pose proof (p2_pos e).
  replace 1024%Z with (53 + 971)%Z by lia. rewrite p2_add.
  unfold F2R. pose proof (p2_pos 53). nra.
Qed.

(** The last place of a finite number, against the number itself. *)
Lemma ulp_bound (sign : bool) (m : positive) (e : Z) :
  valid_binary (S754_finite sign m e) = true ->
  p2 e <= F2R (Zpos m) e * p2 (-52) \/
  (e = (-1074)%Z /\ F2R (Zpos m) e < p2 (-1021)).
Proof.
  intro V. apply valid_finite in V. destruct V as (He & Hm & Hn).
  pose proof (p2_pos e) as P.
  destruct (Z.eq_dec e (-1074)) as [-> | Ne].
  - right. split; [reflexivity |].
    apply IZR_lt in Hm. rewrite p2_IZR in Hm by lia.
    replace (-1021)%Z with (53 + -1074)%Z by lia. rewrite p2_add.
    unfold F2R. nra.
  - left. specialize (Hn ltac:(lia)). apply IZR_le in Hn.
    rewrite p2_IZR in Hn by lia.
    pose proof (p2_cancel 52) as C. pose proof (p2_pos (-52)) as P'.
    change (- (52))%Z with (-52)%Z in C.
    assert (1 <= IZR (Zpos m) * p2 (-52)) by nra.
    unfold F2R. nra.
Qed.

(** *** Quotient, square root and product of positive numbers

    [value] is the exact value of the result, the right-hand sides are the
    exact quotient, square root and product of the values of the
    operands. *)

Lemma half_step (e : Z) : / 2 * p2 e = p2 (e - 1).
Proof. symmetry. apply p2_pred. Qed.

Lemma div_upper (x y : float) (mx my : positive) (ex ey : Z) :
  Prim2SF x = S754_finite false mx ex ->
  Prim2SF y = S754_finite false my ey ->
  value x / value y < p2 971 ->
  is_finite (x / y) = true /\ 0 <= value (x / y) /\
  (value (x / y) * (1 - p2 (-53)) <= value x / value y \/
   value (x / y) < p2 (-1021)).
Proof.
  intros Ex Ey Hlt.
  pose proof (Prim2SF_valid (x / y)) as V.
  pose proof (div_core_bounds false false mx my ex ey) as H. cbv zeta in H.
  rewrite is_finite_spec. revert Hlt. unfold value. rewrite Ex, Ey.
  cbn [SF2R]. revert V H. rewrite div_spec, Ex, Ey. unfold SF64div.
  pose proof (finite_F2R mx ex) as Px. pose proof (finite_F2R my ey) as Py.
  assert (Pq : 0 < F2R (Zpos mx) ex / F2R (Zpos my) ey)
    by (apply Rdiv_lt_0_compat; assumption).
  destruct (SFdiv prec emax _ _) as [sign|sign| |sign mf ef];
    intros V H Hlt; cbn [SF2R finiteSF].
  - split; [reflexivity |]. split; [lra |]. left. lra.
  - destruct H as [_ H]. lra.
  - destruct H.
  - destruct H as [-> [_ H]]. cbn [xorb].
    pose proof (finite_F2R mf ef) as Pf.
    split; [reflexivity |]. split; [lra |].
    destruct (ulp_bound _ _ _ V) as [U | [_ U]]; [left | right; exact U].
    pose proof (half_step (-52)) as Hh.
    change (-52 - 1)%Z with (-53)%Z in Hh. nra.
Qed.

Lemma sqrt_upper (y : float) (m : positive) (e : Z) :
  Prim2SF y = S754_finite false m e ->
  is_finite (sqrt y) = true /\ 0 <= value (sqrt y) /\
  (value (sqrt y) * (1 - p2 (-53)) <= R_sqrt.sqrt (value y) \/
   value (sqrt y) < p2 (-1021)).
Proof.
  intros Ey.
  pose proof (Prim2SF_valid (sqrt y)) as V.
  pose proof (sqrt_core_bounds m e) as H. cbv zeta in H.
  assert (Fy : is_finite y = true) by (rewrite is_finite_spec, Ey; reflexivity).
  pose proof (value_below y Fy) as Hb.
  rewrite is_finite_spec. revert Hb. unfold value. rewrite Ey.
  cbn [SF2R]. revert V H. rewrite sqrt_spec, Ey. unfold SF64sqrt.
  pose proof (finite_F2R m e) as Py.
  destruct (SFsqrt prec emax _) as [sign|sign| |sign mf ef];
    intros V H Hb; cbn [SF2R finiteSF].
  - split; [reflexivity |]. split; [lra |]. left.
    rewrite Rmult_0_l. apply sqrt_pos.
  - exfalso. destruct H as [_ H].
    assert (S : R_sqrt.sqrt (F2R (Zpos m) e) < p2 512).
    { rewrite <- (sqrt_square (p2 512)) by (apply Rlt_le, p2_pos).
      apply sqrt_lt_1_alt. rewrite <- p2_add. split; [lra | exact Hb]. }
    assert (p2 512 < p2 971) by (apply p2_lt; lia). lra.
  - destruct H.
  - destruct H as [-> [_ H]].
    pose proof (finite_F2R mf ef) as Pf.
    split; [reflexivity |]. split; [lra |].
    destruct (ulp_bound _ _ _ V) as [U | [_ U]]; [left | right; exact U].
    pose proof (half_step (-52)) as Hh.
    change (-52 - 1)%Z with (-53)%Z in Hh. nra.
Qed.

Lemma mul_lower (w h : float) (sw sh : bool) (mw mh : positive) (ew eh : Z) :
  Prim2SF w = S754_finite sw mw ew ->
  Prim2SF h = S754_finite sh mh eh ->
  xorb sw sh = false ->
  le 0 (w * h) /\
  (is_finite (w * h) = true ->
   value w * value h <= value (w * h) * (1 + p2 (-51)) \/
   value w * value h < p2 (-1020)).
Proof.
  intros Ew Eh Hs.
  pose proof (Prim2SF_valid (w * h)) as V.
  pose proof (mul_core_bounds sw sh mw mh ew eh) as H. cbv zeta in H.
  rewrite Hs in H.
  assert (Ex : value w * value h = F2R (Zpos mw) ew * F2R (Zpos mh) eh).
  { unfold value. rewrite Ew, Eh. cbn [SF2R].
    destruct sw, sh; try discriminate; ring. }
  rewrite Ex. unfold le. rewrite leb_spec, is_finite_spec.
  change (Prim2SF 0) with (S754_zero false).
  unfold value at 1. revert V H. rewrite mul_spec, Ew, Eh. unfold SF64mul.
  destruct (SFmul prec emax _ _) as [sign|sign| |sign mf ef];
    intros V H; cbn [SF2R finiteSF].
  - split; [reflexivity |]. intros _. right. destruct H as [_ H].
    assert (p2 (-1075) < p2 (-1020)) by (apply p2_lt; lia). lra.
  - destruct H as [-> _]. split; [reflexivity | discriminate].
  - destruct H.
  - destruct H as [-> H]. split; [reflexivity |]. intros _.
    pose proof (finite_F2R mf ef) as Pf.
    pose proof (p2_pred (-51)) as Hh. change (-51 - 1)%Z with (-52)%Z in Hh.
    destruct (ulp_bound _ _ _ V) as [U | [-> U]]; [left; nra | right].
    assert (L1 : p2 (-1074) < p2 (-1022)) by (apply p2_lt; lia).
    pose proof (p2_pred (-1021)) as H1. change (-1021 - 1)%Z with (-1022)%Z in H1.
    pose proof (p2_pred (-1020)) as H2. change (-1020 - 1)%Z with (-1021)%Z in H2.
    pose proof (p2_pos (-1020)). lra.
Qed.

End Rounding64.

(** ** The consolidation engine in binary64

    The functions of [Geometry] with the arithmetic of the source: every
    sum, difference and product is rounded, [pageNumber] is a number, and
    [Math.min] and [Math.max] propagate [NaN]. *)

Module Geometry64.

Import Floats Binary64.
#[local] Open Scope float_scope.
#[local] Set Warnings "-inexact-float".

Record HighlightRect : Type := mkRect {
  top : float;
  left : float;
  width : float;
  height : float;
  pageNumber : float
}.

Definition MERGE_THRESHOLD : float := 2.

Definition shouldMergeRects (rect1 rect2 : HighlightRect) : bool :=
  let verticalOverlap :=
    negb ((top rect2 + height rect2 <? top rect1)
          || (top rect1 + height rect1 <? top rect2)) in
  let horizontallyConnected :=
    (abs (left rect1 + width rect1 - left rect2) <=? MERGE_THRESHOLD)
    || (abs (left rect2 + width rect2 - left rect1) <=? MERGE_THRESHOLD)
    || ((left rect1 <? left rect2 + width rect2)
        && (left rect2 <? left rect1 + width rect1)) in
  verticalOverlap && horizontallyConnected.

Definition doRectsOverlap (rect1 rect2 : HighlightRect) : bool :=
  let horizontalOverlap :=
    (left rect1 <? left rect2 + width rect2)
    && (left rect2 <? left rect1 + width rect1) in
  let verticalOverlap :=
    (top rect1 <? top rect2 + height rect2)
    && (top rect2 <? top rect1 + height rect1) in
  let closeEnough := shouldMergeRects rect1 rect2 in
  (horizontalOverlap && verticalOverlap) || closeEnough.

Definition growBox (acc : float * float * float * float)
    (rect : HighlightRect) : float * float * float * float :=
  let '(minLeft, minTop, maxRight, maxBottom) := acc in
  (Math_min minLeft (left rect),
   Math_min minTop (top rect),
   Math_max maxRight (left rect + width rect),
   Math_max maxBottom (top rect + height rect)).

Definition mergeRectGroup (rects : list HighlightRect) : result HighlightRect :=
  match rects with
  | [rect] => Returned rect
  | [] => Thrown "Invalid first rect in group"
  | firstRect :: _ =>
      let '(minLeft, minTop, maxRight, maxBottom) :=
        fold_left growBox rects
          (left firstRect, top firstRect,
           left firstRect + width firstRect,
           top firstRect + height firstRect) in
      Returned {| left := minLeft;
                  top := minTop;
                  width := maxRight - minLeft;
                  height := maxBottom - minTop;
                  pageNumber := pageNumber firstRect |}
  end.

Definition compareHighlights (a b : HighlightRect) : float :=
  let pageCompare := pageNumber a - pageNumber b in
  if negb (pageCompare =? 0) then pageCompare
  else
    let topDiff := top a - top b in
    if abs topDiff <? 2 then left a - left b else topDiff.

Section Sort.
Context {A : Type}.
Variable compareFn : A -> A -> float.

(** The sort reads a comparator result [v] as [+0] when it is [NaN]. *)
Definition notAfter (x y : A) : bool :=
  let v := compareFn x y in is_nan v || (v <=? 0).

Fixpoint insertSorted (x : A) (l : list A) : list A :=
  match l with
  | [] => [x]
  | y :: l' =>
      if notAfter x y then x :: y :: l'
      else y :: insertSorted x l'
  end.

Definition sortBy (l : list A) : list A :=
  fold_right insertSorted [] l.
End Sort.

Definition horizontallyConnected (current next : HighlightRect) : bool :=
  let samePageAndLine :=
    (pageNumber current =? pageNumber next)
    && (abs (top current - top next)
        <? Math_max (height current) (height next) * 0.5) in
  samePageAndLine
  && ((abs (left current + width current - left next) <=? MERGE_THRESHOLD)
      || (abs (left next + width next - left current) <=? MERGE_THRESHOLD)
      || ((left current <? left next + width next)
          && (left next <? left current + width current))
      || (abs (left current + width current - left next)
          <=? height current * 0.2)).

Definition mergeTwo (current next : HighlightRect) : HighlightRect :=
  let newLeft := Math_min (left current) (left next) in
  let newRight :=
    Math_max (left current + width current) (left next + width next) in
  let newTop := Math_min (top current) (top next) in
  let newBottom :=
    Math_max (top current + height current) (top next + height next) in
  {| left := newLeft;
     top := newTop;
     width := newRight - newLeft;
     height := newBottom - newTop;
     pageNumber := pageNumber current |}.

Fixpoint mergeLoop (current : HighlightRect) (rest : list HighlightRect)
    (consolidated : list HighlightRect) : list HighlightRect :=
  match rest with
  | [] => consolidated ++ [current]
  | next :: rest' =>
      if horizontallyConnected current next
      then mergeLoop (mergeTwo current next) rest' consolidated
      else mergeLoop next rest' (consolidated ++ [current])
  end.

(** The comparator is not a consistent order (rects whose tops differ by
    less than 2 are compared by their left edges), and the order in which
    [Array.prototype.sort] leaves an array is then the engine's choice among
    the permutations of the array.  [sort] stands for
    [rects => [...rects].sort(compareHighlights)]. *)
Definition consolidateHighlightRectsWith
    (sort : list HighlightRect -> list HighlightRect)
    (rects : list HighlightRect) : list HighlightRect :=
  if (length rects <=? 1)%nat then rects
  else
    match sort rects with
    | [] => rects
    | current :: rest => mergeLoop current rest []
    end.

(** The function with the insertion sort above as its sort. *)
Definition consolidateHighlightRects (rects : list HighlightRect)
  : list HighlightRect :=
  consolidateHighlightRectsWith (sortBy compareHighlights) rects.

Definition sweepStep (rects : list HighlightRect)
    (st : list nat * list HighlightRect * bool) (j : nat)
  : list nat * list HighlightRect * bool :=
  let '(visited, currentGroup, foundNew) := st in
  if Geometry.has visited j then st
  else
    match nth_error rects j with
    | None => st
    | Some candidateRect =>
        let shouldMergeWithGroup :=
          existsb (fun groupRect => doRectsOverlap groupRect candidateRect)
                  currentGroup in
        if shouldMergeWithGroup
        then (j :: visited, currentGroup ++ [candidateRect], true)
        else st
    end.

Definition sweep (rects : list HighlightRect) (visited : list nat)
    (currentGroup : list HighlightRect)
  : list nat * list HighlightRect * bool :=
  fold_left (sweepStep rects) (seq 0 (length rects))
            (visited, currentGroup, false).

Fixpoint closure (fuel : nat) (rects : list HighlightRect)
    (visited : list nat) (currentGroup : list HighlightRect)
  : result (list nat * list HighlightRect) :=
  match fuel with
  | O => OutOfFuel
  | S fuel' =>
      let '(visited', currentGroup', foundNew) :=
        sweep rects visited currentGroup in
      if foundNew then closure fuel' rects visited' currentGroup'
      else Returned (visited', currentGroup')
  end.

Definition outerStep (rects : list HighlightRect)
    (st : result (list nat * list HighlightRect)) (i : nat)
  : result (list nat * list HighlightRect) :=
  '(visited, out) <- st ;;
  if Geometry.has visited i then Returned (visited, out)
  else
    match nth_error rects i with
    | None => Returned (visited, out)
    | Some currentRect =>
        '(visited', currentGroup) <-
          closure (S (length rects)) rects (i :: visited) [currentRect] ;;
        merged <- mergeRectGroup currentGroup ;;
        Returned (visited', out ++ [merged])
    end.

Definition consolidateRects (rects : list HighlightRect)
  : result (list HighlightRect) :=
  if (length rects <=? 1)%nat then Returned rects
  else
    '(_, out) <-
      fold_left (outerStep rects) (seq 0 (length rects)) (Returned ([], [])) ;;
    Returned out.

(** *** The sort permutes *)

Section SortFacts.
Context {A : Type}.
Variable compareFn : A -> A -> float.

Lemma insertSorted_permutes (x : A) (l : list A) :
  Permutation (insertSorted compareFn x l) (x :: l).
Proof.
  induction l as [|y l IH]; cbn.
  - apply Permutation_refl.
  - destruct (notAfter compareFn x y).
    + apply Permutation_refl.
    + eapply perm_trans; [apply perm_skip, IH | apply perm_swap].
Qed.

Lemma sortBy_permutes (l : list A) : Permutation (sortBy compareFn l) l.
Proof.
  induction l as [|x l IH]; cbn.
  - apply perm_nil.
  - eapply perm_trans; [apply insertSorted_permutes | apply perm_skip, IH].
Qed.
End SortFacts.

(** *** Runs of [consolidateHighlightRects] *)

(** [a.pageNumber === b.pageNumber]. *)
Definition samePage (a b : HighlightRect) : Prop :=
  (pageNumber a =? pageNumber b) = true.

(** [o] is what the loop makes of the run [g] of the sorted array: the
    first rect of [g] merged with the others in turn, all of them on the
    page of the first. *)
Definition mergedRun (o : HighlightRect) (g : list HighlightRect) : Prop :=
  exists first rest,
    g = first :: rest /\ o = fold_left mergeTwo rest first /\
    Forall (samePage first) rest.

Lemma mergeTwo_page (rest : list HighlightRect) (first : HighlightRect) :
  pageNumber (fold_left mergeTwo rest first) = pageNumber first.
Proof.
  revert first. induction rest as [|next rest IH]; intro first; cbn.
  - reflexivity.
  - rewrite IH. reflexivity.
Qed.

Lemma connected_samePage (current next : HighlightRect) :
  horizontallyConnected current next = true ->
  (pageNumber current =? pageNumber next) = true.
Proof.
  unfold horizontallyConnected. intro H.
  apply andb_prop in H. destruct H as [H _].
  apply andb_prop in H. tauto.
Qed.

Lemma mergeLoop_runs (rest : list HighlightRect) :
  forall first absorbed consolidated groups,
    Forall2 mergedRun consolidated groups ->
    Forall (samePage first) absorbed ->
    exists groups',
      Forall2 mergedRun
        (mergeLoop (fold_left mergeTwo absorbed first) rest consolidated)
        groups' /\
      concat groups' = concat groups ++ (first :: absorbed) ++ rest.
Proof.
  induction rest as [|next rest IH];
    intros first absorbed consolidated groups Hdone Hpages; cbn [mergeLoop].
  - exists (groups ++ [first :: absorbed]). split.
    + apply Forall2_app; [exact Hdone |].
      constructor; [| constructor]. exists first, absorbed. auto.
    + rewrite concat_app. cbn. now rewrite !app_nil_r.
  - destruct (horizontallyConnected _ next) eqn:E.
    + apply connected_samePage in E. rewrite mergeTwo_page in E.
      destruct (IH first (absorbed ++ [next]) consolidated groups Hdone)
        as (groups' & H1 & H2).
      { apply Forall_app. split; [exact Hpages |]. constructor; [exact E |].
        constructor. }
      rewrite fold_left_app in H1. cbn [fold_left] in H1.
      exists groups'. split; [exact H1 |].
      rewrite H2. cbn. now rewrite <- !app_assoc.
    + destruct (IH next [] (consolidated ++ [fold_left mergeTwo absorbed first])
                  (groups ++ [first :: absorbed])) as (groups' & H1 & H2).
      { apply Forall2_app; [exact Hdone |].
        constructor; [| constructor]. exists first, absorbed. auto. }
      { constructor. }
      exists groups'. split; [exact H1 |].
      rewrite H2, concat_app. cbn. now rewrite !app_nil_r, <- !app_assoc.
Qed.

Lemma mergeLoop_count (rest : list HighlightRect) :
  forall current consolidated,
    (length (mergeLoop current rest consolidated)
     <= length consolidated + S (length rest))%nat /\
    (length (mergeLoop current rest consolidated)
     = (length consolidated + S (length rest))%nat ->
     mergeLoop current rest consolidated = consolidated ++ current :: rest).
Proof.
  induction rest as [|next rest IH]; intros current consolidated;
    cbn [mergeLoop length].
  - rewrite length_app. cbn. split; [lia | reflexivity].
  - destruct (horizontallyConnected current next).
    + destruct (IH (mergeTwo current next) consolidated) as [H _].
      split; [lia | intro E; lia].
    + destruct (IH next (consolidated ++ [current])) as [H1 H2].
      rewrite length_app in *. cbn [length] in *.
      split; [lia |]. intro E. rewrite H2 by lia.
      now rewrite <- app_assoc.
Qed.

(** *** Where a merged rect starts *)

(** No coordinate and no edge of [r] is [NaN]. *)
Definition measured (r : HighlightRect) : Prop :=
  number (left r) /\ number (top r) /\
  number (left r + width r) /\ number (top r + height r).

(** [o] starts at or before [r] on both axes. *)
Definition startsBefore (o r : HighlightRect) : Prop :=
  le (left o) (left r) /\ le (top o) (top r).

Lemma startsBefore_refl (r : HighlightRect) :
  number (left r) -> number (top r) -> startsBefore r r.
Proof. intros H1 H2. split; apply le_refl; assumption. Qed.

Lemma mergeTwo_starts (current next : HighlightRect) :
  number (left current) -> number (top current) ->
  number (left next) -> number (top next) ->
  number (left (mergeTwo current next)) /\
  number (top (mergeTwo current next)) /\
  startsBefore (mergeTwo current next) current /\
  startsBefore (mergeTwo current next) next.
Proof.
  intros Hl Ht Hl' Ht'. unfold startsBefore, mergeTwo. cbn.
  destruct (Math_min_spec _ _ Hl Hl') as (_ & A1 & A2).
  destruct (Math_min_spec _ _ Ht Ht') as (_ & B1 & B2).
  split; [apply Math_min_number; assumption |].
  split; [apply Math_min_number; assumption |]. tauto.
Qed.

Lemma foldMerge_starts (rest : list HighlightRect) :
  forall first,
    number (left first) -> number (top first) ->
    Forall measured rest ->
    startsBefore (fold_left mergeTwo rest first) first /\
    forall r, In r rest -> startsBefore (fold_left mergeTwo rest first) r.
Proof.
  induction rest as [|next rest IH]; intros first Hl Ht Hrest; cbn [fold_left].
  - split; [apply startsBefore_refl; assumption | intros r []].
  - inversion Hrest as [|? ? (Hl' & Ht' & _) Hrest']; subst.
    destruct (mergeTwo_starts first next Hl Ht Hl' Ht')
      as (Ml & Mt & (A1 & A2) & (B1 & B2)).
    destruct (IH (mergeTwo first next) Ml Mt Hrest') as ((C1 & C2) & Hall).
    split.
    + split; eapply le_trans; eassumption.
    + intros r [<- | Hr]; [| apply Hall, Hr].
      split; eapply le_trans; eassumption.
Qed.

(** *** The loops of [consolidateRects] *)

(** The number of indices below [n] outside [visited]: the variant of the
    [while (foundNew)] loop. *)
Definition pending (n : nat) (visited : list nat) : nat :=
  length (filter (fun j => negb (Geometry.has visited j)) (seq 0 n)).

Lemma pending_visit (n : nat) (visited : list nat) (j : nat) :
  Geometry.has visited j = false -> (j < n)%nat ->
  (pending n (j :: visited) < pending n visited)%nat.
Proof.
  intros Hj Hlt. unfold pending.
  apply Geometry.filter_length_strict with (a := j).
  - intros x. unfold Geometry.has. cbn. rewrite !negb_true_iff.
    intro Hx. apply orb_false_elim in Hx. tauto.
  - apply in_seq. lia.
  - now rewrite Hj.
  - unfold Geometry.has. cbn. now rewrite Nat.eqb_refl.
Qed.

Lemma filter_none {A} (p : A -> bool) (l : list A) :
  (forall x, In x l -> p x = false) -> filter p l = [].
Proof.
  induction l as [|x l IH]; cbn; intro H; [reflexivity |].
  rewrite (H x (or_introl eq_refl)). apply IH. intros y Hy. apply H. now right.
Qed.

Lemma pending_all (n : nat) (visited : list nat) :
  (forall j, (j < n)%nat -> In j visited) -> pending n visited = 0%nat.
Proof.
  intro H. unfold pending. rewrite filter_none; [reflexivity |].
  intros j Hj. apply in_seq in Hj. apply negb_false_iff.
  apply Geometry.has_true, H. lia.
Qed.

(** What the inner loops may do to [visited] and [currentGroup]: visit an
    index that was not visited and push its rect, any number of times. *)
Inductive grows (rects : list HighlightRect)
    (v : list nat) (g : list HighlightRect)
  : list nat -> list HighlightRect -> Prop :=
| grows_none : grows rects v g v g
| grows_more v' g' j r :
    grows rects v g v' g' ->
    Geometry.has v' j = false -> nth_error rects j = Some r ->
    grows rects v g (j :: v') (g' ++ [r]).

Lemma grows_trans rects v g v1 g1 v2 g2 :
  grows rects v g v1 g1 -> grows rects v1 g1 v2 g2 -> grows rects v g v2 g2.
Proof.
  intros H1 H2. induction H2 as [|v' g' j r _ IH Hj Hr]; [exact H1 |].
  apply grows_more; assumption.
Qed.

(** The rects pushed by a run of the inner loops. *)
Lemma grows_added rects v g v' g' :
  grows rects v g v' g' ->
  exists added,
    g' = g ++ added /\ incl added rects /\ incl v v' /\
    (pending (length rects) v' + length added
     <= pending (length rects) v)%nat /\
    (added = [] -> v' = v) /\
    (forall j, In j v' ->
       In j v \/ exists r, nth_error rects j = Some r /\ In r added).
Proof.
  induction 1 as [|v' g' j r _ (added & Eg & Hin & Hv & Hp & Hnil & Hnew) Hj Hr].
  - exists []. rewrite app_nil_r. split; [reflexivity |].
    split; [intros ? [] |]. split; [apply incl_refl |].
    split; [cbn; lia |]. split; [reflexivity |]. intros j Hj. now left.
  - exists (added ++ [r]). subst g'. rewrite <- app_assoc.
    split; [reflexivity |]. split.
    { apply incl_app; [exact Hin |]. intros x [<- | []].
      eapply nth_error_In; eassumption. }
    split; [apply incl_tl, Hv |]. split.
    { assert (Hlt : (j < length rects)%nat)
        by (apply nth_error_Some; congruence).
      pose proof (pending_visit (length rects) v' j Hj Hlt).
      rewrite length_app. cbn. lia. }
    split; [intro E; destruct added; discriminate |].
    intros i [<- | Hi].
    + right. exists r. split; [exact Hr | apply in_or_app; right; now left].
    + destruct (Hnew i Hi) as [H' | (x & Hx & Hx')]; [now left |].
      right. exists x. split; [exact Hx | apply in_or_app; now left].
Qed.

Lemma sweepStep_grows rects v g f j v' g' f' :
  sweepStep rects (v, g, f) j = (v', g', f') ->
  grows rects v g v' g' /\
  ((v' = v /\ g' = g /\ f' = f) \/
   (f' = true /\
    (pending (length rects) v' < pending (length rects) v)%nat)).
Proof.
  unfold sweepStep. destruct (Geometry.has v j) eqn:Eh.
  { intro E; inversion E; subst. split; [constructor | now left]. }
  destruct (nth_error rects j) as [cand|] eqn:En.
  2:{ intro E; inversion E; subst. split; [constructor | now left]. }
  destruct (existsb _ g).
  2:{ intro E; inversion E; subst. split; [constructor | now left]. }
  intro E; inversion E; subst. split.
  - apply grows_more; [constructor | exact Eh | exact En].
  - right. split; [reflexivity |]. apply pending_visit; [exact Eh |].
    apply nth_error_Some. congruence.
Qed.

Lemma sweepFold_grows rects (js : list nat) :
  forall v g f v' g' f',
    fold_left (sweepStep rects) js (v, g, f) = (v', g', f') ->
    grows rects v g v' g' /\
    ((v' = v /\ g' = g /\ f' = f) \/
     (f' = true /\
      (pending (length rects) v' < pending (length rects) v)%nat)).
Proof.
  induction js as [|j js IH]; intros v g f v' g' f' E; cbn [fold_left] in E.
  - inversion E; subst. split; [constructor | now left].
  - destruct (sweepStep rects (v, g, f) j) as [[v1 g1] f1] eqn:E1.
    apply sweepStep_grows in E1. apply IH in E.
    destruct E1 as (G1 & M1), E as (G2 & M2).
    split; [eapply grows_trans; eassumption |].
    destruct M1 as [(-> & -> & ->) | (-> & Hlt1)]; [exact M2 |].
    right. destruct M2 as [(-> & -> & ->) | (-> & Hlt)];
      (split; [reflexivity | lia]).
Qed.

(** The [while] loop ends: every pass that finds something visits a new
    index. *)
Lemma closure_grows rects (fuel : nat) :
  forall v g, (pending (length rects) v < fuel)%nat ->
    exists v' g', closure fuel rects v g = Returned (v', g') /\
                  grows rects v g v' g'.
Proof.
  induction fuel as [|fuel IH]; intros v g Hlt; [lia |].
  cbn [closure]. destruct (sweep rects v g) as [[v1 g1] f1] eqn:E.
  apply sweepFold_grows in E. destruct E as (G & M).
  destruct f1.
  - destruct M as [(_ & _ & Hf) | (_ & Hm)]; [discriminate |].
    destruct (IH v1 g1) as (v' & g' & Hc & G'); [lia |].
    exists v', g'. split; [exact Hc | eapply grows_trans; eassumption].
  - exists v1, g1. split; [reflexivity | exact G].
Qed.

Lemma pending_bound (n : nat) (visited : list nat) :
  (pending n visited <= n)%nat.
Proof.
  unfold pending.
  etransitivity; [apply filter_length_le | now rewrite length_seq].
Qed.

(** *** What [mergeRectGroup] returns *)

Lemma growBox_edges (rects : list HighlightRect) :
  forall l0 t0 r0 b0 l t r b,
    number l0 -> number t0 -> number r0 -> number b0 ->
    Forall measured rects ->
    fold_left growBox rects (l0, t0, r0, b0) = (l, t, r, b) ->
    (le l l0 /\ le t t0 /\ le r0 r /\ le b0 b) /\
    forall x, In x rects ->
      le l (left x) /\ le t (top x) /\
      le (left x + width x) r /\ le (top x + height x) b.
Proof.
  induction rects as [|y rects IH];
    intros l0 t0 r0 b0 l t r b Nl Nt Nr Nb Hall E.
  - cbn in E. inversion E; subst.
    split; [| intros x []].
    repeat split; apply le_refl; assumption.
  - inversion Hall as [|? ? (Yl & Yt & Yr & Yb) Hall']; subst.
    cbn [fold_left growBox] in E.
    destruct (Math_min_spec _ _ Nl Yl) as (_ & A1 & A2).
    destruct (Math_min_spec _ _ Nt Yt) as (_ & B1 & B2).
    destruct (Math_max_spec _ _ Nr Yr) as (_ & C1 & C2).
    destruct (Math_max_spec _ _ Nb Yb) as (_ & D1 & D2).
    apply IH in E; try assumption;
      try (apply Math_min_number; assumption);
      try (apply Math_max_number; assumption).
    destruct E as ((Hl & Ht & Hr & Hb) & Hin).
    split.
    + repeat split; eapply le_trans; eassumption.
    + intros x [<- | Hx]; [| apply Hin, Hx].
      repeat split; eapply le_trans; eassumption.
Qed.

(** [o] starts at or before [r], and is [r] itself or has a width and a
    height taken from a right and a bottom edge that are not before the
    edges of [r]. *)
Definition boxes (o r : HighlightRect) : Prop :=
  startsBefore o r /\
  (o = r \/
   exists maxRight maxBottom,
     width o = maxRight - left o /\ height o = maxBottom - top o /\
     le (left r + width r) maxRight /\ le (top r + height r) maxBottom).

Lemma mergeRectGroup_boxes (firstRect : HighlightRect)
    (others : list HighlightRect) :
  exists m,
    mergeRectGroup (firstRect :: others) = Returned m /\
    pageNumber m = pageNumber firstRect /\
    (Forall measured (firstRect :: others) ->
     forall r, In r (firstRect :: others) -> boxes m r).
Proof.
  destruct others as [|second others].
  - exists firstRect. split; [reflexivity |]. split; [reflexivity |].
    intros Hall r [<- | []]. inversion Hall as [|? ? (Hl & Ht & _) _]; subst.
    split; [apply startsBefore_refl; assumption | now left].
  - unfold mergeRectGroup.
    destruct (fold_left growBox (firstRect :: second :: others) _)
      as [[[l t] r] b] eqn:E.
    eexists. split; [reflexivity |]. split; [reflexivity |].
    intros Hall x Hx.
    inversion Hall as [|? ? (Hl & Ht & Hr & Hb) _]; subst.
    apply growBox_edges in E; try assumption.
    destruct E as (_ & Hin). destruct (Hin x Hx) as (H1 & H2 & H3 & H4).
    split; [split; assumption |]. right. exists r, b. cbn. auto.
Qed.

Lemma firstn_next {A} (l : list A) (k : nat) (x : A) :
  nth_error l k = Some x -> firstn (S k) l = firstn k l ++ [x].
Proof.
  revert k. induction l as [|y l IH]; intros [|k] H; cbn in *;
    try discriminate.
  - now inversion H.
  - f_equal. apply IH, H.
Qed.

(** *** The outer loop *)

Record outerInv (rects : list HighlightRect)
    (visited : list nat) (out : list HighlightRect) : Prop := {
  inv_groups : forall o, In o out ->
      exists firstRect others,
        mergeRectGroup (firstRect :: others) = Returned o /\
        incl (firstRect :: others) rects;
  inv_visited : forall j r,
      In j visited -> nth_error rects j = Some r ->
      exists o firstRect others,
        In o out /\ mergeRectGroup (firstRect :: others) = Returned o /\
        In r (firstRect :: others) /\ incl (firstRect :: others) rects;
  inv_count :
      (length out + pending (length rects) visited <= length rects)%nat;
  inv_untouched :
      (length out + pending (length rects) visited = length rects)%nat ->
      out = firstn (length out) rects /\
      forall j, In j visited <-> (j < length out)%nat
}.

Lemma outerStep_keeps rects visited out i :
  outerInv rects visited out ->
  (forall j, (j < i)%nat -> (j < length rects)%nat -> In j visited) ->
  exists visited' out',
    outerStep rects (Returned (visited, out)) i = Returned (visited', out') /\
    outerInv rects visited' out' /\
    incl visited visited' /\
    ((i < length rects)%nat -> In i visited').
Proof.
  intros [Hgroups Hvisited Hcount Hsame] Hseen. unfold outerStep, bind.
  destruct (Geometry.has visited i) eqn:Eh.
  { exists visited, out. split; [reflexivity |].
    split; [constructor; assumption |]. split; [apply incl_refl |].
    intros _. now apply Geometry.has_true. }
  destruct (nth_error rects i) as [currentRect|] eqn:En.
  2:{ exists visited, out. split; [reflexivity |].
      split; [constructor; assumption |]. split; [apply incl_refl |].
      intro Hlt. apply nth_error_None in En. lia. }
  assert (Hi : (i < length rects)%nat) by (apply nth_error_Some; congruence).
  destruct (closure_grows rects (S (length rects)) (i :: visited)
              [currentRect]) as (v1 & g1 & Hc & G).
  { pose proof (pending_bound (length rects) (i :: visited)). lia. }
  rewrite Hc.
  destruct (grows_added _ _ _ _ _ G)
    as (added & -> & Hadded & Hincl & Hp & Hnil & Hnew).
  cbn [app].
  destruct (mergeRectGroup_boxes currentRect added) as (m & Hm & _).
  rewrite Hm.
  assert (Hgroup : incl (currentRect :: added) rects).
  { intros x [<- | Hx]; [eapply nth_error_In; eassumption | apply Hadded, Hx]. }
  pose proof (pending_visit (length rects) visited i Eh Hi) as Hdrop.
  exists v1, (out ++ [m]). split; [reflexivity |].
  split; [| split].
  - constructor.
    + intros o Ho. apply in_app_or in Ho. destruct Ho as [Ho | [<- | []]].
      * apply Hgroups, Ho.
      * exists currentRect, added. auto.
    + intros j r Hj Hr.
      assert (Hnow : exists o firstRect others,
                 In o (out ++ [m]) /\
                 mergeRectGroup (firstRect :: others) = Returned o /\
                 In r (firstRect :: others) /\
                 incl (firstRect :: others) rects
                 \/ In j visited).
      { destruct (Hnew j Hj) as [[<- | Hv] | (x & Hx & Hx')].
        - exists m, currentRect, added. left.
          split; [apply in_or_app; right; now left |].
          split; [exact Hm |]. split; [left; congruence | exact Hgroup].
        - exists m, currentRect, added. now right.
        - exists m, currentRect, added. left.
          split; [apply in_or_app; right; now left |].
          split; [exact Hm |]. split; [right; congruence | exact Hgroup]. }
      destruct Hnow as (o & f & os & [H | Hv]).
      * exists o, f, os. exact H.
      * destruct (Hvisited j r Hv Hr) as (o' & f' & os' & Ho' & H').
        exists o', f', os'. split; [apply in_or_app; now left | exact H'].
    + rewrite length_app. cbn [length]. lia.
    + rewrite length_app. cbn [length]. intro E.
      assert (Ea : added = []) by (destruct added; [reflexivity | cbn in Hp; lia]).
      subst added. rewrite (Hnil eq_refl) in *.
      cbn in Hm. inversion Hm; subst m.
      destruct Hsame as (Hout & Hidx); [cbn in Hp; lia |].
      assert (Ei : i = length out).
      { apply Geometry.has_false in Eh.
        destruct (Nat.lt_trichotomy i (length out)) as [H | [H | H]];
          [exfalso; apply Eh, Hidx, H | exact H |].
        exfalso. assert (Hin : In (length out) visited)
          by (apply Hseen; [exact H | lia]).
        apply Hidx in Hin. lia. }
      split.
      * replace (length out + 1)%nat with (S (length out)) by lia.
        rewrite (firstn_next rects (length out) currentRect) by congruence.
        now rewrite <- Hout.
      * intro j. cbn [In]. rewrite Hidx. lia.
  - intros j Hj. apply Hincl. now right.
  - intros _. apply Hincl. now left.
Qed.

Lemma outerFold_keeps rects (count : nat) :
  forall start visited out,
    outerInv rects visited out ->
    (forall j, (j < start)%nat -> (j < length rects)%nat -> In j visited) ->
    exists visited' out',
      fold_left (outerStep rects) (seq start count) (Returned (visited, out))
        = Returned (visited', out') /\
      outerInv rects visited' out' /\
      (forall j, (j < start + count)%nat -> (j < length rects)%nat ->
                 In j visited').
Proof.
  induction count as [|count IH]; intros start visited out Hinv Hseen.
  - exists visited, out. split; [reflexivity |]. split; [exact Hinv |].
    intros j Hj Hlt. apply Hseen; [lia | exact Hlt].
  - cbn [seq fold_left].
    destruct (outerStep_keeps rects visited out start Hinv Hseen)
      as (v1 & o1 & E1 & Hinv1 & Hincl1 & Hi).
    rewrite E1.
    destruct (IH (S start) v1 o1 Hinv1) as (v2 & o2 & E2 & Hinv2 & Hall).
    { intros j Hj Hlt. destruct (Nat.eq_dec j start) as [-> | Hne].
      - apply Hi, Hlt.
      - apply Hincl1, Hseen; [lia | exact Hlt]. }
    exists v2, o2. split; [exact E2 |]. split; [exact Hinv2 |].
    intros j Hj Hlt. apply Hall; [lia | exact Hlt].
Qed.

(** [consolidateRects] returns on every input.  Every rect of the result
    is what [mergeRectGroup] makes of a group of input rects; every input
    rect is in the group of a rect of the result; and the result is the
    input itself unless it has fewer rects. *)
Lemma consolidateRects_groups (rects : list HighlightRect) :
  exists out,
    consolidateRects rects = Returned out /\
    (forall o, In o out ->
       exists firstRect others,
         mergeRectGroup (firstRect :: others) = Returned o /\
         incl (firstRect :: others) rects) /\
    (forall r, In r rects ->
       exists o firstRect others,
         In o out /\ mergeRectGroup (firstRect :: others) = Returned o /\
         In r (firstRect :: others) /\ incl (firstRect :: others) rects) /\
    (out = rects \/ (length out < length rects)%nat).
Proof.
  unfold consolidateRects. destruct (length rects <=? 1)%nat.
  - exists rects. split; [reflexivity |]. split; [| split; [| now left]].
    + intros o Ho. exists o, []. split; [reflexivity |].
      intros x [<- | []]. exact Ho.
    + intros r Hr. exists r, r, []. split; [exact Hr |].
      split; [reflexivity |]. split; [now left |].
      intros x [<- | []]. exact Hr.
  - destruct (outerFold_keeps rects (length rects) 0%nat [] [])
      as (v & out & E & [Hgroups Hvisited Hcount Hsame] & Hall).
    { constructor.
      - intros o [].
      - intros j r [].
      - cbn. apply pending_bound.
      - intros _. split; [reflexivity |]. intro j. cbn. lia. }
    { intros j Hj. lia. }
    rewrite E. cbn [bind]. exists out. split; [reflexivity |].
    assert (Hdone : pending (length rects) v = 0%nat).
    { apply pending_all. intros j Hj. apply Hall; [lia | exact Hj]. }
    split; [exact Hgroups |]. split.
    + intros r Hr. apply In_nth_error in Hr. destruct Hr as (j & Hj).
      apply (Hvisited j r); [| exact Hj].
      apply Hall; [| apply nth_error_Some; congruence].
      cbn. apply nth_error_Some. congruence.
    + rewrite Hdone in *.
      destruct (Nat.eq_dec (length out) (length rects)) as [El | Hne];
        [left | right; lia].
      destruct Hsame as (Hout & _); [lia |].
      rewrite Hout, El. apply firstn_all.
Qed.

(** A sort, whatever order it chooses, returns the elements it was given. *)
Definition permutes (sort : list HighlightRect -> list HighlightRect) : Prop :=
  forall l, Permutation (sort l) l.

Lemma sortBy_compareHighlights_permutes : permutes (sortBy compareHighlights).
Proof. intro l. apply sortBy_permutes. Qed.

Lemma permutes_short (sort : list HighlightRect -> list HighlightRect)
    (l : list HighlightRect) :
  permutes sort -> (length l <= 1)%nat -> sort l = l.
Proof.
  intros Hs Hl. pose proof (Hs l) as Hp.
  destruct l as [|a [|b l]]; [| | cbn in Hl; lia].
  - apply Permutation_nil. apply Permutation_sym, Hp.
  - apply Permutation_length_1_inv. apply Permutation_sym, Hp.
Qed.

(** [consolidateHighlightRects] cuts its sorted input into runs and returns
    what the loop makes of each run. *)
Lemma consolidateHighlightRects_runs
    (sort : list HighlightRect -> list HighlightRect)
    (rects : list HighlightRect) :
  permutes sort ->
  exists groups,
    Forall2 mergedRun (consolidateHighlightRectsWith sort rects) groups /\
    Permutation (concat groups) rects.
Proof.
  intro Hsort.
  assert (Hself : exists groups,
             Forall2 mergedRun rects groups /\
             Permutation (concat groups) rects).
  { exists (map (fun r => [r]) rects). split.
    - induction rects as [|r rects IH]; constructor; [| exact IH].
      exists r, []. auto.
    - induction rects as [|r rects IH]; cbn; [constructor |].
      now constructor. }
  unfold consolidateHighlightRectsWith.
  destruct (length rects <=? 1)%nat; [exact Hself |].
  destruct (sort rects) as [|current rest] eqn:E; [exact Hself |].
  destruct (mergeLoop_runs rest current [] [] [])
    as (groups & H1 & H2); [constructor | constructor |].
  exists groups. split; [exact H1 |].
  rewrite H2. cbn. rewrite <- E. apply Hsort.
Qed.

(** A run of [consolidateHighlightRects] that merges nothing returns the
    sorted input; every other run returns fewer rects. *)
Lemma consolidateHighlightRects_shrinks
    (sort : list HighlightRect -> list HighlightRect)
    (rects : list HighlightRect) :
  permutes sort ->
  consolidateHighlightRectsWith sort rects = sort rects \/
  (length (consolidateHighlightRectsWith sort rects) < length rects)%nat.
Proof.
  intro Hsort. unfold consolidateHighlightRectsWith.
  destruct (Nat.leb_spec (length rects) 1) as [Hl | Hl];
    [left; symmetry; apply permutes_short; assumption |].
  pose proof (Permutation_length (Hsort rects)) as Hlen.
  destruct (sort rects) as [|current rest] eqn:E; [cbn in Hlen; lia |].
  destruct (mergeLoop_count rest current []) as [H1 H2].
  cbn [length] in *.
  destruct (Nat.eq_dec (length (mergeLoop current rest [])) (S (length rest)))
    as [El | Hne]; [left; apply H2, El | right; lia].
Qed.

Lemma Forall2_paired {A B} (R : A -> B -> Prop) (l : list A) (l' : list B)
    (y : B) :
  Forall2 R l l' -> In y l' -> exists x, In x l /\ R x y.
Proof.
  induction 1 as [|a b l l' Hab _ IH]; intros Hy; [destruct Hy |].
  destruct Hy as [<- | Hy].
  - exists a. split; [now left | exact Hab].
  - destruct (IH Hy) as (x & Hx & Hr). exists x. split; [now right | exact Hr].
Qed.

Lemma run_samePage (first : HighlightRect) (rest : list HighlightRect) :
  Forall (samePage first) rest -> ForallOrdPairs samePage (first :: rest).
Proof.
  intro H. constructor; [exact H |].
  induction H as [|r rest Hr Hrest IH]; constructor; [| exact IH].
  apply Forall_forall. intros x Hx. unfold samePage in *.
  rewrite Forall_forall in Hrest.
  eapply eqb_trans; [apply eqb_sym, Hr | apply Hrest, Hx].
Qed.

(** *** Containment *)

Definition wideFirst : HighlightRect :=
  mkRect 0 0x1.e39999999999ap+6 0x1.f566666666666p+7 10 1.
Definition narrowSecond : HighlightRect :=
  mkRect 0 0x1.739999999999ap+8 0x1.8666666666666p+3 10 1.
Definition wideMerged : HighlightRect :=
  mkRect 0 0x1.e39999999999ap+6 0x1.06e6666666666p+8 10 1.

(** A rect and an overlapping rect whose height is [NaN]. *)
Definition soundRect : HighlightRect := mkRect 0 0 10 10 1.
Definition unmeasuredRect : HighlightRect := mkRect 0 5 10 nan 1.

(** [inner] lies within [outer], edges compared as the code computes
    them. *)
Definition within (inner outer : HighlightRect) : bool :=
  (left outer <=? left inner) && (top outer <=? top inner)
  && (left inner + width inner <=? left outer + width outer)
  && (top inner + height inner <=? top outer + height outer).




(** [mergeRectGroup] throws exactly on the empty group.  On any other
    group it returns a rect on the page of the first rect of the group: the
    rect itself when the group has one rect; and when no coordinate and no
    edge of the group is [NaN], the returned rect starts at or before every
    rect of the group, with a width and a height measured from a right and
    a bottom edge that are not before those of any rect of the group. *)
Theorem mergeRectGroup_on_groups (rects : list HighlightRect) :
  ((exists msg, mergeRectGroup rects = Thrown msg) <-> rects = []) /\
  (rects <> [] ->
   exists m, mergeRectGroup rects = Returned m /\
     (forall firstRect, hd_error rects = Some firstRect ->
        pageNumber m = pageNumber firstRect) /\
     (length rects = 1%nat -> rects = [m]) /\
     (Forall measured rects -> forall r, In r rects -> boxes m r)).
Proof.
  destruct rects as [|firstRect others].
  - split; [split; [reflexivity | intros _; eexists; reflexivity] |].
    intro H. now destruct H.
  - destruct (mergeRectGroup_boxes firstRect others) as (m & Hm & Hp & Hb).
    split.
    + split; [intros (msg & E); rewrite Hm in E; discriminate | discriminate].
    + intros _. exists m. split; [exact Hm |]. split; [| split; [| exact Hb]].
      * intros f Hf. cbn in Hf. inversion Hf; subst. exact Hp.
      * intro Hl. destruct others; [| discriminate].
        cbn in Hm. inversion Hm. reflexivity.
Qed.

Lemma mergeRectGroup_on_groups_witness :
  exists m, mergeRectGroup [wideFirst; narrowSecond] = Returned m /\
            boxes m narrowSecond.
Proof.
  destruct (proj2 (mergeRectGroup_on_groups [wideFirst; narrowSecond]))
    as (m & Hm & _ & _ & Hb); [discriminate |].
  exists m. split; [exact Hm |]. apply Hb; [| right; now left].
  repeat constructor; vm_compute; reflexivity.
Defined.

(** *** Pages *)

(** Two overlapping rects on different pages. *)
Definition onPageOne : HighlightRect := mkRect 0 0 10 10 1.
Definition onPageTwo : HighlightRect := mkRect 5 5 10 10 2.

(** C2, counterexample.  [doRectsOverlap] does not compare page numbers:
    [consolidateRects] puts a rect of page 1 and an overlapping rect of
    page 2 into one group and returns the single rect that
    [mergeRectGroup] makes of the two, which contains both. *)
Lemma consolidateRects_joins_pages :
  (pageNumber onPageOne =? pageNumber onPageTwo) = false /\
  consolidateRects [onPageOne; onPageTwo] = Returned [mkRect 0 0 15 15 1] /\
  mergeRectGroup [onPageOne; onPageTwo] = Returned (mkRect 0 0 15 15 1) /\
  within onPageOne (mkRect 0 0 15 15 1) = true /\
  within onPageTwo (mkRect 0 0 15 15 1) = true.
Proof. repeat split; vm_compute; reflexivity. Qed.

(** C2, as amended.  [consolidateHighlightRects] never merges across pages,
    in whatever order its sort leaves the rects: its output is what the loop
    makes of the runs of a partition of the input, each run merged into one
    rect, and any two rects of a run have the same page number.
    [consolidateRects] does not look at page numbers; when all input rects
    carry one page number, which is how its caller passes them (one call
    per page), every rect of its output carries that page number. *)
Theorem no_merge_across_pages
    (sort : list HighlightRect -> list HighlightRect)
    (rects : list HighlightRect) :
  permutes sort ->
  (exists groups,
     Forall2 mergedRun (consolidateHighlightRectsWith sort rects) groups /\
     Permutation (concat groups) rects /\
     forall g, In g groups -> ForallOrdPairs samePage g) /\
  (forall p, (forall r, In r rects -> pageNumber r = p) ->
     exists out, consolidateRects rects = Returned out /\
       forall o, In o out -> pageNumber o = p).
Proof.
  intro Hsort. split.
  - destruct (consolidateHighlightRects_runs sort rects Hsort)
      as (groups & HF & Hp).
    exists groups. split; [exact HF |]. split; [exact Hp |].
    intros g Hg.
    destruct (Forall2_paired _ _ _ _ HF Hg) as (o & _ & first & rest & -> & _ & H).
    apply run_samePage, H.
  - intros p Hp.
    destruct (consolidateRects_groups rects) as (out & E & Hout & _).
    exists out. split; [exact E |]. intros o Ho.
    destruct (Hout o Ho) as (f & others & Hg & Hincl).
    destruct (mergeRectGroup_boxes f others) as (m & Hm & Hpage & _).
    rewrite Hg in Hm. inversion Hm; subst m.
    rewrite Hpage. apply Hp, Hincl. now left.
Qed.

Lemma no_merge_across_pages_witness :
  exists out,
    consolidateRects [wideFirst; narrowSecond] = Returned out /\
    forall o, In o out -> pageNumber o = 1.
Proof.
  apply (proj2 (no_merge_across_pages (sortBy compareHighlights)
                  [wideFirst; narrowSecond]
                  sortBy_compareHighlights_permutes)).
  intros r [<- | [<- | []]]; reflexivity.
Defined.

(** *** Repeated consolidation *)

(** Order-insensitive equality of rect lists. *)
Definition sameSet (l1 l2 : list HighlightRect) : Prop :=
  forall r, In r l1 <-> In r l2.

(** An L-shaped pair of overlapping rects, and a small rect inside the
    corner that the L leaves free. *)
Definition elbowRects : list HighlightRect :=
  [mkRect 0 0 10 100 1; mkRect 90 0 100 10 1; mkRect 10 50 10 10 1].

(** Three rects stepping down to the right; the comparator orders them (and
    the result of consolidating them) by [top] alone, the tops being at least
    2 apart. *)
Definition stairRects : list HighlightRect :=
  [mkRect 0 0 10 10 1; mkRect 6 10 10 10 1; mkRect 8 20 10 30 1].

Lemma sameSet_one (o a b : HighlightRect) : sameSet [o] [a; b] -> b = o.
Proof.
  intro H. destruct (proj2 (H b)) as [E | []]; [right; now left |].
  symmetry. exact E.
Qed.

(** C1, counterexample.  [consolidateRects] turns [elbowRects] into the
    box of the L and the small rect, which the box overlaps: a second run
    merges them.  [consolidateHighlightRects] keeps the first of
    [stairRects] apart from the second and then grows the second by the
    third; the grown rect is on the line of the first, and a second run
    merges them. *)
Lemma consolidation_repeated_merges :
  (consolidateRects elbowRects
     = Returned [mkRect 0 0 100 100 1; mkRect 10 50 10 10 1] /\
   consolidateRects [mkRect 0 0 100 100 1; mkRect 10 50 10 10 1]
     = Returned [mkRect 0 0 100 100 1] /\
   ~ sameSet [mkRect 0 0 100 100 1]
             [mkRect 0 0 100 100 1; mkRect 10 50 10 10 1]) /\
  (consolidateHighlightRects stairRects
     = [mkRect 0 0 10 10 1; mkRect 6 10 20 32 1] /\
   consolidateHighlightRects (consolidateHighlightRects stairRects)
     = [mkRect 0 0 30 38 1] /\
   ~ sameSet (consolidateHighlightRects (consolidateHighlightRects stairRects))
             (consolidateHighlightRects stairRects)).
Proof.
  split; (split; [vm_compute; reflexivity |]);
    (split; [vm_compute; reflexivity |]).
  - intro H. apply sameSet_one in H.
    apply (f_equal (fun r => width r =? 10)) in H. vm_compute in H.
    discriminate.
  - replace (consolidateHighlightRects (consolidateHighlightRects stairRects))
      with [mkRect 0 0 30 38 1] by (vm_compute; reflexivity).
    replace (consolidateHighlightRects stairRects)
      with [mkRect 0 0 10 10 1; mkRect 6 10 20 32 1]
      by (vm_compute; reflexivity).
    intro H. apply sameSet_one in H.
    apply (f_equal (fun r => width r =? 20)) in H. vm_compute in H.
    discriminate.
Qed.

(** [consolidateRects] run [n] times, each run on the result of the one
    before. *)
Fixpoint consolidateRectsTimes (n : nat) (rects : list HighlightRect)
  : result (list HighlightRect) :=
  match n with
  | O => Returned rects
  | S n' => out <- consolidateRects rects ;; consolidateRectsTimes n' out
  end.

Lemma consolidateRectsTimes_settled (n : nat) (rects : list HighlightRect) :
  consolidateRects rects = Returned rects ->
  consolidateRectsTimes n rects = Returned rects.
Proof.
  intro H. induction n as [|n IH]; [reflexivity |].
  cbn. rewrite H. exact IH.
Qed.

Lemma consolidateRectsTimes_settles (n : nat) :
  forall rects, (length rects <= S n)%nat ->
    exists settled,
      consolidateRectsTimes n rects = Returned settled /\
      consolidateRects settled = Returned settled.
Proof.
  induction n as [|n IH]; intros rects Hlen.
  - exists rects. split; [reflexivity |]. unfold consolidateRects.
    destruct (Nat.leb_spec (length rects) 1); [reflexivity | lia].
  - destruct (consolidateRects_groups rects) as (out & E & _ & _ & [-> | Hlt]).
    + exists rects. split; [| exact E].
      apply consolidateRectsTimes_settled, E.
    + destruct (IH out) as (settled & H1 & H2); [lia |].
      exists settled. split; [| exact H2]. cbn. rewrite E. exact H1.
Qed.

(** C1, as amended.  A run of [consolidateRects] returns its input
    unchanged or returns fewer rects, so repeated runs reach a list that a
    further run returns unchanged, after at most [length R - 1] runs.  A run
    of [consolidateHighlightRects] returns its input as its sort ordered it
    or returns fewer rects, whatever the order the sort chooses; a second
    run never returns more rects than the first. *)
Theorem consolidation_settles
    (sort : list HighlightRect -> list HighlightRect)
    (R : list HighlightRect) :
  permutes sort ->
  (exists out, consolidateRects R = Returned out /\
     (out = R \/ (length out < length R)%nat)) /\
  (exists settled,
     consolidateRectsTimes (pred (length R)) R = Returned settled /\
     consolidateRects settled = Returned settled) /\
  (consolidateHighlightRectsWith sort R = sort R \/
   (length (consolidateHighlightRectsWith sort R) < length R)%nat) /\
  (length (consolidateHighlightRectsWith sort
             (consolidateHighlightRectsWith sort R))
   <= length (consolidateHighlightRectsWith sort R))%nat.
Proof.
  intro Hsort. split; [| split; [| split]].
  - destruct (consolidateRects_groups R) as (out & E & _ & _ & H).
    exists out. auto.
  - apply consolidateRectsTimes_settles. lia.
  - apply consolidateHighlightRects_shrinks, Hsort.
  - destruct (consolidateHighlightRects_shrinks sort
                (consolidateHighlightRectsWith sort R) Hsort)
      as [E | H]; [| lia].
    rewrite E. rewrite (Permutation_length (Hsort _)). lia.
Qed.

Lemma consolidation_settles_witness :
  (exists settled,
     consolidateRectsTimes 2 elbowRects = Returned settled /\
     consolidateRects settled = Returned settled) /\
  (length (consolidateHighlightRects (consolidateHighlightRects stairRects))
   <= length (consolidateHighlightRects stairRects))%nat.
Proof.
  destruct (consolidation_settles (sortBy compareHighlights) elbowRects
              sortBy_compareHighlights_permutes)
    as (_ & H & _).
  split; [exact H |].
  destruct (consolidation_settles (sortBy compareHighlights) stairRects
              sortBy_compareHighlights_permutes)
    as (_ & _ & _ & H').
  exact H'.
Defined.

End Geometry64.

(** ** The base canvas in binary64 *)

Module Raster64.
Import Floats Binary64.
#[local] Open Scope float_scope.
#[local] Set Warnings "-inexact-float".

Definition MAX_PIXELS : Z := 16777216.
Definition MAX_DIMENSION : Z := 32767.

(** [pageSide * targetScale] with [targetScale = dpr * zoom]. *)
Definition requested (pageSide dpr zoom : float) : float :=
  let targetScale := dpr * zoom in
  pageSide * targetScale.

(** The numbers assigned to [baseCanvas.width] and [baseCanvas.height];
    [None] stands for a request that is [NaN] or infinite. *)
Definition baseCanvasSize (pageWidth pageHeight dpr zoom : float)
  : option Z * option Z :=
  (Math_floor (requested pageWidth dpr zoom),
   Math_floor (requested pageHeight dpr zoom)).

Lemma Math_floor_scaled (x : float) (n : Z) :
  Math_floor x = Some n <->
  exists a, scaled x = Some a /\ n = (a / Zpos grain)%Z.
Proof.
  unfold Math_floor, exact. destruct (scaled x) as [a|]; cbn.
  - split.
    + intro H. inversion H. exists a. split; reflexivity.
    + intros (a' & E & ->). inversion E. reflexivity.
  - split; [discriminate | intros (a' & E & _); discriminate].
Qed.

(** The floor is below an integer bound exactly when the number is. *)
Lemma Math_floor_below (x bound : float) (n k : Z) :
  Math_floor x = Some n -> scaled bound = Some (k * Zpos grain)%Z ->
  (x <? bound) = (n <? k)%Z.
Proof.
  intros Hn Hb. apply Math_floor_scaled in Hn. destruct Hn as (a & Ea & ->).
  rewrite (ltb_scaled x bound a _ Ea Hb).
  pose proof (Z.div_mod a (Zpos grain) ltac:(lia)) as Hdm.
  pose proof (Z.mod_pos_bound a (Zpos grain) ltac:(lia)) as Hmod.
  destruct (Z.ltb_spec a (k * Zpos grain)) as [H | H];
    destruct (Z.ltb_spec (a / Zpos grain) k) as [H' | H'];
    try reflexivity; exfalso; nia.
Qed.

Lemma Math_floor_above (x bound : float) (n k : Z) :
  Math_floor x = Some n -> scaled bound = Some (k * Zpos grain)%Z ->
  (bound <=? x) = (k <=? n)%Z.
Proof.
  intros Hn Hb. apply Math_floor_scaled in Hn. destruct Hn as (a & Ea & ->).
  rewrite (leb_scaled bound x _ a Hb Ea).
  pose proof (Z.div_mod a (Zpos grain) ltac:(lia)) as Hdm.
  pose proof (Z.mod_pos_bound a (Zpos grain) ltac:(lia)) as Hmod.
  destruct (Z.leb_spec (k * Zpos grain) a) as [H | H];
    destruct (Z.leb_spec k (a / Zpos grain)) as [H' | H'];
    try reflexivity; exfalso; nia.
Qed.

Lemma Math_floor_exact (x : float) (n : Z) (q : Q) :
  Math_floor x = Some n -> exact x = Some q ->
  (inject_Z n <= q < inject_Z n + 1)%Q.
Proof.
  unfold Math_floor. intros Hn Hq. rewrite Hq in Hn. cbn in Hn.
  inversion Hn; subst n. split; [apply Qfloor_le |].
  pose proof (Qlt_floor q) as H. rewrite inject_Z_plus in H. exact H.
Qed.

(** C3, counterexample.  For a page of 1000 by 1000 at a device pixel ratio
    of 1 the base canvas is 6000 by 6000 at zoom 6, which is 36,000,000
    pixels, and 40000 by 40000 at zoom 40: both limits of the claim are
    exceeded. *)
Lemma base_canvas_over_limits :
  baseCanvasSize 1000 1000 1 6 = (Some 6000, Some 6000)%Z /\
  (MAX_PIXELS < 6000 * 6000)%Z /\
  baseCanvasSize 1000 1000 1 40 = (Some 40000, Some 40000)%Z /\
  (MAX_DIMENSION < 40000)%Z.
Proof. repeat split; vm_compute; reflexivity. Qed.

(** C3, as amended.  Whenever the requested sizes
    [pageWidth * (dpr * zoom)] and [pageHeight * (dpr * zoom)], computed in
    binary64, are finite, the base canvas has their floors as width and
    height and is not clamped: the width lies within 1 below the exact value
    of the requested width, it is at most 32,767 exactly when the requested
    width is below 32,768, and it is not negative exactly when the requested
    width is not; likewise the height.  The pixel count is at most
    16,777,216 when the requested sizes are not negative and their exact
    product is at most 16,777,216. *)
Theorem base_canvas_not_clamped (pageWidth pageHeight dpr zoom : float)
    (w h : Z) :
  baseCanvasSize pageWidth pageHeight dpr zoom = (Some w, Some h) ->
  let W := requested pageWidth dpr zoom in
  let H := requested pageHeight dpr zoom in
  ((w <= MAX_DIMENSION)%Z <-> (W <? 32768) = true) /\
  ((h <= MAX_DIMENSION)%Z <-> (H <? 32768) = true) /\
  ((0 <= w)%Z <-> (0 <=? W) = true) /\
  ((0 <= h)%Z <-> (0 <=? H) = true) /\
  exists qw qh,
    exact W = Some qw /\ exact H = Some qh /\
    (inject_Z w <= qw < inject_Z w + 1)%Q /\
    (inject_Z h <= qh < inject_Z h + 1)%Q /\
    (0 <= qw -> 0 <= qh -> qw * qh <= 16777216 ->
     (w * h <= MAX_PIXELS)%Z)%Q.
Proof.
  unfold baseCanvasSize. intro E. inversion E as [[Ew Eh]]. cbv zeta.
  set (W := requested pageWidth dpr zoom) in *.
  set (H := requested pageHeight dpr zoom) in *.
  assert (B : scaled 32768 = Some (32768 * Zpos grain)%Z)
    by (vm_compute; reflexivity).
  assert (Z0 : scaled 0 = Some (0 * Zpos grain)%Z) by reflexivity.
  unfold MAX_DIMENSION, MAX_PIXELS.
  split; [rewrite (Math_floor_below W 32768 w 32768 Ew B), Z.ltb_lt; lia |].
  split; [rewrite (Math_floor_below H 32768 h 32768 Eh B), Z.ltb_lt; lia |].
  split; [rewrite (Math_floor_above W 0 w 0 Ew Z0), Z.leb_le; lia |].
  split; [rewrite (Math_floor_above H 0 h 0 Eh Z0), Z.leb_le; lia |].
  destruct (exact W) as [qw|] eqn:Qw;
    [| unfold Math_floor in Ew; rewrite Qw in Ew; discriminate].
  destruct (exact H) as [qh|] eqn:Qh;
    [| unfold Math_floor in Eh; rewrite Qh in Eh; discriminate].
  exists qw, qh. split; [reflexivity |]. split; [reflexivity |].
  pose proof (Math_floor_exact W w qw Ew Qw) as Bw.
  pose proof (Math_floor_exact H h qh Eh Qh) as Bh.
  split; [exact Bw |]. split; [exact Bh |].
  intros Pw Ph Hprod.
  assert (Nw : (0 <= w)%Z).
  { unfold Math_floor in Ew. rewrite Qw in Ew. inversion Ew.
    change 0%Z with (Qfloor 0). apply Qfloor_resp_le, Pw. }
  assert (Nh : (0 <= h)%Z).
  { unfold Math_floor in Eh. rewrite Qh in Eh. inversion Eh.
    change 0%Z with (Qfloor 0). apply Qfloor_resp_le, Ph. }
  rewrite Zle_Qle, inject_Z_mult.
  apply Qle_trans with (qw * qh)%Q; [| exact Hprod].
  assert (Iw : (0 <= inject_Z w)%Q)
    by (change 0%Q with (inject_Z 0); now rewrite <- Zle_Qle).
  assert (Ih : (0 <= inject_Z h)%Q)
    by (change 0%Q with (inject_Z 0); now rewrite <- Zle_Qle).
  destruct Bw as [Bw _], Bh as [Bh _]. nra.
Qed.

Lemma base_canvas_not_clamped_witness :
  baseCanvasSize 1000 1000 1 0.7 = (Some 700, Some 700)%Z /\
  ((700 <= MAX_DIMENSION)%Z <-> (requested 1000 1 0.7 <? 32768) = true).
Proof.
  split; [vm_compute; reflexivity |].
  apply (base_canvas_not_clamped 1000 1000 1 0.7 700 700).
  vm_compute; reflexivity.
Defined.

End Raster64.

(** ** [clampScaleForPage] in binary64 *)

Module DetailCanvas64.
Import Floats Binary64.
#[local] Open Scope float_scope.
#[local] Set Warnings "-inexact-float".

Definition MAX_CANVAS_PIXELS : float := 16777216.
Definition MAX_CANVAS_DIMENSION : float := 32767.

(** [Math.min] of four numbers. *)
Definition Math_min4 (a b c d : float) : float :=
  Math_min (Math_min (Math_min a b) c) d.

Definition areaLimit (pageWidth pageHeight : float) : float :=
  sqrt (MAX_CANVAS_PIXELS / Math_max (pageWidth * pageHeight) 1).
Definition widthLimit (pageWidth : float) : float :=
  MAX_CANVAS_DIMENSION / Math_max pageWidth 1.
Definition heightLimit (pageHeight : float) : float :=
  MAX_CANVAS_DIMENSION / Math_max pageHeight 1.

Definition clampScaleForPage (targetScale pageWidth pageHeight : float)
  : float :=
  if falsy targetScale then 0
  else
    let areaLimit := areaLimit pageWidth pageHeight in
    let widthLimit := widthLimit pageWidth in
    let heightLimit := heightLimit pageHeight in
    let safeScale :=
      Math_min4 targetScale
        (if is_finite areaLimit then areaLimit else targetScale)
        (if is_finite widthLimit then widthLimit else targetScale)
        (if is_finite heightLimit then heightLimit else targetScale) in
    Math_max safeScale 0.

(** A limit that is finite is a number that is not below zero. *)
Lemma areaLimit_sign (w h : float) :
  is_finite (areaLimit w h) = true -> le 0 (areaLimit w h).
Proof.
  intro H. apply unsigned_le; [apply sqrt_unsigned | apply finite_number, H].
Qed.

Lemma sideLimit_sign (side : float) :
  is_finite (MAX_CANVAS_DIMENSION / Math_max side 1) = true ->
  le 0 (MAX_CANVAS_DIMENSION / Math_max side 1).
Proof.
  intro H. apply unsigned_le; [| apply finite_number, H].
  destruct (is_nan side) eqn:N.
  - exfalso. unfold Math_max in H. rewrite N in H. cbn [orb] in H.
    vm_compute in H. discriminate.
  - destruct (Math_max_spec side 1 N eq_refl) as (_ & _ & H1).
    eapply div_unsigned; [reflexivity | exact H1].
Qed.

(** A candidate of the [Math.min]: the limit, or the requested scale when
    the limit is not finite. *)
Definition candidate (limit targetScale : float) : float :=
  if is_finite limit then limit else targetScale.

Lemma candidate_sign (limit s : float) :
  (is_finite limit = true -> le 0 limit) -> le 0 s -> le 0 (candidate limit s).
Proof.
  unfold candidate. intros H Hs. destruct (is_finite limit); auto.
Qed.

Lemma Math_min4_spec (a b c d : float) :
  number a -> number b -> number c -> number d ->
  (Math_min4 a b c d = a \/ Math_min4 a b c d = b \/
   Math_min4 a b c d = c \/ Math_min4 a b c d = d) /\
  le (Math_min4 a b c d) a /\ le (Math_min4 a b c d) b /\
  le (Math_min4 a b c d) c /\ le (Math_min4 a b c d) d.
Proof.
  intros Na Nb Nc Nd. unfold Math_min4.
  pose proof (Math_min_number a b Na Nb) as Nab.
  pose proof (Math_min_number _ c Nab Nc) as Nabc.
  destruct (Math_min_spec a b Na Nb) as (E1 & A1 & B1).
  destruct (Math_min_spec _ c Nab Nc) as (E2 & A2 & B2).
  destruct (Math_min_spec _ d Nabc Nd) as (E3 & A3 & B3).
  split.
  - destruct E3 as [-> | ->]; [| tauto].
    destruct E2 as [-> | ->]; [| tauto].
    destruct E1 as [-> | ->]; tauto.
  - repeat split; eauto using le_trans.
Qed.

(** C4, counterexample.  For a page of 100 by 295 and a requested scale of
    1000 the function returns 23.84783399893328, the rounded square root of
    the rounded quotient [16777216 / 29500]; the scaled area
    [(s' * 100) * (s' * 295)] is [16777216.000000004], above 16,777,216,
    in binary64 and also for the exact value of [s'].  For a page of 81 by 1
    and a requested scale of [1e9] the scaled width is
    [32767.000000000004].  For a page of infinite width the function
    returns 0, and the scaled width [0 * Infinity] is [NaN], of which no
    limit holds. *)
Lemma clamp_exceeds_limits :
  (let s' := clampScaleForPage 1000 100 295 in
   s' = 23.84783399893328 /\
   (s' * 100) * (s' * 295) = 16777216.000000004 /\
   (MAX_CANVAS_PIXELS <? (s' * 100) * (s' * 295)) = true /\
   (exists q, exact s' = Some q /\ (16777216 < (q * 100) * (q * 295))%Q)) /\
  (let s' := clampScaleForPage 1e9 81 1 in
   s' * 81 = 32767.000000000004 /\
   (MAX_CANVAS_DIMENSION <? s' * 81) = true /\
   (exists q, exact s' = Some q /\ (32767 < q * 81)%Q)) /\
  (let s' := clampScaleForPage 1000 infinity 10 in
   s' = 0 /\ is_nan (s' * infinity) = true /\
   (s' * infinity <=? MAX_CANVAS_DIMENSION) = false).
Proof.
  split; [| split]; cbv zeta.
  - split; [vm_compute; reflexivity |]. split; [vm_compute; reflexivity |].
    split; [vm_compute; reflexivity |].
    eexists. split; [vm_compute; reflexivity |]. vm_compute. reflexivity.
  - split; [vm_compute; reflexivity |]. split; [vm_compute; reflexivity |].
    eexists. split; [vm_compute; reflexivity |]. vm_compute. reflexivity.
  - repeat split; vm_compute; reflexivity.
Qed.

(** For a requested scale [s > 0] and any page size, the clamped scale [s']
    is a number with [0 <= s' <= s]; it is at most each of the three limits
    that the function computes, in binary64, and that is finite; and it is
    equal to [s] or to one of those limits. *)
Lemma clamp_within_computed_limits (s w h : float) :
  lt 0 s ->
  let s' := clampScaleForPage s w h in
  le 0 s' /\ le s' s /\
  (is_finite (areaLimit w h) = true -> le s' (areaLimit w h)) /\
  (is_finite (widthLimit w) = true -> le s' (widthLimit w)) /\
  (is_finite (heightLimit h) = true -> le s' (heightLimit h)) /\
  ((s' =? s) = true \/
   (is_finite (areaLimit w h) = true /\ (s' =? areaLimit w h) = true) \/
   (is_finite (widthLimit w) = true /\ (s' =? widthLimit w) = true) \/
   (is_finite (heightLimit h) = true /\ (s' =? heightLimit h) = true)).
Proof.
  intros Hs. cbv zeta. unfold clampScaleForPage.
  rewrite (lt_not_falsy s Hs).
  pose proof (lt_le _ _ Hs) as Hs0.
  destruct (lt_number _ _ Hs) as [_ Ns].
  fold (candidate (areaLimit w h) s) (candidate (widthLimit w) s)
       (candidate (heightLimit h) s).
  pose proof (candidate_sign _ s (areaLimit_sign w h) Hs0) as PA.
  pose proof (candidate_sign _ s (sideLimit_sign w) Hs0) as PW.
  pose proof (candidate_sign _ s (sideLimit_sign h) Hs0) as PH.
  fold (widthLimit w) in PW. fold (heightLimit h) in PH.
  set (cA := candidate (areaLimit w h) s) in *.
  set (cW := candidate (widthLimit w) s) in *.
  set (cH := candidate (heightLimit h) s) in *.
  destruct (Math_min4_spec s cA cW cH Ns
              (proj2 (le_number _ _ PA)) (proj2 (le_number _ _ PW))
              (proj2 (le_number _ _ PH))) as (Esafe & L0 & LA & LW & LH).
  set (safe := Math_min4 s cA cW cH) in *.
  assert (Psafe : le 0 safe).
  { destruct Esafe as [-> | [-> | [-> | ->]]]; assumption. }
  destruct (le_number _ _ Psafe) as [N0 Nsafe].
  destruct (Math_max_spec safe 0 Nsafe N0) as (Emax & M1 & M2).
  set (s' := Math_max safe 0) in *.
  assert (Hsame : le s' safe).
  { destruct Emax as [-> | ->]; [apply le_refl, Nsafe | exact Psafe]. }
  assert (Heq : (s' =? safe) = true) by (apply le_antisym; assumption).
  split; [exact M2 |]. split; [eapply le_trans; eassumption |].
  split; [| split; [| split]].
  - intro F. eapply le_trans; [exact Hsame |].
    unfold cA, candidate in LA. rewrite F in LA. exact LA.
  - intro F. eapply le_trans; [exact Hsame |].
    unfold cW, candidate in LW. rewrite F in LW. exact LW.
  - intro F. eapply le_trans; [exact Hsame |].
    unfold cH, candidate in LH. rewrite F in LH. exact LH.
  - destruct Esafe as [E | [E | [E | E]]]; rewrite E in Heq.
    + now left.
    + unfold cA, candidate in Heq.
      destruct (is_finite (areaLimit w h)); [right; left; auto | now left].
    + unfold cW, candidate in Heq.
      destruct (is_finite (widthLimit w));
        [right; right; left; auto | now left].
    + unfold cH, candidate in Heq.
      destruct (is_finite (heightLimit h));
        [right; right; right; auto | now left].
Qed.

(** *** The limits, up to rounding

    From here on the numbers are compared by their exact values, which are
    real numbers. *)

Import Reals Lra Qreals Rounding64.
#[local] Open Scope R_scope.

Lemma integer_value (x : float) (n : Z) :
  scaled x = Some (n * Zpos grain)%Z -> value x = IZR n.
Proof.
  intro E. rewrite (scaled_value x _ E), mult_IZR, grain_value, Rmult_assoc.
  change (-1074)%Z with (- (1074))%Z. rewrite p2_cancel. lra.
Qed.

Lemma value_dimension : value MAX_CANVAS_DIMENSION = 32767.
Proof. apply (integer_value _ 32767). vm_compute. reflexivity. Qed.

Lemma value_pixels : value MAX_CANVAS_PIXELS = 16777216.
Proof. apply (integer_value _ 16777216). vm_compute. reflexivity. Qed.

(** The unit roundoff [2^-53] and its multiples. *)
Lemma roundoff_facts :
  0 < p2 (-53) <= / 32 /\ p2 (-52) = 2 * p2 (-53) /\
  p2 (-51) = 4 * p2 (-53) /\ p2 (-50) = 8 * p2 (-53).
Proof.
  pose proof (p2_pos (-53)) as P.
  assert (L : p2 (-53) <= p2 (-5)) by (apply p2_le; lia).
  assert (E5 : p2 (-5) = / 32).
  { change (-5)%Z with (- (5))%Z. rewrite p2_opp, <- p2_IZR by lia.
    reflexivity. }
  pose proof (p2_succ (-53)) as E1. change (-53 + 1)%Z with (-52)%Z in E1.
  pose proof (p2_succ (-52)) as E2. change (-52 + 1)%Z with (-51)%Z in E2.
  pose proof (p2_succ (-51)) as E3. change (-51 + 1)%Z with (-50)%Z in E3.
  repeat split; lra.
Qed.

Lemma p2_15 : p2 15 = 32768.
Proof. rewrite <- p2_IZR by lia. reflexivity. Qed.

Lemma p2_24 : p2 24 = 16777216.
Proof. rewrite <- p2_IZR by lia. reflexivity. Qed.

Lemma p2_3 : p2 3 = 8.
Proof. rewrite <- p2_IZR by lia. reflexivity. Qed.

(** [Math.max(x, 1)] of a finite number: a positive finite number. *)
Lemma max_one (x : float) :
  is_finite x = true ->
  exists md ed,
    Prim2SF (Math_max x 1) = S754_finite false md ed /\
    is_finite (Math_max x 1) = true /\
    1 <= value (Math_max x 1) /\ value x <= value (Math_max x 1).
Proof.
  intro F. pose proof (finite_number x F) as N.
  destruct (Math_max_spec x 1 N eq_refl) as (E & Lx & L1).
  assert (Fd : is_finite (Math_max x 1) = true)
    by (destruct E as [-> | ->]; [exact F | reflexivity]).
  destruct (le_one_finite _ L1 Fd) as (md & ed & Ed & D1).
  exists md, ed. split; [exact Ed |]. split; [exact Fd |].
  split; [exact D1 | apply le_value; assumption].
Qed.

(** The limit on a side is finite, and the side scaled by it is within
    [2^-52] of 32767. *)
Lemma sideLimit_bound (side : float) :
  is_finite side = true ->
  let limit := (MAX_CANVAS_DIMENSION / Math_max side 1)%float in
  is_finite limit = true /\ 0 <= value limit /\
  value limit * value side <= 32767 * (1 + p2 (-52)).
Proof.
  intro F. cbv zeta.
  destruct (max_one side F) as (md & ed & Ed & Fd & D1 & Dx).
  set (d := Math_max side 1) in *.
  assert (Ex : exists mx ex,
             Prim2SF MAX_CANVAS_DIMENSION = S754_finite false mx ex)
    by (vm_compute; eauto).
  destruct Ex as (mx & ex & Ex).
  pose proof value_dimension as Vx.
  pose proof (value_below d Fd) as Db.
  destruct roundoff_facts as ((U0 & U1) & U52 & _).
  destruct (div_upper MAX_CANVAS_DIMENSION d mx md ex ed Ex Ed)
    as (Fl & L0 & HL).
  { rewrite Vx.
    assert (p2 15 <= p2 971) by (apply p2_le; lia). rewrite p2_15 in *.
    apply Rlt_le_trans with 32768; [| assumption].
    apply Rle_lt_trans with (32767 / 1); [| lra].
    unfold Rdiv. apply Rmult_le_compat_l; [lra |].
    apply Rinv_le_contravar; lra. }
  split; [exact Fl |]. split; [exact L0 |].
  rewrite Vx in HL. rewrite U52.
  revert L0 HL D1 Dx Db.
  generalize (value (MAX_CANVAS_DIMENSION / d)%float) (value d) (value side)
             (p2 (-53)) U0 U1.
  clear. intros L D W u U0 U1 L0 HL D1 Dx Db.
  assert (LW : L * W <= L * D) by nra.
  destruct HL as [HL | HL].
  - assert (H : L * D * (1 - u) <= 32767).
    { apply Rmult_le_compat_r with (r := D) in HL; [| lra].
      replace (32767 / D * D) with 32767 in HL by (field; lra). lra. }
    assert (T0 : 0 <= L * D) by nra.
    revert LW H T0. generalize (L * D). intros t LW H T0.
    assert (t <= 65534) by nra. nra.
  - pose proof (p2_add (-1021) 1024) as E. change (-1021 + 1024)%Z with 3%Z in E.
    rewrite p2_3 in E. pose proof (p2_pos (-1021)). nra.
Qed.

(** A product of finite numbers is a number. *)
Lemma mul_number (w h : float) :
  is_finite w = true -> is_finite h = true -> number (w * h)%float.
Proof.
  rewrite !is_finite_spec, number_spec, mul_spec. unfold SF64mul.
  destruct (Prim2SF w) as [sw|sw| |sw mw ew], (Prim2SF h) as [sh|sh| |sh mh eh];
    cbn [finiteSF]; try discriminate; intros _ _; try (cbn; discriminate).
  pose proof (mul_core_bounds sw sh mw mh ew eh) as B. cbv zeta in B.
  intro E. rewrite E in B. exact B.
Qed.

(** A positive product of finite numbers, against its rounded value. *)
Lemma mul_positive (w h : float) :
  is_finite w = true -> is_finite h = true -> 0 < value w * value h ->
  le 0 (w * h)%float /\
  (is_finite (w * h)%float = true ->
   value w * value h <= value (w * h)%float * (1 + p2 (-51)) \/
   value w * value h < p2 (-1020)).
Proof.
  rewrite (is_finite_spec w), (is_finite_spec h).
  destruct (Prim2SF w) as [sw|sw| |sw mw ew] eqn:Ew;
    cbn [finiteSF]; try discriminate; intros _;
    destruct (Prim2SF h) as [sh|sh| |sh mh eh] eqn:Eh;
    cbn [finiteSF]; try discriminate; intros _;
    unfold value at 1 2; rewrite Ew, Eh; cbn [SF2R]; intro P; try lra.
  pose proof (finite_F2R mw ew). pose proof (finite_F2R mh eh).
  assert (Hs : xorb sw sh = false) by (destruct sw, sh; try reflexivity; nra).
  exact (mul_lower w h sw sh mw mh ew eh Ew Eh Hs).
Qed.

(** The limit on the area is finite; the area of the page scaled by it is
    within [2^-50] of 16777216. *)
Lemma areaLimit_bound (w h : float) :
  is_finite w = true -> is_finite h = true ->
  is_finite (areaLimit w h) = true /\ 0 <= value (areaLimit w h) /\
  value (areaLimit w h) * value (areaLimit w h) * (value w * value h)
  <= 16777216 * (1 + p2 (-50)).
Proof.
  intros Fw Fh. unfold areaLimit.
  pose proof (mul_number w h Fw Fh) as Np.
  set (p := (w * h)%float) in *.
  destruct (Math_max_spec p 1 Np eq_refl) as (Ed & Lp & L1).
  set (d := Math_max p 1) in *.
  assert (Ex : exists mx ex,
             Prim2SF MAX_CANVAS_PIXELS = S754_finite false mx ex)
    by (vm_compute; eauto).
  destruct Ex as (mx & ex & Ex).
  pose proof value_pixels as Vx.
  destruct roundoff_facts as ((U0 & U1) & _ & U51 & U50).
  assert (Bound : 0 <= 16777216 * (1 + p2 (-50))) by lra.
  (* the limit is zero, or the root of a quotient by a finite divisor *)
  assert (Hd : Prim2SF d = S754_infinity false \/ is_finite d = true).
  { pose proof L1 as L. unfold le in L. rewrite leb_spec in L.
    rewrite is_finite_spec. revert L.
    change (Prim2SF 1) with (S754_finite false 4503599627370496 (-52)).
    unfold SFleb.
    destruct (Prim2SF d) as [[]|[]| |[] m e]; cbn; try discriminate; auto. }
  destruct Hd as [Hd | Fd].
  { (* an infinite divisor: the quotient is zero, and so is its root *)
    assert (Ey : Prim2SF (MAX_CANVAS_PIXELS / d)%float = S754_zero false)
      by (rewrite div_spec, Ex, Hd; reflexivity).
    assert (Ea : Prim2SF (PrimFloat.sqrt (MAX_CANVAS_PIXELS / d)%float) = S754_zero false)
      by (rewrite sqrt_spec, Ey; reflexivity).
    rewrite is_finite_spec. unfold value at 1 2 3. rewrite Ea.
    cbn [SF2R finiteSF]. split; [reflexivity |]. split; [lra |].
    rewrite !Rmult_0_l. exact Bound. }
  destruct (le_one_finite d L1 Fd) as (md & ed & Emd & D1).
  pose proof (value_below d Fd) as Db.
  destruct (div_upper MAX_CANVAS_PIXELS d mx md ex ed Ex Emd)
    as (Fy & Y0 & HY).
  { rewrite Vx.
    assert (p2 24 <= p2 971) by (apply p2_le; lia). rewrite p2_24 in *.
    apply Rle_lt_trans with (16777216 / 1);
      [| pose proof (p2_lt 24 971 ltac:(lia)); rewrite p2_24 in *; lra].
    unfold Rdiv. apply Rmult_le_compat_l; [lra |].
    apply Rinv_le_contravar; lra. }
  rewrite Vx in HY.
  set (y := (MAX_CANVAS_PIXELS / d)%float) in *.
  pose proof (div_unsigned MAX_CANVAS_PIXELS d mx ex Ex L1) as Uy.
  fold y in Uy.
  assert (Ha : is_finite (PrimFloat.sqrt y) = true /\ 0 <= value (PrimFloat.sqrt y) /\
               (value (PrimFloat.sqrt y) = 0 \/
                value (PrimFloat.sqrt y) * (1 - p2 (-53)) <= R_sqrt.sqrt (value y) \/
                value (PrimFloat.sqrt y) < p2 (-1021))).
  { revert Fy Uy. rewrite (is_finite_spec y).
    destruct (Prim2SF y) as [sy|sy| |sy my ey] eqn:Ey; cbn [finiteSF unsigned];
      try discriminate; intros _ Uy.
    - assert (Ea : Prim2SF (PrimFloat.sqrt y) = S754_zero sy)
        by (rewrite sqrt_spec, Ey; reflexivity).
      rewrite is_finite_spec. unfold value. rewrite Ea. cbn [SF2R finiteSF].
      split; [reflexivity |]. split; [lra | now left].
    - subst sy. destruct (sqrt_upper y my ey Ey) as (Fa & A0 & HA).
      split; [exact Fa |]. split; [exact A0 | right; exact HA]. }
  destruct Ha as (Fa & A0 & HA).
  split; [exact Fa |]. split; [exact A0 |].
  (* the area *)
  destruct (Rle_or_lt (value w * value h) 0) as [Hneg | Hpos].
  { apply Rle_trans with 0; [| exact Bound].
    assert (0 <= value (PrimFloat.sqrt y) * value (PrimFloat.sqrt y)) by nra. nra. }
  destruct (mul_positive w h Fw Fh Hpos) as (P0 & HP). fold p in P0, HP.
  assert (Fp : is_finite p = true) by (apply (le_finite p d); assumption).
  specialize (HP Fp).
  pose proof (le_value p d Fp Fd Lp) as Lpd.
  assert (Harea : value w * value h <= value d * (1 + p2 (-51))).
  { destruct HP as [HP | HP].
    - assert (0 <= value p).
      { apply (le_value 0 p eq_refl Fp) in P0.
        unfold value at 1 in P0. cbn in P0. exact P0. }
      nra.
    - assert (p2 (-1020) <= p2 0) by (apply p2_le; lia).
      rewrite p2_0 in *. nra. }
  assert (Ysq : 0 <= value y) by exact Y0.
  pose proof (sqrt_sqrt (value y) Ysq) as Sq.
  pose proof (sqrt_pos (value y)) as Sp.
  rewrite U50. rewrite U51 in Harea.
  pose proof (p2_add (-1021) 1024) as E3.
  change (-1021 + 1024)%Z with 3%Z in E3. rewrite p2_3 in E3.
  pose proof (p2_pos (-1021)) as Pt.
  assert (Pt1 : p2 (-1021) <= 1).
  { rewrite <- p2_0. apply p2_le. lia. }
  revert A0 HA Y0 HY Sq Sp Harea Hpos D1 Db E3 Pt Pt1.
  generalize (value (PrimFloat.sqrt y)) (value y) (R_sqrt.sqrt (value y)) (value d)
             (value w * value h) (p2 (-53)) U0 U1 (p2 (-1021)) (p2 1024).
  clear. intros A Y rY D WH u U0 U1 tiny big A0 HA Y0 HY Sq Sp Harea Hpos
                D1 Db E3 Pt Pt1.
  assert (AA : 0 <= A * A) by nra.
  assert (Hwh : A * A * WH <= A * A * (D * (1 + 4 * u))) by nra.
  apply Rle_trans with (A * A * (D * (1 + 4 * u))); [exact Hwh |].
  destruct HA as [HA | [HA | HA]].
  - rewrite HA. nra.
  - (* the root is rounded from the root of the quotient *)
    assert (HA2 : A * A * ((1 - u) * (1 - u)) <= Y).
    { rewrite <- Sq.
      replace (A * A * ((1 - u) * (1 - u))) with (A * (1 - u) * (A * (1 - u)))
        by ring.
      apply Rmult_le_compat; nra. }
    destruct HY as [HY | HY].
    + assert (HYD : Y * (1 - u) * D <= 16777216).
      { apply Rmult_le_compat_r with (r := D) in HY; [| lra].
        replace (16777216 / D * D) with 16777216 in HY by (field; lra).
        exact HY. }
      assert (T : A * A * D * ((1 - u) * (1 - u) * (1 - u)) <= 16777216).
      { apply Rle_trans with (Y * (1 - u) * D); [| exact HYD].
        replace (A * A * D * ((1 - u) * (1 - u) * (1 - u)))
          with (A * A * ((1 - u) * (1 - u)) * ((1 - u) * D)) by ring.
        replace (Y * (1 - u) * D) with (Y * ((1 - u) * D)) by ring.
        apply Rmult_le_compat_r; [nra | exact HA2]. }
      assert (T0 : 0 <= A * A * D) by nra.
      replace (A * A * (D * (1 + 4 * u))) with (A * A * D * (1 + 4 * u)) by ring.
      revert T T0. generalize (A * A * D). intros t T T0.
      assert (C : 1 + 4 * u <= (1 + 8 * u) * ((1 - u) * (1 - u) * (1 - u))).
      { assert (0 <= u * u) by nra. assert (u * u <= u / 32) by nra.
        assert (0 <= u * u * u) by nra. assert (u * u * u <= u * u / 32) by nra.
        assert (0 <= u * u * u * u) by nra.
        assert (u * u * u * u <= u * u * u / 32) by nra.
        nra. }
      apply Rle_trans with (t * ((1 + 8 * u) * ((1 - u) * (1 - u) * (1 - u)))).
      * apply Rmult_le_compat_l; assumption.
      * replace (t * ((1 + 8 * u) * ((1 - u) * (1 - u) * (1 - u))))
          with (t * ((1 - u) * (1 - u) * (1 - u)) * (1 + 8 * u)) by ring.
        apply Rmult_le_compat_r; [lra | exact T].
    + (* a quotient in the lowest binade *)
      assert (H1 : A * A <= 2 * tiny).
      { assert (/ 2 <= (1 - u) * (1 - u)) by nra.
        assert (A * A * / 2 <= Y) by nra. lra. }
      assert (H2 : D * (1 + 4 * u) <= 2 * big) by nra.
      apply Rle_trans with (2 * tiny * (2 * big)); [| nra].
      apply Rmult_le_compat; nra.
  - (* a root in the lowest binade *)
    assert (H1 : A * A <= tiny * tiny) by (apply Rmult_le_compat; lra).
    assert (H2 : D * (1 + 4 * u) <= 2 * big) by nra.
    apply Rle_trans with (tiny * tiny * (2 * big)); [| nra].
    apply Rmult_le_compat; nra.
Qed.

(** [2^-k] as a rational. *)
Definition roundoff (k : positive) : Q := 1 # (2 ^ k).

Lemma roundoff_value (k : positive) : Q2R (roundoff k) = p2 (- Zpos k).
Proof.
  unfold roundoff, Q2R. cbn [Qnum Qden].
  rewrite Pos2Z.inj_pow, p2_IZR by lia. rewrite p2_opp. lra.
Qed.

(** C4, as amended.  For a requested scale [s > 0] and a page whose width
    and height are finite numbers, the clamped scale [s'] is a finite number
    with [0 <= s' <= s], and the exact values of [s'], [w] and [h] satisfy
    the three limits up to the rounding of the quotients, of the product
    and of the square root that the function computes:
    [s' * w <= 32767 * (1 + 2^-52)], [s' * h <= 32767 * (1 + 2^-52)] and
    [(s' * w) * (s' * h) <= 16777216 * (1 + 2^-50)]. *)
Theorem clamp_within_tolerance (s w h : float) :
  lt 0 s -> is_finite w = true -> is_finite h = true ->
  let s' := clampScaleForPage s w h in
  le 0 s' /\ le s' s /\
  exists qs qw qh : Q,
    exact s' = Some qs /\ exact w = Some qw /\ exact h = Some qh /\
    (0 <= qs)%Q /\
    (qs * qw <= 32767 * (1 + roundoff 52))%Q /\
    (qs * qh <= 32767 * (1 + roundoff 52))%Q /\
    ((qs * qw) * (qs * qh) <= 16777216 * (1 + roundoff 50))%Q.
Proof.
  intros Hs Fw Fh.
  destruct (clamp_within_computed_limits s w h Hs)
    as (S0 & Ss & HA & HW & HH & _).
  cbv zeta in *. set (s' := clampScaleForPage s w h) in *.
  destruct (sideLimit_bound w Fw) as (FW & LW0 & BW).
  destruct (sideLimit_bound h Fh) as (FH & LH0 & BH).
  destruct (areaLimit_bound w h Fw Fh) as (FA & LA0 & BA).
  fold (widthLimit w) in FW, LW0, BW. fold (heightLimit h) in FH, LH0, BH.
  specialize (HA FA). specialize (HW FW). specialize (HH FH).
  assert (Fs : is_finite s' = true) by (apply (le_finite s' (widthLimit w)); assumption).
  pose proof (le_value 0 s' eq_refl Fs S0) as V0.
  assert (Z0 : value 0 = 0) by (unfold value; cbn; reflexivity).
  rewrite Z0 in V0.
  pose proof (le_value _ _ Fs FA HA) as VA.
  pose proof (le_value _ _ Fs FW HW) as VW.
  pose proof (le_value _ _ Fs FH HH) as VH.
  split; [exact S0 |]. split; [exact Ss |].
  destruct (finite_exact s' Fs) as [qs Es].
  destruct (finite_exact w Fw) as [qw Ew].
  destruct (finite_exact h Fh) as [qh Eh].
  exists qs, qw, qh. split; [exact Es |]. split; [exact Ew |].
  split; [exact Eh |].
  pose proof (exact_value _ _ Es) as Qs.
  pose proof (exact_value _ _ Ew) as Qw.
  pose proof (exact_value _ _ Eh) as Qh.
  destruct roundoff_facts as ((U0 & U1) & U52 & _ & U50).
  assert (C1 : Q2R (32767 * (1 + roundoff 52)) = 32767 * (1 + p2 (-52))).
  { rewrite Q2R_mult, Q2R_plus, roundoff_value. unfold Q2R. cbn [Qnum Qden].
    change (- Zpos 52)%Z with (-52)%Z. lra. }
  assert (C2 : Q2R (16777216 * (1 + roundoff 50)) = 16777216 * (1 + p2 (-50))).
  { rewrite Q2R_mult, Q2R_plus, roundoff_value. unfold Q2R. cbn [Qnum Qden].
    change (- Zpos 50)%Z with (-50)%Z. lra. }
  split; [| split; [| split]].
  - apply Rle_Qle. rewrite Qs. unfold Q2R. cbn [Qnum Qden]. lra.
  - apply Rle_Qle. rewrite C1, Q2R_mult, Qs, Qw.
    destruct (Rle_or_lt (value w) 0) as [N | P]; [| nra].
    apply Rle_trans with 0; [nra | lra].
  - apply Rle_Qle. rewrite C1, Q2R_mult, Qs, Qh.
    destruct (Rle_or_lt (value h) 0) as [N | P]; [| nra].
    apply Rle_trans with 0; [nra | lra].
  - apply Rle_Qle. rewrite C2, !Q2R_mult, Qs, Qw, Qh.
    replace (value s' * value w * (value s' * value h))
      with (value s' * value s' * (value w * value h)) by ring.
    destruct (Rle_or_lt (value w * value h) 0) as [N | P].
    + apply Rle_trans with 0; [| lra].
      assert (0 <= value s' * value s') by nra. nra.
    + eapply Rle_trans; [| exact BA].
      apply Rmult_le_compat_r; [lra |]. apply Rmult_le_compat; assumption.
Qed.

Lemma clamp_within_tolerance_witness :
  exists qs qw qh : Q,
    exact (clampScaleForPage 1000 100 295) = Some qs /\
    exact 100 = Some qw /\ exact 295 = Some qh /\
    ((qs * qw) * (qs * qh) <= 16777216 * (1 + roundoff 50))%Q.
Proof.
  destruct (clamp_within_tolerance 1000 100 295 eq_refl eq_refl eq_refl)
    as (_ & _ & qs & qw & qh & Es & Ew & Eh & _ & _ & _ & H).
  exists qs, qw, qh. auto.
Defined.

End DetailCanvas64.
